(** * chesstree: the treemap tree of [tm_trees.py]

    A shallow embedding of the mutable [TMTree] objects and of the
    functions of [tm_trees.py], and the properties of the specification
    stated over it.

    Python objects live in a store indexed by object identity; the
    attributes [_subtrees] and [_parent_tree] hold identities, so that a
    node reached through its parent and through a variable is one object.
    Every method is a function from stores to outcomes; an outcome keeps
    the store at the point where an exception was raised, because Python
    does not undo the assignments made before the [raise].

    The list behind [_subtrees] is held by value: no two objects share one
    list object, as is the case for every tree that the module itself
    builds. Recursion and [while] loops run on a budget of steps, and
    every result on a call that returns comes with the budget that makes
    it return.

    The file has five parts: the program, the notions of the
    specification, the lemmas about the program, the properties of the
    specification, and further properties of the program. *)

From Stdlib Require Import ZArith QArith Qround Lia String.
From stdpp Require Import base gmap list strings fin_maps pretty.

Open Scope Z_scope.

(** * The program *)

(** ** Data model *)

(** The class of an object: [TMTree] itself or one of its three
    subclasses. *)
Inductive kind := Generic | File | Directory | ChessMove.

#[global] Instance kind_eq_dec : EqDecision kind.
Proof. solve_decision. Defined.

(** Object identity ([is] in Python). *)
Abbreviation oid := nat.

(** A pygame rectangle [(x, y, width, height)]. *)
Abbreviation rectangle := (Z * Z * Z * Z)%type.

Abbreviation colour := (Z * Z * Z)%type.

(** The attributes of one [TMTree] object. [_white_to_play] is only
    meaningful for [ChessTree] objects. *)
Record node := Node {
  cls : kind;
  rect : option rectangle;
  data_size : Z;
  _colour : colour;
  _name : string;
  _subtrees : list oid;
  _parent_tree : option oid;
  _expanded : bool;
  _white_to_play : bool
}.

Abbreviation heap := (gmap oid node).

(** Reading through a reference. Python references always denote a live
    object; the invariants below say so of every reference in the store,
    and outside of them the model reads this placeholder. *)
Definition no_object : node :=
  Node Generic None 0 (0, 0, 0) EmptyString [] None false false.

Definition get (h : heap) (i : oid) : node := default no_object (h !! i).

(** Attribute assignment [obj.attr = v]. *)
Definition set_rect (r : option rectangle) (nd : node) : node :=
  Node (cls nd) r (data_size nd) (_colour nd) (_name nd) (_subtrees nd)
       (_parent_tree nd) (_expanded nd) (_white_to_play nd).

Definition set_data_size (z : Z) (nd : node) : node :=
  Node (cls nd) (rect nd) z (_colour nd) (_name nd) (_subtrees nd)
       (_parent_tree nd) (_expanded nd) (_white_to_play nd).

Definition set_subtrees (l : list oid) (nd : node) : node :=
  Node (cls nd) (rect nd) (data_size nd) (_colour nd) (_name nd) l
       (_parent_tree nd) (_expanded nd) (_white_to_play nd).

Definition set_parent_tree (p : option oid) (nd : node) : node :=
  Node (cls nd) (rect nd) (data_size nd) (_colour nd) (_name nd) (_subtrees nd)
       p (_expanded nd) (_white_to_play nd).

Definition set_expanded (b : bool) (nd : node) : node :=
  Node (cls nd) (rect nd) (data_size nd) (_colour nd) (_name nd) (_subtrees nd)
       (_parent_tree nd) b (_white_to_play nd).

Definition upd (i : oid) (f : node → node) (h : heap) : heap := alter f i h.

(** ** Outcomes *)

Inductive exn :=
  | OperationNotSupportedError
  | AttributeError      (* an attribute of [None] *)
  | TypeError           (* subscripting [None] *)
  | ValueError          (* [list.remove(x)]: x not in list *)
  | IndexError          (* list index out of range *)
  | ZeroDivisionError.

(** The result of running a method: normal return with a value, an
    exception, or exhaustion of the recursion/iteration budget of the
    model. *)
Inductive outcome (A : Type) :=
  | Ret (a : A) (h : heap)
  | Raise (e : exn) (h : heap)
  | OutOfFuel.
Arguments Ret {A} a h.
Arguments Raise {A} e h.
Arguments OutOfFuel {A}.

Definition bind {A B} (o : outcome A) (k : A → heap → outcome B) : outcome B :=
  match o with
  | Ret a h => k a h
  | Raise e h => Raise e h
  | OutOfFuel => OutOfFuel
  end.

(** The store an outcome leaves behind, when there is one. *)
Definition final_heap {A} (o : outcome A) : option heap :=
  match o with
  | Ret _ h => Some h
  | Raise _ h => Some h
  | OutOfFuel => None
  end.

(** ** [TMTree.__init__] *)

(** [self] is the freshly allocated object, [k] its class, [col] the three
    [randint(0, 255)] draws. *)
Definition init_loop (self : oid) (subtrees : list oid) (h : heap) : heap :=
  foldl (λ h subtree,
           let h1 := upd self (λ nd, set_data_size
                        (data_size nd + data_size (get h subtree)) nd) h in
           upd subtree (set_parent_tree (Some self)) h1)
        h subtrees.

Definition TMTree_init (k : kind) (self : oid) (name : string)
    (subtrees : list oid) (size : Z) (col : colour) (wtp : bool)
    (h : heap) : heap :=
  let h0 := <[self := Node k None size col name subtrees None false wtp]> h in
  let h1 := init_loop self subtrees h0 in
  upd self (set_expanded (negb (Nat.eqb (length subtrees) 0))) h1.

Definition FileTree_init (self : oid) (name : string) (size : Z)
    (col : colour) (h : heap) : heap :=
  TMTree_init File self name [] size col false h.

Definition DirectoryTree_init (self : oid) (name : string)
    (subtrees : list oid) (col : colour) (h : heap) : heap :=
  TMTree_init Directory self name subtrees 1 col false h.

(** ** [TMTree.is_displayed_tree_leaf] *)

Definition is_displayed_tree_leaf (h : heap) (self : oid) : bool :=
  match _parent_tree (get h self) with
  | None => negb (_expanded (get h self))
  | Some parent => _expanded (get h parent) && negb (_expanded (get h self))
  end.

(** ** [TMTree.update_rectangles] *)

(** [total]: the sum of the subtrees' [data_size]. *)
Definition sum_sizes (h : heap) (l : list oid) : Z :=
  foldl (λ total subtree, total + data_size (get h subtree)) 0 l.

(** The two [for i in range(num_subtrees - 1)] loops followed by the call
    on the last subtree. [horizontal] is [rect[2] > rect[3]]; [ul] is
    [upper_left]. [math.floor(a / total)] is taken on the exact quotient
    (Python rounds the quotient to a double first; the two agree as long
    as [a] and [total] are below 2^53). *)
Fixpoint slice_loop (rec : oid → rectangle → heap → outcome unit)
    (horizontal : bool) (total : Z) (r : rectangle) (subtrees : list oid)
    (ul : Z * Z) (h : heap) : outcome unit :=
  let '(x, y, w, ht) := r in
  match subtrees with
  | [] => Ret tt h
  | [last] =>
      if horizontal
      then rec last (ul.1, ul.2, w + x - ul.1, ht) h
      else rec last (ul.1, ul.2, w, y + ht - ul.2) h
  | c :: rest =>
      if decide (total = 0) then Raise ZeroDivisionError h else
      if horizontal then
        let width := data_size (get h c) * w / total in
        bind (rec c (ul.1, ul.2, width, ht) h)
             (λ _ h', slice_loop rec horizontal total r rest (ul.1 + width, ul.2) h')
      else
        let height := data_size (get h c) * ht / total in
        bind (rec c (ul.1, ul.2, w, height) h)
             (λ _ h', slice_loop rec horizontal total r rest (ul.1, ul.2 + height) h')
  end.

Fixpoint update_rectangles (fuel : nat) (self : oid) (r : rectangle)
    (h : heap) : outcome unit :=
  match fuel with
  | O => OutOfFuel
  | S fuel =>
      let total := sum_sizes h (_subtrees (get h self)) in
      match _subtrees (get h self) with
      | [] => Ret tt (upd self (set_rect (Some r)) h)
      | [c] => update_rectangles fuel c r (upd self (set_rect (Some r)) h)
      | _ =>
          let h1 := upd self (set_rect (Some r)) h in
          let '(x, y, w, ht) := r in
          slice_loop (update_rectangles fuel) (bool_decide (w > ht)) total r
                     (_subtrees (get h1 self)) (x, y) h1
      end
  end.

(** ** [TMTree.get_rectangles] *)

Definition concat_results {A} (rec : oid → option (list A)) (l : list oid)
    : option (list A) :=
  foldl (λ acc subtree,
           match acc, rec subtree with
           | Some list_rect, Some rs => Some (list_rect ++ rs)
           | _, _ => None
           end) (Some []) l.

(** [None] is exhaustion of the recursion budget. *)
Fixpoint get_rectangles (fuel : nat) (h : heap) (self : oid)
    : option (list (option rectangle * colour)) :=
  match fuel with
  | O => None
  | S fuel =>
      let nd := get h self in
      match _parent_tree nd with
      | Some parent =>
          if negb (_expanded (get h parent)) then Some []
          else if negb (_expanded nd) then Some [(rect nd, _colour nd)]
          else concat_results (get_rectangles fuel h) (_subtrees nd)
      | None =>
          if negb (_expanded nd) then Some [(rect nd, _colour nd)]
          else concat_results (get_rectangles fuel h) (_subtrees nd)
      end
  end.

(** ** The expand/collapse family *)

(** [for subtree in l: body(subtree)] *)
Fixpoint for_each (body : oid → heap → outcome unit) (l : list oid)
    (h : heap) : outcome unit :=
  match l with
  | [] => Ret tt h
  | subtree :: rest => bind (body subtree h) (λ _ h', for_each body rest h')
  end.

Definition expand (self : oid) (h : heap) : outcome oid :=
  match _subtrees (get h self) with
  | [] => Ret self h
  | first :: _ => Ret first (upd self (set_expanded true) h)
  end.

(** [for subtree in l: right_most.append(body(subtree))] *)
Fixpoint collect_each (body : oid → heap → outcome oid) (l : list oid)
    (right_most : list oid) (h : heap) : outcome (list oid) :=
  match l with
  | [] => Ret right_most h
  | subtree :: rest =>
      bind (body subtree h)
           (λ t h', collect_each body rest (right_most ++ [t]) h')
  end.

Fixpoint expand_all (fuel : nat) (self : oid) (h : heap) : outcome oid :=
  match fuel with
  | O => OutOfFuel
  | S fuel =>
      match _subtrees (get h self) with
      | [] => Ret self h
      | _ =>
          let h1 := upd self (set_expanded true) h in
          bind (collect_each (expand_all fuel) (_subtrees (get h1 self)) [] h1)
               (λ right_most h',
                  match last right_most with
                  | Some t => Ret t h'
                  | None => Raise IndexError h'
                  end)
      end
  end.

Fixpoint _unexpanded (fuel : nat) (self : oid) (h : heap) : outcome unit :=
  match fuel with
  | O => OutOfFuel
  | S fuel =>
      match _subtrees (get h self) with
      | [] => Ret tt h
      | _ =>
          let h1 := upd self (set_expanded false) h in
          for_each (_unexpanded fuel) (_subtrees (get h1 self)) h1
      end
  end.

Definition collapse (fuel : nat) (self : oid) (h : heap) : outcome oid :=
  match _parent_tree (get h self) with
  | None => Ret self h
  | Some parent =>
      let h1 := upd parent (set_expanded false) h in
      bind (for_each (_unexpanded fuel) (_subtrees (get h1 parent)) h1)
           (λ _ h', Ret parent h')
  end.

(** [while curr._parent_tree is not None: curr = curr.collapse()] *)
Fixpoint collapse_loop (fuel : nat) (curr : oid) (h : heap) : outcome oid :=
  match fuel with
  | O => OutOfFuel
  | S fuel' =>
      match _parent_tree (get h curr) with
      | None => Ret curr h
      | Some _ => bind (collapse fuel curr h) (collapse_loop fuel')
      end
  end.

Definition collapse_all (fuel : nat) (self : oid) (h : heap) : outcome oid :=
  match _parent_tree (get h self) with
  | None => Ret self h
  | Some _ => collapse_loop fuel self h
  end.

(** ** [TMTree.move] and [TMTree.change_size] *)

(** [while curr._parent_tree is not None:
       curr._parent_tree.data_size += amount; curr = curr._parent_tree]
    where [amount] is an expression over attributes, evaluated anew in
    every iteration. Returns the last [curr]; [None] is exhaustion of the
    iteration budget. *)
Fixpoint walk_up (fuel : nat) (amount : heap → Z) (curr : oid) (h : heap)
    : option (oid * heap) :=
  match fuel with
  | O => None
  | S fuel =>
      match _parent_tree (get h curr) with
      | None => Some (curr, h)
      | Some parent =>
          walk_up fuel amount parent
            (upd parent (λ nd, set_data_size (data_size nd + amount h) nd) h)
      end
  end.

(** [l.remove(x)]: drop the first occurrence, [None] if there is none. *)
Fixpoint list_remove (x : oid) (l : list oid) : option (list oid) :=
  match l with
  | [] => None
  | y :: l' => if decide (x = y) then Some l'
               else cons y <$> list_remove x l'
  end.

(** [curr.update_rectangles((curr.rect[0], curr.rect[1], curr.rect[2],
    curr.rect[3]))] *)
Definition relayout (fuel : nat) (curr : oid) (h : heap) : outcome unit :=
  match rect (get h curr) with
  | None => Raise TypeError h
  | Some r => update_rectangles fuel curr r h
  end.

Definition TMTree_move (fuel : nat) (self destination : oid) (h : heap)
    : outcome unit :=
  if decide (self = destination) then Ret tt h else
  let h1 := upd destination (λ nd, set_subtrees (_subtrees nd ++ [self]) nd) h in
  match _parent_tree (get h1 self) with
  | None => Raise AttributeError h1
  | Some parent =>
      let h2 := if (length (_subtrees (get h1 parent)) <? 2)%nat
                then upd parent (set_expanded false) h1 else h1 in
      match list_remove self (_subtrees (get h2 parent)) with
      | None => Raise ValueError h2
      | Some l =>
          let h3 := upd parent (set_subtrees l) h2 in
          match walk_up fuel (λ h, - data_size (get h self)) self h3 with
          | None => OutOfFuel
          | Some (_, h4) =>
              let h5 := upd self (set_parent_tree (Some destination)) h4 in
              let h6 := upd destination (set_expanded true) h5 in
              match walk_up fuel (λ h, data_size (get h self)) self h6 with
              | None => OutOfFuel
              | Some (curr2, h7) => relayout fuel curr2 h7
              end
          end
      end
  end.

(** [factor * self.data_size] is a product of a float and an int, rounded
    to a double by the hardware. Doubles are rationals; the rounding is
    left open as [float_mul], and everything below holds for every such
    function. *)
Definition TMTree_change_size (float_mul : Q → Z → Q) (fuel : nat)
    (self : oid) (factor : Q) (h : heap) : outcome unit :=
  let size := if Qlt_le_dec factor 0
              then Qfloor (float_mul factor (data_size (get h self)))
              else Qceiling (float_mul factor (data_size (get h self))) in
  let old_data_size := data_size (get h self) in
  let new_data_size := data_size (get h self) + size in
  let h1 :=
    match _subtrees (get h self) with
    | [] =>
        if decide (new_data_size < 1)
        then upd self (set_data_size 1) h
        else upd self (set_data_size new_data_size) h
    | _ =>
        let subtree_size := sum_sizes h (_subtrees (get h self)) in
        if decide (new_data_size < subtree_size)
        then upd self (set_data_size subtree_size) h
        else upd self (set_data_size new_data_size) h
    end in
  match walk_up fuel (λ h, data_size (get h self) - old_data_size) self h1 with
  | None => OutOfFuel
  | Some (curr, h2) => relayout fuel curr h2
  end.

(** ** The subclasses: method resolution by the class of [self] *)

(** [isinstance(destination, FileTree)] *)
Definition is_FileTree (h : heap) (i : oid) : bool :=
  bool_decide (cls (get h i) = File).

Definition move (fuel : nat) (self destination : oid) (h : heap)
    : outcome unit :=
  match cls (get h self) with
  | Generic => TMTree_move fuel self destination h
  | File | Directory =>
      if is_FileTree h destination then Raise OperationNotSupportedError h
      else TMTree_move fuel self destination h
  | ChessMove => Raise OperationNotSupportedError h
  end.

Definition change_size (float_mul : Q → Z → Q) (fuel : nat) (self : oid)
    (factor : Q) (h : heap) : outcome unit :=
  match cls (get h self) with
  | Generic | File => TMTree_change_size float_mul fuel self factor h
  | Directory | ChessMove => Raise OperationNotSupportedError h
  end.

(** ** [moves_to_nested_dict] *)

(** A Python [dict] keeps its keys in insertion order; assigning to a key
    that is present replaces the value in place. *)
Fixpoint dict_set {K V} `{EqDecision K} (k : K) (v : V) (d : list (K * V))
    : list (K * V) :=
  match d with
  | [] => [(k, v)]
  | (k', v') :: d' =>
      if decide (k = k') then (k, v) :: d' else (k', v') :: dict_set k v d'
  end.

Fixpoint dict_alter {K V} `{EqDecision K} (f : V → V) (k : K)
    (d : list (K * V)) : list (K * V) :=
  match d with
  | [] => []
  | (k', v') :: d' =>
      if decide (k = k') then (k', f v') :: d' else (k', v') :: dict_alter f k d'
  end.

(** The result: keys are [(move, games ended here)], values nested
    dictionaries. *)
Inductive nested_dict := NDict (items : list ((string * Z) * nested_dict)).

(** [lst.count([])] *)
Definition count_empty (l : list (list string)) : Z :=
  Z.of_nat (length (filter (λ lst, lst = []) l)).

Definition group_by_first (moves : list (list string))
    : list (string * list (list string)) :=
  let d := foldl (λ d lst, match lst with
                           | [] => d
                           | m :: _ => dict_set m [] d
                           end) [] moves in
  foldl (λ d lst, match lst with
                  | [] => d
                  | m :: rest => dict_alter (λ v, v ++ [rest]) m d
                  end) d moves.

Fixpoint moves_to_nested_dict (fuel : nat) (moves : list (list string))
    : option nested_dict :=
  match fuel with
  | O => None
  | S fuel =>
      match moves with
      | [] => Some (NDict [])
      | [] :: _ => Some (NDict [])
      | [[m]] => Some (NDict [((m, 1), NDict [])])
      | _ =>
          let d := group_by_first moves in
          foldl (λ nested_d '(move, games),
                   match nested_d, moves_to_nested_dict fuel games with
                   | Some (NDict items), Some sub =>
                       Some (NDict (dict_set (move, count_empty games) sub items))
                   | _, _ => None
                   end)
                (Some (NDict [])) d
      end
  end.

(** ** [TMTree.get_tree_at_position] *)

(** The value of a method that writes nothing: a result, an exception,
    or exhaustion of the recursion budget. *)
Inductive answer (A : Type) :=
  | Value (a : A)
  | Error (e : exn)
  | NoAnswer.
Arguments Value {A} a.
Arguments Error {A} e.
Arguments NoAnswer {A}.

(** [for subtree in l: result = rec(subtree);
                       if result is not None: return result]
    followed by [return None]. *)
Fixpoint first_result (rec : oid → answer (option oid)) (l : list oid)
    : answer (option oid) :=
  match l with
  | [] => Value None
  | subtree :: rest =>
      match rec subtree with
      | Value None => first_result rec rest
      | result => result
      end
  end.

Fixpoint get_tree_at_position (fuel : nat) (h : heap) (self : oid)
    (pos : Z * Z) : answer (option oid) :=
  match fuel with
  | O => NoAnswer
  | S fuel =>
      match rect (get h self) with
      | None => Error TypeError
      | Some (x, y, w, ht) =>
          if bool_decide (pos.1 < x ∨ pos.1 > x + w) then Value None
          else if bool_decide (pos.2 < y ∨ pos.2 > y + ht) then Value None
          else if negb (_expanded (get h self)) then Value (Some self)
          else first_result (λ subtree, get_tree_at_position fuel h subtree pos)
                            (_subtrees (get h self))
      end
  end.

(** ** [get_separator], [get_suffix] and [get_path_string] *)

(** [str(rect)] of [None] or of a tuple of four [int]s. *)
Definition str_rect (r : option rectangle) : string :=
  match r with
  | None => "None"
  | Some (x, y, w, ht) =>
      "(" +:+ pretty x +:+ ", " +:+ pretty y +:+ ", " +:+ pretty w +:+ ", "
          +:+ pretty ht +:+ ")"
  end.

(** [os_sep] is [os.path.sep]. [ChessTree] inherits the separator of
    [TMTree]. *)
Definition get_separator (os_sep : string) (h : heap) (self : oid) : string :=
  match cls (get h self) with
  | Generic | ChessMove => " | "
  | File | Directory => os_sep
  end.

Definition get_suffix (h : heap) (self : oid) : string :=
  match cls (get h self) with
  | Generic =>
      "(" +:+ pretty (data_size (get h self)) +:+ ") " +:+ str_rect (rect (get h self))
  | File => " (file)"
  | Directory => " (directory)"
  | ChessMove =>
      match _subtrees (get h self) with
      | [] => " (end)"
      | _ => if _white_to_play (get h self) then " (white to play)"
             else " (black to play)"
      end
  end.

(** [while curr is not None:
       path_string = curr._name + self.get_separator() + path_string
       curr = curr._parent_tree] *)
Fixpoint path_loop (fuel : nat) (h : heap) (separator : string)
    (curr : option oid) (path_string : string) : option string :=
  match fuel with
  | O => None
  | S fuel =>
      match curr with
      | None => Some path_string
      | Some c =>
          path_loop fuel h separator (_parent_tree (get h c))
                    (_name (get h c) +:+ separator +:+ path_string)
      end
  end.

Definition get_path_string (os_sep : string) (fuel : nat) (h : heap)
    (self : oid) : option string :=
  let suffix := get_suffix h self in
  path_loop fuel h (get_separator os_sep h self) (_parent_tree (get h self))
            (_name (get h self) +:+ suffix).

(** ** Objects as they are created: [ChessTree.__init__] and
    [dir_tree_from_nested_tuple] *)

(** A constructor call [C(...)] creates a new object and runs [__init__]
    on it. Objects are numbered in the order of their creation: [next] is
    the number of the next object, and a call returns the object it has
    created together with the next free number. [draw self] is the colour
    that [TMTree.__init__] draws for [self]. *)

(** [for move in move_dict:
       subtrees.append(ChessTree(move_dict[move], move[0],
                                 not white_to_play, move[1]))] *)
Definition ChessTree_loop
    (rec : nested_dict → string → bool → Z → oid → heap → oid * oid * heap)
    (white_to_play : bool) :=
  fix loop (items : list ((string * Z) * nested_dict)) (subtrees : list oid)
           (next : oid) (h : heap) : list oid * oid * heap :=
    match items with
    | [] => (subtrees, next, h)
    | (move, sub) :: rest =>
        let '(c, next1, h1) := rec sub move.1 (negb white_to_play) move.2 next h in
        loop rest (subtrees ++ [c]) next1 h1
    end.

Fixpoint ChessTree_init (draw : oid → colour) (move_dict : nested_dict)
    (last_move : string) (white_to_play : bool) (num_games_ended : Z)
    (next : oid) (h : heap) {struct move_dict} : oid * oid * heap :=
  let self := next in
  match move_dict with
  | NDict items =>
      let '(subtrees, next', h') :=
        ChessTree_loop (ChessTree_init draw) white_to_play items [] (S next) h in
      (self, next',
       TMTree_init ChessMove self last_move subtrees num_games_ended
                   (draw self) white_to_play h')
  end.

(** A nested tuple [(name, size)] or [(name, [entry, ...])]. *)
Inductive nested_tuple :=
  | NTuple (name : string) (content : Z + list nested_tuple).

(** [for filename in obj[1]:
       if isinstance(filename[1], int):
           subtree.append(FileTree(filename[0], filename[1]))
       else:
           subtree.append(dir_tree_from_nested_tuple(filename))]
    followed by [return DirectoryTree(obj[0], subtree)]. *)
Definition dir_tree_loop (rec : nested_tuple → oid → heap → outcome (oid * oid))
    (draw : oid → colour) (name : string) :=
  fix loop (files : list nested_tuple) (subtree : list oid)
           (next : oid) (h : heap) : outcome (oid * oid) :=
    match files with
    | [] =>
        Ret (next, S next) (DirectoryTree_init next name subtree (draw next) h)
    | filename :: rest =>
        match filename with
        | NTuple fname (inl size) =>
            loop rest (subtree ++ [next]) (S next)
                 (FileTree_init next fname size (draw next) h)
        | NTuple _ (inr _) =>
            bind (rec filename next h)
                 (λ r h1, loop rest (subtree ++ [r.1]) r.2 h1)
        end
    end.

(** [if not obj[1]] holds of the empty list and of the integer 0;
    iterating over an integer raises [TypeError]. *)
Fixpoint dir_tree_from_nested_tuple (draw : oid → colour) (obj : nested_tuple)
    (next : oid) (h : heap) {struct obj} : outcome (oid * oid) :=
  match obj with
  | NTuple name (inl size) =>
      if decide (size = 0)
      then Ret (next, S next) (DirectoryTree_init next name [] (draw next) h)
      else Raise TypeError h
  | NTuple name (inr []) =>
      Ret (next, S next) (DirectoryTree_init next name [] (draw next) h)
  | NTuple name (inr files) =>
      dir_tree_loop (dir_tree_from_nested_tuple draw) draw name files [] next h
  end.

(** ** [example_tree] *)

(** The objects [j, k, e, f, b, g, h, i, c, d, a] are numbered 1 to 11. *)
Definition example_tree (draw : oid → colour) : outcome oid :=
  let t := λ (self : oid) name subtrees size,
             TMTree_init Generic self name subtrees size (draw self) false in
  let s := t 1%nat "j" [] 10 ∅ in
  let s := t 2%nat "k" [] 5 s in
  let s := t 3%nat "e" [1%nat; 2%nat] 5 s in
  let s := t 4%nat "f" [] 5 s in
  let s := t 5%nat "b" [3%nat; 4%nat] 5 s in
  let s := t 6%nat "g" [] 4 s in
  let s := t 7%nat "h" [] 4 s in
  let s := t 8%nat "i" [] 2 s in
  let s := t 9%nat "c" [6%nat; 7%nat; 8%nat] 5 s in
  let s := t 10%nat "d" [] 10 s in
  let s := t 11%nat "a" [5%nat; 9%nat; 10%nat] 5 s in
  bind (update_rectangles 4 11 (0, 0, 55, 30) s) (λ _ s', Ret 11%nat s').

(** * The specification *)

(** ** Representation invariants *)

(** Proper descendants, through [_subtrees]. *)
Inductive descendant (h : heap) : oid → oid → Prop :=
  | desc_child i c :
      c ∈ _subtrees (get h i) → descendant h i c
  | desc_step i c m :
      c ∈ _subtrees (get h i) → descendant h c m → descendant h i m.

Definition colour_ok (c : colour) : Prop :=
  let '(r, g, b) := c in
  0 ≤ r ≤ 255 ∧ 0 ≤ g ≤ 255 ∧ 0 ≤ b ≤ 255.

(** The invariants of the class docstrings, for the object [i]. *)
Record node_inv (h : heap) (i : oid) : Prop := {
  inv_size : 0 < data_size (get h i);
  inv_name : _name (get h i) ≠ EmptyString;
  inv_sum : _subtrees (get h i) ≠ [] →
            sum_sizes h (_subtrees (get h i)) ≤ data_size (get h i);
  inv_colour : colour_ok (_colour (get h i));
  inv_parent : ∀ p, _parent_tree (get h i) = Some p →
               p ∈ dom h ∧ i ∈ _subtrees (get h p);
  inv_children : ∀ c, c ∈ _subtrees (get h i) →
               c ∈ dom h ∧ _parent_tree (get h c) = Some i;
  inv_expanded : _expanded (get h i) = true →
               ∀ p, _parent_tree (get h i) = Some p → _expanded (get h p) = true;
  inv_collapsed : _expanded (get h i) = false →
               ∀ m, descendant h i m → _expanded (get h m) = false;
  inv_leaf : _subtrees (get h i) = [] → _expanded (get h i) = false;
  inv_directory : cls (get h i) = Directory →
               data_size (get h i) = 1 + sum_sizes h (_subtrees (get h i));
  inv_file : cls (get h i) = File → _subtrees (get h i) = []
}.

(** What makes the store a forest: no object is listed twice among the
    subtrees of its parent, and following [_parent_tree] ends. The second
    is stated with a rank that grows towards the roots and is bounded. *)
Definition ranked (h : heap) (rk : oid → nat) (bound : nat) : Prop :=
  ∀ i, i ∈ dom h →
    (rk i ≤ bound)%nat ∧
    ∀ p, _parent_tree (get h i) = Some p → (rk i < rk p)%nat.

Definition forest (h : heap) : Prop :=
  (∀ i, i ∈ dom h → NoDup (_subtrees (get h i))) ∧
  ∃ rk bound, ranked h rk bound.

Definition wf (h : heap) : Prop :=
  forest h ∧ ∀ i, i ∈ dom h → node_inv h i.

(** The ancestors of [x], nearest first. *)
Inductive is_chain (h : heap) : oid → list oid → Prop :=
  | chain_root x :
      _parent_tree (get h x) = None → is_chain h x []
  | chain_step x p l :
      _parent_tree (get h x) = Some p → is_chain h p l → is_chain h x (p :: l).

(** [a] is [m] or an ancestor of [m]. *)
Inductive below (h : heap) (a : oid) : oid → Prop :=
  | below_refl : below h a a
  | below_step m p :
      _parent_tree (get h m) = Some p → below h a p → below h a m.

(** Part of the displayed tree: a root, or a child of an expanded node. *)
Definition displayed (h : heap) (i : oid) : Prop :=
  ∀ p, _parent_tree (get h i) = Some p → _expanded (get h p) = true.

(** ** Preconditions *)

(** The preconditions of the constructors, for the class [k] of the new
    object. *)
Record init_pre (h : heap) (k : kind) (self : oid) (name : string)
    (subtrees : list oid) (size : Z) (col : colour) : Prop := {
  pre_fresh : self ∉ dom h;
  pre_name : name ≠ EmptyString;
  pre_size : 0 ≤ size;
  pre_leaf : subtrees = [] → 0 < size;
  pre_roots : ∀ c, c ∈ subtrees → c ∈ dom h ∧ _parent_tree (get h c) = None;
  pre_distinct : NoDup subtrees;
  pre_colour : colour_ok col;
  pre_file : k = File → subtrees = [];
  pre_directory : k = Directory → size = 1
}.

(** The preconditions of [move], for a node [self] with parent [p]. *)
Record move_pre (h : heap) (self destination p : oid) : Prop := {
  mv_wf : wf h;
  mv_dest : destination ∈ dom h;
  mv_self_leaf : is_displayed_tree_leaf h self = true;
  mv_dest_leaf : is_displayed_tree_leaf h destination = true;
  mv_ne : self ≠ destination;
  mv_parent : _parent_tree (get h self) = Some p
}.

(** [update_rectangles] has been called on the root of the tree of [i]. *)
Definition laid_out (h : heap) (i : oid) : Prop :=
  ∃ l, is_chain h i l ∧ is_Some (rect (get h (default i (last l)))).

(** ** Layouts as coverings *)

Definition sumZ {A} (f : A → Z) (l : list A) : Z :=
  foldr (λ c acc, f c + acc) 0 l.







(** ** The specification's words *)

(** The new size, as the specification words it. *)
Definition resized (float_mul : Q → Z → Q) (h : heap) (self : oid)
    (factor : Q) : Z :=
  let size := data_size (get h self) in
  let delta := if Qlt_le_dec factor 0
               then Qfloor (float_mul factor size)
               else Qceiling (float_mul factor size) in
  match _subtrees (get h self) with
  | [] => Z.max (size + delta) 1
  | subtrees => Z.max (size + delta) (sum_sizes h subtrees)
  end.

(** The rounding that has no rounding error. *)
Definition exact_mul (q : Q) (z : Z) : Q := (q * inject_Z z)%Q.

(** The trie as the specification words it: nothing for an empty
    collection and for the collection of one empty sequence; otherwise
    the non-empty sequences grouped by first token, every group ingested
    and paired with the number of its remainders that are empty. *)
Fixpoint ingest (fuel : nat) (moves : list (list string)) : option nested_dict :=
  match fuel with
  | O => None
  | S fuel =>
      match moves with
      | [] | [[]] => Some (NDict [])
      | _ =>
          foldl (λ trie '(move, games),
                   match trie, ingest fuel games with
                   | Some (NDict items), Some sub =>
                       Some (NDict (dict_set (move, count_empty games) sub items))
                   | _, _ => None
                   end)
                (Some (NDict [])) (group_by_first moves)
      end
  end.


(** ** The trees of the docstrings *)

(** The colour is drawn at random by [__init__]; the examples take this
    one for every draw. *)
Definition black : colour := (0, 0, 0).

(** [s1 = TMTree('C1', [], 5); s2 = TMTree('C2', [], 15);
     t3 = TMTree('C', [s1, s2], 1)], as objects 1, 2 and 3. *)
Definition small_tree : heap :=
  let h := TMTree_init Generic 1 "C1" [] 5 black false ∅ in
  let h := TMTree_init Generic 2 "C2" [] 15 black false h in
  TMTree_init Generic 3 "C" [1%nat; 2%nat] 1 black false h.

(** [d1 = TMTree('C1', [], 5); d2 = TMTree('C2', [d1], 1)], as objects 1
    and 2. *)
Definition chain_tree : heap :=
  let h := TMTree_init Generic 1 "C1" [] 5 black false ∅ in
  TMTree_init Generic 2 "C2" [1%nat] 1 black false h.

(** [t3.update_rectangles((0, 0, 100, 200))] on the small tree. *)
Definition small_tree_laid : heap :=
  default small_tree (final_heap (update_rectangles 3 3 (0, 0, 100, 200) small_tree)).

(** A [TMTree] root (object 3) over a [TMTree] leaf (object 1) and a
    [FileTree] (object 2), laid out. *)
Definition mixed_tree : heap :=
  let h := TMTree_init Generic 1 "g" [] 4 black false ∅ in
  let h := FileTree_init 2 "f" 3 black h in
  TMTree_init Generic 3 "r" [1%nat; 2%nat] 1 black false h.

Definition mixed_tree_laid : heap :=
  default mixed_tree (final_heap (update_rectangles 3 3 (0, 0, 100, 200) mixed_tree)).

(** The small tree after [s1.collapse()]: [t3] is the only displayed
    leaf, [s1] and [s2] are hidden. *)
Definition small_tree_collapsed : heap :=
  default small_tree (final_heap (collapse 3 1 small_tree)).

(** ** Stores compared, and the stores the operations build *)

Definition same_parents (h h' : heap) : Prop :=
  ∀ i, _parent_tree (get h' i) = _parent_tree (get h i).

Definition parents_closed (h : heap) : Prop :=
  ∀ i p, i ∈ dom h → _parent_tree (get h i) = Some p → p ∈ dom h.

(** The indicator of a list of objects. *)
Definition on (l : list oid) (i : oid) : Z := if decide (i ∈ l) then 1 else 0.

(** The attributes that only [__init__] and [move] write. *)
Record same_structure (h h' : heap) : Prop := {
  ss_dom : dom h' = dom h;
  ss_cls : ∀ i, cls (get h' i) = cls (get h i);
  ss_name : ∀ i, _name (get h' i) = _name (get h i);
  ss_colour : ∀ i, _colour (get h' i) = _colour (get h i);
  ss_subtrees : ∀ i, _subtrees (get h' i) = _subtrees (get h i);
  ss_parent : ∀ i, _parent_tree (get h' i) = _parent_tree (get h i)
}.

Definition same_sizes (h h' : heap) : Prop :=
  ∀ i, data_size (get h' i) = data_size (get h i).

Definition same_expanded (h h' : heap) : Prop :=
  ∀ i, _expanded (get h' i) = _expanded (get h i).

Definition same_rects (h h' : heap) : Prop :=
  ∀ i, rect (get h' i) = rect (get h i).

(** The invariants without the derived one. *)
Record node_inv_local (h : heap) (i : oid) : Prop := {
  loc_size : 0 < data_size (get h i);
  loc_name : _name (get h i) ≠ EmptyString;
  loc_sum : _subtrees (get h i) ≠ [] →
            sum_sizes h (_subtrees (get h i)) ≤ data_size (get h i);
  loc_colour : colour_ok (_colour (get h i));
  loc_parent : ∀ p, _parent_tree (get h i) = Some p →
               p ∈ dom h ∧ i ∈ _subtrees (get h p);
  loc_children : ∀ c, c ∈ _subtrees (get h i) →
               c ∈ dom h ∧ _parent_tree (get h c) = Some i;
  loc_expanded : _expanded (get h i) = true →
               ∀ p, _parent_tree (get h i) = Some p → _expanded (get h p) = true;
  loc_leaf : _subtrees (get h i) = [] → _expanded (get h i) = false;
  loc_directory : cls (get h i) = Directory →
               data_size (get h i) = 1 + sum_sizes h (_subtrees (get h i));
  loc_file : cls (get h i) = File → _subtrees (get h i) = []
}.

(** The part of the invariants that concerns the links only; it holds
    throughout the methods that write [_expanded], also where the
    invariants on [_expanded] are broken for a moment. *)
Definition linked (h : heap) : Prop :=
  ∀ i, i ∈ dom h →
    (∀ p, _parent_tree (get h i) = Some p → p ∈ dom h ∧ i ∈ _subtrees (get h p)) ∧
    (∀ c, c ∈ _subtrees (get h i) → c ∈ dom h ∧ _parent_tree (get h c) = Some i).

Definition same_but_rect (h h' : heap) : Prop :=
  same_structure h h' ∧ same_sizes h h' ∧ same_expanded h h'.


Definition same_but_expanded (h h' : heap) : Prop :=
  same_structure h h' ∧ same_sizes h h' ∧ same_rects h h'.

(** [for_each body cs] when [body c] clears the [_expanded] flags under
    [c] and nothing else. *)
Definition clears (h0 : heap) (body : oid → heap → outcome unit) (c : oid) : Prop :=
  ∀ h, same_but_expanded h0 h →
    ∃ h', body c h = Ret tt h' ∧ same_but_expanded h h' ∧
      (∀ m, _expanded (get h' m) = true → _expanded (get h m) = true) ∧
      (∀ m, below h0 c m → _subtrees (get h0 m) ≠ [] → _expanded (get h' m) = false) ∧
      (∀ m, ¬ below h0 c m → _expanded (get h' m) = _expanded (get h m)).

(** [obj.data_size += δ] *)
Definition bump (δ : Z) (nd : node) : node := set_data_size (data_size nd + δ) nd.

Definition bump_all (δ : Z) (l : list oid) (h : heap) : heap :=
  foldl (λ h a, upd a (bump δ) h) h l.

Definition same_but_size (h h' : heap) : Prop :=
  same_structure h h' ∧ same_expanded h h' ∧ same_rects h h'.

(** What the layout needs in order to return: the links, and positive
    sizes so that [total] is not zero. *)
Definition layoutable (h : heap) : Prop :=
  linked h ∧ ∀ i, i ∈ dom h → 0 < data_size (get h i).

(** The store when the sizes are written, before the layout is redone;
    [l] are the ancestors of [self]. *)
Definition resize_store (float_mul : Q → Z → Q) (h : heap) (self : oid) (factor : Q) (l : list oid) : heap :=
  bump_all (resized float_mul h self factor - data_size (get h self)) l
           (upd self (set_data_size (resized float_mul h self factor)) h).

(** The store after a resize of [self], whose ancestors are [l]. *)
Definition resize_post (float_mul : Q → Z → Q) (h : heap) (self : oid) (factor : Q) (l : list oid)
    (h' : heap) : Prop :=
  same_structure h h' ∧ same_expanded h h' ∧
  ∀ i, data_size (get h' i)
       = data_size (get h i)
         + (resized float_mul h self factor - data_size (get h self)) * on (self :: l) i.

(** The store when [self] has been moved from its parent [p] to
    [destination], before the layout is redone. [rest] is [p._subtrees]
    without [self]; [lp] and [ld] are the ancestors of [p] and of
    [destination]. *)
Definition move_store (h : heap) (self destination p : oid)
    (rest lp ld : list oid) : heap :=
  let s := data_size (get h self) in
  let h1 := upd destination (λ nd, set_subtrees (_subtrees nd ++ [self]) nd) h in
  let h2 := if (length (_subtrees (get h1 p)) <? 2)%nat
            then upd p (set_expanded false) h1 else h1 in
  let h3 := upd p (set_subtrees rest) h2 in
  let h4 := bump_all (- s) (p :: lp) h3 in
  let h5 := upd self (set_parent_tree (Some destination)) h4 in
  let h6 := upd destination (set_expanded true) h5 in
  bump_all s (destination :: ld) h6.

(** What [move] needs of its arguments: the links around [self], its
    parent [p] and [destination]. *)
Record move_links (h : heap) (self destination p : oid)
    (rest lp ld : list oid) : Prop := {
  ml_self : self ∈ dom h;
  ml_dest : destination ∈ dom h;
  ml_p : p ∈ dom h;
  ml_parent : _parent_tree (get h self) = Some p;
  ml_rest : list_remove self (_subtrees (get h p)) = Some rest;
  ml_lp : is_chain h p lp;
  ml_ld : is_chain h destination ld;
  ml_ne_d : self ≠ destination;
  ml_ne_p : self ≠ p;
  ml_d_p : destination ≠ p;
  ml_self_lp : self ∉ lp;
  ml_self_ld : self ∉ ld;
  ml_nodup_lp : NoDup (p :: lp);
  ml_nodup_ld : NoDup (destination :: ld);
  ml_dom_lp : ∀ a, a ∈ lp → a ∈ dom h;
  ml_dom_ld : ∀ a, a ∈ ld → a ∈ dom h
}.

(** What the preconditions say about the expansion flags. *)
Record move_flags (h : heap) (self destination p : oid) (lp ld : list oid)
    : Prop := {
  mf_self : _expanded (get h self) = false;
  mf_dest : _expanded (get h destination) = false;
  mf_p : _expanded (get h p) = true;
  mf_lp : ∀ a, a ∈ lp → _expanded (get h a) = true;
  mf_ld : ∀ a, a ∈ ld → _expanded (get h a) = true
}.

(** [body c] sets the [_expanded] flags of the nodes under [c] that have
    subtrees and nothing else. *)
Definition expands (h0 : heap) (body : oid → heap → outcome oid) (c : oid) : Prop :=
  ∀ h, same_but_expanded h0 h →
    ∃ r h', body c h = Ret r h' ∧ same_but_expanded h h' ∧
      (∀ m, _expanded (get h m) = true → _expanded (get h' m) = true) ∧
      (∀ m, below h0 c m → _subtrees (get h0 m) ≠ [] → _expanded (get h' m) = true) ∧
      (∀ m, ¬ below h0 c m → _expanded (get h' m) = _expanded (get h m)) ∧
      (∀ m, _expanded (get h' m) = true →
            _expanded (get h m) = true ∨ _subtrees (get h0 m) ≠ []).

(** ** Notions for the further properties *)

(** The closed rectangle: [get_tree_at_position] counts the right and the
    bottom edge in. *)
Definition within (pos : Z * Z) (r : rectangle) : Prop :=
  let '(x, y, w, ht) := r in
  x ≤ pos.1 ≤ x + w ∧ y ≤ pos.2 ≤ y + ht.


(** The node reached from [i] by taking the last subtree as long as
    there is one. *)
Inductive rightmost (h : heap) : oid → oid → Prop :=
  | rightmost_leaf i :
      _subtrees (get h i) = [] → rightmost h i i
  | rightmost_step i c r :
      last (_subtrees (get h i)) = Some c → rightmost h c r → rightmost h i r.


(** The chain [d2 - d1] after [d1.collapse()]: [d2] is the only leaf of
    the displayed tree. *)
Definition chain_tree_collapsed : heap :=
  default chain_tree (final_heap (collapse 2 1 chain_tree)).

(** A dictionary that [ChessTree.__init__] can be given: every move is
    a non-empty string, no count is negative, and a move without
    continuation has ended at least one game. *)
Inductive valid_dict : nested_dict → Prop :=
  | valid_NDict items :
      Forall (λ it, it.1.1 ≠ EmptyString ∧ 0 ≤ it.1.2 ∧
                    (it.2 = NDict [] → 0 < it.1.2) ∧ valid_dict it.2) items →
      valid_dict (NDict items).

(** No two keys of one dictionary carry the same move. *)
Inductive branching : nested_dict → Prop :=
  | branching_NDict items :
      NoDup (items.*1.*1) → Forall (λ it, branching it.2) items →
      branching (NDict items).

(** The number of games that a dictionary records. *)
Fixpoint dict_total (d : nested_dict) : Z :=
  match d with
  | NDict items => sumZ (λ it, it.1.2 + dict_total it.2) items
  end.

(** The dictionary of one game. *)
Fixpoint game_dict (game : list string) : nested_dict :=
  match game with
  | [] => NDict []
  | [m] => NDict [((m, 1), NDict [])]
  | m :: rest => NDict [((m, 0), game_dict rest)]
  end.

(** A nested tuple that stands for a file system tree: names are
    non-empty and files have a positive size. *)
Inductive valid_tuple : nested_tuple → Prop :=
  | valid_file name size :
      name ≠ EmptyString → 0 < size → valid_tuple (NTuple name (inl size))
  | valid_directory name files :
      name ≠ EmptyString → Forall valid_tuple files →
      valid_tuple (NTuple name (inr files)).

(** The size of what a nested tuple stands for: that of a file, and one
    more than the sizes of its entries for a directory. *)
Fixpoint tuple_size (obj : nested_tuple) : Z :=
  match obj with
  | NTuple _ (inl size) => size
  | NTuple _ (inr files) => 1 + sumZ tuple_size files
  end.

(** Every object of the store has a number below [next]. *)
Definition fresh_from (next : oid) (h : heap) : Prop :=
  ∀ i, i ∈ dom h → (i < next)%nat.

(** What a constructor call that starts at [next] in [h] and creates
    [self] leaves: a store that satisfies the invariants, in which the
    objects numbered from [next] to [next'] are new, the old ones are as
    they were, and [self] is a root. *)
Record built (h : heap) (next self next' : oid) (h' : heap) : Prop := {
  built_self : (next ≤ self < next')%nat;
  built_wf : wf h';
  built_fresh : fresh_from next' h';
  built_dom : ∀ i, i ∈ dom h' ↔ i ∈ dom h ∨ (next ≤ i < next')%nat;
  built_old : ∀ i, (i < next)%nat → get h' i = get h i;
  built_root : _parent_tree (get h' self) = None
}.

(** An object of a chess tree: a [ChessTree] whose [_white_to_play] is
    the opposite of that of its parent. *)
Definition chess_object (h : heap) (i : oid) : Prop :=
  cls (get h i) = ChessMove ∧
  ∀ p, _parent_tree (get h i) = Some p →
       _white_to_play (get h i) = negb (_white_to_play (get h p)).

(** What [ChessTree(move_dict, last_move, white_to_play,
    num_games_ended)] builds. *)
Definition chess_built (draw : oid → colour) (move_dict : nested_dict) : Prop :=
  ∀ last_move white_to_play num_games_ended next h,
    wf h → fresh_from next h →
    last_move ≠ EmptyString → 0 ≤ num_games_ended →
    (move_dict = NDict [] → 0 < num_games_ended) →
    ∃ next' h',
      ChessTree_init draw move_dict last_move white_to_play num_games_ended next h
        = (next, next', h') ∧
      built h next next next' h' ∧
      _name (get h' next) = last_move ∧
      data_size (get h' next) = num_games_ended + dict_total move_dict ∧
      _white_to_play (get h' next) = white_to_play ∧
      (_subtrees (get h' next) = [] ↔ move_dict = NDict []) ∧
      (∀ i, (next ≤ i < next')%nat → chess_object h' i).

(** The dictionary of the docstring of [ChessTree.__init__]:
    [{('e2e4', 0): {('e7e5', 1): {}}}]. *)
Definition docstring_dict : nested_dict :=
  NDict [(("e2e4", 0), NDict [(("e7e5", 1), NDict [])])].

(** What [dir_tree_from_nested_tuple(obj)] builds. *)
Definition dir_built (draw : oid → colour) (obj : nested_tuple) : Prop :=
  ∀ next h,
    wf h → fresh_from next h →
    ∃ self next' h',
      dir_tree_from_nested_tuple draw obj next h = Ret (self, next') h' ∧
      built h next self next' h' ∧
      cls (get h' self) = Directory ∧
      data_size (get h' self) = tuple_size obj.

(** The nested tuple of the docstring of [DirectoryTree]. *)
Definition docstring_tuple : nested_tuple :=
  NTuple "." (inr [
    NTuple "documents" (inr [NTuple "report.pdf" (inl 13);
                             NTuple "data.xlsx" (inl 10)]);
    NTuple "images" (inr [NTuple "vacation" (inr [NTuple "beach.png" (inl 5)])]);
    NTuple "my_song.mp3" (inl 14);
    NTuple "empty_dir" (inr [])]).

(** The remainders of the sequences that start with [m], in their
    order. *)
Definition tails_of (m : string) (moves : list (list string))
    : list (list string) :=
  omap (λ lst, match lst with
               | [] => None
               | m' :: rest => if decide (m' = m) then Some rest else None
               end) moves.

(** The loop of [moves_to_nested_dict] over the groups. *)
Definition nested_step (rec : list (list string) → option nested_dict)
    (nested_d : option nested_dict) (group : string * list (list string))
    : option nested_dict :=
  match nested_d, rec group.2 with
  | Some (NDict items), Some sub =>
      Some (NDict (dict_set (group.1, count_empty group.2) sub items))
  | _, _ => None
  end.

(** The games of the docstring of [moves_to_nested_dict]. *)
Definition docstring_games : list (list string) :=
  [["a"; "b"; "c"]; ["a"; "b"]; ["d"; "e"]; ["d"; "e"]].

(** * Lemmas *)

(** ** Reading and writing the store *)


Lemma get_notin h i : i ∉ dom h → get h i = no_object.
Proof. intros H. apply not_elem_of_dom in H. unfold get. by rewrite H. Qed.

Lemma dom_upd i f (h : heap) : dom (upd i f h) = dom h.
Proof. unfold upd. apply set_eq. intros j. rewrite !elem_of_dom, lookup_alter.
  case_decide; subst; [|done]. by rewrite fmap_is_Some. Qed.

Lemma get_upd_ne i j f h : i ≠ j → get (upd i f h) j = get h j.
Proof. intros. unfold get, upd. by rewrite lookup_alter_ne. Qed.

Lemma get_upd_eq i f h : i ∈ dom h → get (upd i f h) i = f (get h i).
Proof.
  intros [nd H]%elem_of_dom. unfold get, upd.
  rewrite lookup_alter_eq, H. done.
Qed.

Lemma get_upd i j f h :
  get (upd i f h) j = if decide (i = j ∧ i ∈ dom h) then f (get h j) else get h j.
Proof.
  case_decide as H.
  - destruct H as [-> H]. by apply get_upd_eq.
  - destruct (decide (i = j)) as [->|]; [|by apply get_upd_ne].
    assert (j ∉ dom h) as Hj by tauto.
    rewrite (get_notin h j Hj). apply get_notin. by rewrite dom_upd.
Qed.

(** An attribute that [f] leaves alone reads the same after [upd]. *)
Lemma get_upd_proj {A} (π : node → A) i j f h :
  (∀ nd, π (f nd) = π nd) → π (get (upd i f h) j) = π (get h j).
Proof. intros H. rewrite get_upd. case_decide; [apply H|done]. Qed.

Lemma parent_in_dom h i p : _parent_tree (get h i) = Some p → i ∈ dom h.
Proof.
  intros Hp. destruct (decide (i ∈ dom h)) as [|Hn]; [done|].
  rewrite (get_notin h i Hn) in Hp. done.
Qed.

Lemma subtree_in_dom h i c : c ∈ _subtrees (get h i) → i ∈ dom h.
Proof.
  intros Hc. destruct (decide (i ∈ dom h)) as [|Hn]; [done|].
  rewrite (get_notin h i Hn) in Hc. set_solver.
Qed.

(** ** Parent chains *)

Lemma wf_parents_closed h : wf h → parents_closed h.
Proof. intros [_ H] i p Hi Hp. by apply (inv_parent _ _ (H i Hi)). Qed.

Lemma is_chain_same_parents h h' x l :
  same_parents h h' → is_chain h x l → is_chain h' x l.
Proof.
  intros Hs. induction 1 as [x Hx|x p l Hx _ IH].
  - apply chain_root. by rewrite Hs.
  - apply chain_step; [by rewrite Hs|done].
Qed.

Lemma below_same_parents h h' a m :
  same_parents h h' → below h a m → below h' a m.
Proof.
  intros Hs. induction 1 as [|m p Hm _ IH]; [constructor|].
  eapply below_step; [by rewrite Hs|done].
Qed.

Lemma same_parents_sym h h' : same_parents h h' → same_parents h' h.
Proof. intros H i. by rewrite H. Qed.

Lemma is_chain_inj h x l l' : is_chain h x l → is_chain h x l' → l = l'.
Proof.
  intros H. revert l'. induction H as [x Hx|x p l Hx _ IH]; intros l' H'.
  - inversion H'; [done|congruence].
  - inversion H' as [|? p' l'' Hx' Hc]; subst; [congruence|].
    assert (p' = p) by congruence. subst. f_equal. by apply IH.
Qed.

Lemma below_chain h a m l : is_chain h m l → below h a m ↔ a ∈ m :: l.
Proof.
  induction 1 as [x Hx|x p l Hx _ IH].
  - split.
    + inversion 1; [set_solver|congruence].
    + intros ->%list_elem_of_singleton. constructor.
  - split.
    + inversion 1 as [|? p' Hx' Hb]; subst; [set_solver|].
      assert (p' = p) by congruence. subst. apply IH in Hb. set_solver.
    + intros [->|Ha]%elem_of_cons; [constructor|].
      eapply below_step; [done|]. by apply IH.
Qed.

Lemma below_trans h a b c : below h a b → below h b c → below h a c.
Proof.
  intros Hab. induction 1 as [|m p Hm _ IH]; [done|].
  eapply below_step; eauto.
Qed.

Lemma below_parent h a m : _parent_tree (get h m) = Some a → below h a m.
Proof. intros. eapply below_step; [done|constructor]. Qed.

(** The parent of a member of the chain from [x] is a member of the
    chain above [x]. *)
Lemma chain_parent_closed h x l c m :
  is_chain h x l → c ∈ x :: l → _parent_tree (get h c) = Some m → m ∈ l.
Proof.
  induction 1 as [x Hx|x p l Hx Hc IH]; intros Hin Hm.
  - apply list_elem_of_singleton in Hin as ->. congruence.
  - apply elem_of_cons in Hin as [->|Hin].
    + assert (m = p) by congruence. set_solver.
    + apply elem_of_cons. right. by apply IH.
Qed.

Section ranked.
Context (h : heap) (rk : oid → nat) (bound : nat).
Hypothesis Hrk : ranked h rk bound.
Hypothesis Hcl : parents_closed h.

Lemma chain_rank x l a :
  x ∈ dom h → is_chain h x l → a ∈ l → a ∈ dom h ∧ (rk x < rk a)%nat.
Proof.
  intros Hx Hc. revert Hx. induction Hc as [x Hp|x p l Hp _ IH]; intros Hx Ha.
  - set_solver.
  - pose proof (Hcl _ _ Hx Hp) as Hpd.
    destruct (Hrk x Hx) as [_ Hlt]. specialize (Hlt p Hp).
    apply elem_of_cons in Ha as [->|Ha]; [done|].
    destruct (IH Hpd Ha). split; [done|lia].
Qed.

Lemma chain_not_self x l : x ∈ dom h → is_chain h x l → x ∉ l.
Proof. intros Hx Hc Hin. destruct (chain_rank x l x Hx Hc Hin). lia. Qed.

Lemma chain_NoDup x l : x ∈ dom h → is_chain h x l → NoDup l.
Proof.
  intros Hx Hc. revert Hx. induction Hc as [x Hp|x p l Hp Hc IH]; intros Hx.
  - constructor.
  - pose proof (Hcl _ _ Hx Hp) as Hpd. constructor; [|by apply IH].
    by apply chain_not_self.
Qed.

Lemma chain_exists x : x ∈ dom h → ∃ l, is_chain h x l ∧ (length l ≤ bound - rk x)%nat.
Proof.
  remember (bound - rk x)%nat as n eqn:Hn. revert x Hn.
  induction (lt_wf n) as [n _ IH]. intros x Hn Hx.
  destruct (_parent_tree (get h x)) as [p|] eqn:Hp.
  - destruct (Hrk x Hx) as [Hb Hlt]. specialize (Hlt p Hp).
    pose proof (Hcl _ _ Hx Hp) as Hpd.
    destruct (Hrk p Hpd) as [Hbp _].
    destruct (IH (bound - rk p)%nat ltac:(lia) p eq_refl Hpd) as (l & Hl & Hlen).
    exists (p :: l). split; [by apply chain_step|]. simpl. lia.
  - exists []. split; [by apply chain_root|]. simpl. lia.
Qed.

Lemma below_rank a m : m ∈ dom h → below h a m → (rk m ≤ rk a)%nat.
Proof.
  intros Hm Hb. revert Hm. induction Hb as [|m p Hp _ IH]; intros Hm; [done|].
  destruct (Hrk m Hm) as [_ Hlt]. specialize (Hlt p Hp).
  specialize (IH (Hcl _ _ Hm Hp)). lia.
Qed.

Lemma below_antisym a m : m ∈ dom h → below h a m → below h m a → a = m.
Proof.
  intros Hm Hb Hb'. destruct Hb as [|m p Hp Hb]; [done|].
  destruct (Hrk m Hm) as [_ Hlt]. specialize (Hlt p Hp).
  pose proof (Hcl _ _ Hm Hp) as Hpd.
  assert (below h m p) as H1.
  { eapply below_trans; [exact Hb'|exact Hb]. }
  apply below_rank in H1; [lia|done].
Qed.

Lemma below_dom a m : m ∈ dom h → below h a m → a ∈ dom h.
Proof. intros Hm Hb. revert Hm. induction Hb; eauto. Qed.



End ranked.

(** ** Sums of sizes *)

Lemma sum_sizes_sumZ h l : sum_sizes h l = sumZ (λ c, data_size (get h c)) l.
Proof.
  unfold sum_sizes.
  assert (∀ acc, foldl (λ total subtree, total + data_size (get h subtree)) acc l
                 = acc + sumZ (λ c, data_size (get h c)) l) as H.
  { induction l as [|c l IH]; intros acc; simpl; [lia|]. rewrite IH. lia. }
  rewrite H. lia.
Qed.

Lemma sumZ_app {A} (f : A → Z) l1 l2 : sumZ f (l1 ++ l2) = sumZ f l1 + sumZ f l2.
Proof. induction l1 as [|c l1 IH]; simpl; lia. Qed.

Lemma sumZ_ext {A} (f : A → Z) g l : (∀ c, c ∈ l → f c = g c) → sumZ f l = sumZ g l.
Proof.
  induction l as [|c l IH]; intros H; simpl; [done|].
  rewrite H, IH; [done| |]; set_solver.
Qed.




Lemma sumZ_nonneg {A} (f : A → Z) l : (∀ c, c ∈ l → 0 ≤ f c) → 0 ≤ sumZ f l.
Proof.
  induction l as [|c l IH]; intros H; simpl; [done|].
  assert (0 ≤ f c) by (apply H; set_solver).
  assert (0 ≤ sumZ f l) by (apply IH; set_solver). lia.
Qed.

Lemma sumZ_pos {A} (f : A → Z) l : l ≠ [] → (∀ c, c ∈ l → 0 < f c) → 0 < sumZ f l.
Proof.
  destruct l as [|c l]; [done|]. intros _ H. simpl.
  assert (0 < f c) by (apply H; set_solver).
  assert (0 ≤ sumZ f l); [|lia].
  apply sumZ_nonneg. intros c' Hc'. assert (0 < f c') by (apply H; set_solver). lia.
Qed.

Lemma sumZ_elem_le {A} (f : A → Z) l c : (∀ c, c ∈ l → 0 ≤ f c) → c ∈ l → f c ≤ sumZ f l.
Proof.
  induction l as [|c' l IH]; intros H Hc; [set_solver|]. simpl.
  assert (0 ≤ f c') by (apply H; set_solver).
  assert (0 ≤ sumZ f l) by (apply sumZ_nonneg; set_solver).
  apply elem_of_cons in Hc as [->|Hc]; [lia|].
  assert (f c ≤ sumZ f l); [|lia]. apply IH; [set_solver|done].
Qed.


Lemma list_remove_Some x l l' :
  list_remove x l = Some l' →
  ∃ l1 l2, l = l1 ++ x :: l2 ∧ l' = l1 ++ l2 ∧ x ∉ l1.
Proof.
  revert l'. induction l as [|y l IH]; intros l'; simpl; [done|].
  case_decide as Hxy.
  - intros [= <-]. subst. exists [], l. set_solver.
  - destruct (list_remove x l) as [l0|] eqn:E; simpl; [|done].
    intros [= <-]. destruct (IH l0 eq_refl) as (l1 & l2 & -> & -> & Hn).
    exists (y :: l1), l2. set_solver.
Qed.

Lemma list_remove_elem x l : x ∈ l → is_Some (list_remove x l).
Proof.
  induction l as [|y l IH]; [set_solver|]. simpl. intros Hin.
  case_decide; [done|].
  destruct IH as [l' ->]; [set_solver|]. done.
Qed.

Lemma list_remove_NoDup x l l' :
  NoDup l → list_remove x l = Some l' →
  NoDup l' ∧ x ∉ l' ∧ (∀ c, c ∈ l ↔ c = x ∨ c ∈ l') ∧
  ∀ f, sumZ f l = f x + sumZ f l'.
Proof.
  intros Hnd (l1 & l2 & -> & -> & Hn)%list_remove_Some.
  apply NoDup_app in Hnd as (H1 & H2 & H3).
  apply NoDup_cons in H3 as [H3 H4].
  repeat split.
  - apply NoDup_app. set_solver.
  - set_solver.
  - set_solver.
  - set_solver.
  - intros f. rewrite !sumZ_app. simpl. lia.
Qed.

(** ** Stores that differ in some attributes only *)

Lemma same_structure_refl h : same_structure h h.
Proof. by split. Qed.

Lemma same_structure_trans h1 h2 h3 :
  same_structure h1 h2 → same_structure h2 h3 → same_structure h1 h3.
Proof.
  intros [] []. split; intros; etrans; eauto.
Qed.


Lemma same_structure_upd i f h :
  (∀ nd, cls (f nd) = cls nd) → (∀ nd, _name (f nd) = _name nd) →
  (∀ nd, _colour (f nd) = _colour nd) → (∀ nd, _subtrees (f nd) = _subtrees nd) →
  (∀ nd, _parent_tree (f nd) = _parent_tree nd) →
  same_structure h (upd i f h).
Proof.
  intros. split; [apply dom_upd|..]; intros j;
    by apply (get_upd_proj _ i j f h).
Qed.

Lemma same_structure_parents h h' : same_structure h h' → same_parents h h'.
Proof. intros [] i. eauto. Qed.

Lemma sum_sizes_same h h' l :
  (∀ c, c ∈ l → data_size (get h' c) = data_size (get h c)) →
  sum_sizes h' l = sum_sizes h l.
Proof. intros H. rewrite !sum_sizes_sumZ. by apply sumZ_ext. Qed.

Lemma descendant_same h h' i m :
  (∀ j, _subtrees (get h' j) = _subtrees (get h j)) →
  descendant h i m → descendant h' i m.
Proof.
  intros Hs. induction 1 as [i c Hc|i c m Hc _ IH].
  - apply desc_child. by rewrite Hs.
  - eapply desc_step; [|exact IH]. by rewrite Hs.
Qed.

Lemma ranked_same h h' rk bound :
  dom h' = dom h → same_parents h h' → ranked h rk bound → ranked h' rk bound.
Proof.
  intros Hd Hp H i Hi. rewrite Hd in Hi. destruct (H i Hi) as [Hb Hlt].
  split; [done|]. intros p. rewrite Hp. apply Hlt.
Qed.

Lemma forest_same h h' : same_structure h h' → forest h → forest h'.
Proof.
  intros Hs [Hnd (rk & bound & Hrk)]. split.
  - intros i Hi. rewrite (ss_dom _ _ Hs) in Hi. rewrite (ss_subtrees _ _ Hs). eauto.
  - exists rk, bound. eapply ranked_same; [by apply ss_dom| |done].
    by apply same_structure_parents.
Qed.

(** The invariant on collapsed nodes follows from the one on expanded
    nodes, child by child. *)
Lemma collapsed_from_expanded h :
  (∀ i, i ∈ dom h → ∀ c, c ∈ _subtrees (get h i) →
        c ∈ dom h ∧ _parent_tree (get h c) = Some i) →
  (∀ i, i ∈ dom h → _expanded (get h i) = true →
        ∀ p, _parent_tree (get h i) = Some p → _expanded (get h p) = true) →
  ∀ i m, i ∈ dom h → _expanded (get h i) = false → descendant h i m →
         _expanded (get h m) = false.
Proof.
  intros Hch Hex i m Hi He Hd. revert Hi He.
  induction Hd as [i c Hc|i c m Hc _ IH]; intros Hi He.
  - destruct (Hch i Hi c Hc) as [Hcd Hp].
    destruct (_expanded (get h c)) eqn:E; [|done].
    rewrite (Hex c Hcd E i Hp) in He. done.
  - destruct (Hch i Hi c Hc) as [Hcd Hp]. apply IH; [done|].
    destruct (_expanded (get h c)) eqn:E; [|done].
    rewrite (Hex c Hcd E i Hp) in He. done.
Qed.

Lemma node_inv_to_local h i : node_inv h i → node_inv_local h i.
Proof. intros []. by split. Qed.

Lemma wf_intro h :
  forest h → (∀ i, i ∈ dom h → node_inv_local h i) → wf h.
Proof.
  intros Hf Hl. split; [done|]. intros i Hi. destruct (Hl i Hi). split; try done.
  intros He m Hd. eapply (collapsed_from_expanded h); eauto.
  - intros j Hj. apply (loc_children _ _ (Hl j Hj)).
  - intros j Hj. apply (loc_expanded _ _ (Hl j Hj)).
Qed.

Lemma wf_local h i : wf h → i ∈ dom h → node_inv_local h i.
Proof. intros [_ H] Hi. apply node_inv_to_local. eauto. Qed.

Lemma wf_forest h : wf h → forest h.
Proof. by intros []. Qed.

(** Writing rectangles keeps the invariants. *)
Lemma wf_change_rect h h' :
  same_structure h h' → same_sizes h h' → same_expanded h h' → wf h → wf h'.
Proof.
  intros Hs Hz He Hwf. apply wf_intro; [by eapply forest_same, wf_forest|].
  intros i Hi. rewrite (ss_dom _ _ Hs) in Hi.
  destruct (wf_local h i Hwf Hi). destruct Hs.
  split; rewrite ?ss_dom0, ?ss_subtrees0, ?ss_cls0, ?ss_name0, ?ss_colour0,
    ?ss_parent0, ?He, ?Hz, ?(sum_sizes_same h h'); auto.
  - intros p. rewrite ss_subtrees0. auto.
  - intros c Hc. rewrite ss_parent0. auto.
  - intros ? p. rewrite He. auto.
Qed.

(** Writing [_expanded] keeps the invariants when the two invariants on
    that attribute hold afterwards. *)
Lemma wf_change_expanded h h' :
  same_structure h h' → same_sizes h h' → wf h →
  (∀ i, i ∈ dom h → _expanded (get h' i) = true →
        ∀ p, _parent_tree (get h i) = Some p → _expanded (get h' p) = true) →
  (∀ i, i ∈ dom h → _subtrees (get h i) = [] → _expanded (get h' i) = false) →
  wf h'.
Proof.
  intros Hs Hz Hwf H1 H2. apply wf_intro; [by eapply forest_same, wf_forest|].
  intros i Hi. rewrite (ss_dom _ _ Hs) in Hi.
  destruct (wf_local h i Hwf Hi). destruct Hs.
  split; rewrite ?ss_dom0, ?ss_subtrees0, ?ss_cls0, ?ss_name0, ?ss_colour0,
    ?ss_parent0, ?Hz, ?(sum_sizes_same h h'); auto.
  - intros p. rewrite ss_subtrees0. auto.
  - intros c Hc. rewrite ss_parent0. auto.
  - by apply H1.
Qed.


(** ** Links *)

Lemma wf_linked h : wf h → linked h.
Proof.
  intros Hwf i Hi. destruct (wf_local h i Hwf Hi). by split.
Qed.

Lemma linked_same h h' : same_structure h h' → linked h → linked h'.
Proof.
  intros [] H i Hi. rewrite ss_dom0 in Hi. destruct (H i Hi) as [H1 H2].
  split.
  - intros p. rewrite ss_parent0, ss_subtrees0, ss_dom0. apply H1.
  - intros c. rewrite ss_subtrees0, ss_parent0, ss_dom0. apply H2.
Qed.

(** A proper descendant lies under one of the subtrees. *)
Lemma below_child h a m :
  linked h → below h a m → a ≠ m →
  ∃ c, c ∈ _subtrees (get h a) ∧ below h c m.
Proof.
  intros Hl. induction 1 as [|m p Hp Hb IH]; intros Hne; [done|].
  pose proof (parent_in_dom _ _ _ Hp) as Hm.
  destruct (Hl m Hm) as [H1 _]. destruct (H1 p Hp) as [_ Hin].
  destruct (decide (a = p)) as [->|Hap].
  - exists m. split; [done|constructor].
  - destruct (IH Hap) as (c & Hc & Hbc). exists c. split; [done|].
    by eapply below_step.
Qed.

Lemma below_parent_of h a m p :
  below h a m → a ≠ m → _parent_tree (get h m) = Some p → below h a p.
Proof.
  intros Hb Hne Hp. inversion Hb as [|? p' Hp' Hb']; subst; [done|].
  by assert (p' = p) as -> by congruence.
Qed.

(** ** The geometry of one slicing step *)







(** ** [update_rectangles]: what it writes *)

Lemma same_but_rect_refl h : same_but_rect h h.
Proof. split; [apply same_structure_refl|]. by split. Qed.

Lemma same_but_rect_trans h1 h2 h3 :
  same_but_rect h1 h2 → same_but_rect h2 h3 → same_but_rect h1 h3.
Proof.
  intros (H1 & H2 & H3) (H1' & H2' & H3'). split; [by eapply same_structure_trans|].
  split; intros i; [rewrite H2'|rewrite H3']; auto.
Qed.

Lemma same_but_rect_set_rect i r h : same_but_rect h (upd i (set_rect r) h).
Proof.
  split; [by apply same_structure_upd|].
  split; intros j; by apply (get_upd_proj _ i j).
Qed.

Lemma same_but_rect_wf h h' : same_but_rect h h' → wf h → wf h'.
Proof. intros (H1 & H2 & H3). by apply wf_change_rect. Qed.

Lemma same_but_rect_dom h h' : same_but_rect h h' → dom h' = dom h.
Proof. intros [[] _]. done. Qed.

Lemma same_but_rect_ranked h h' rk bound :
  same_but_rect h h' → ranked h rk bound → ranked h' rk bound.
Proof.
  intros [Hs _]. apply ranked_same; [by apply ss_dom|by apply same_structure_parents].
Qed.



Lemma slice_loop_last rec hz total x y w ht last ul h :
  slice_loop rec hz total (x, y, w, ht) [last] ul h =
    if hz then rec last (ul.1, ul.2, w + x - ul.1, ht) h
    else rec last (ul.1, ul.2, w, y + ht - ul.2) h.
Proof. done. Qed.

Lemma slice_loop_cons rec hz total x y w ht c c' rest ul h :
  slice_loop rec hz total (x, y, w, ht) (c :: c' :: rest) ul h =
    if decide (total = 0) then Raise ZeroDivisionError h else
    if hz then
      bind (rec c (ul.1, ul.2, data_size (get h c) * w / total, ht) h)
           (λ _ h', slice_loop rec hz total (x, y, w, ht) (c' :: rest)
                      (ul.1 + data_size (get h c) * w / total, ul.2) h')
    else
      bind (rec c (ul.1, ul.2, w, data_size (get h c) * ht / total) h)
           (λ _ h', slice_loop rec hz total (x, y, w, ht) (c' :: rest)
                      (ul.1, ul.2 + data_size (get h c) * ht / total) h').
Proof. done. Qed.


Section slice_loop.
Context (rec : oid → rectangle → heap → outcome unit).
Context (hz : bool) (total : Z) (R : rectangle) (h0 : heap).
Context (Q : oid → rectangle → heap → Prop) (good : rectangle → Prop).


End slice_loop.

















Lemma below_in_dom h a m : a ∈ dom h → below h a m → m ∈ dom h.
Proof. intros Ha Hb. destruct Hb; [done|by eapply parent_in_dom]. Qed.


(** ** [TMTree.__init__]: the store it builds *)

Lemma init_loop_spec self : ∀ subtrees h,
  self ∈ dom h → self ∉ subtrees → NoDup subtrees →
  (∀ c, c ∈ subtrees → c ∈ dom h) →
  dom (init_loop self subtrees h) = dom h ∧
  get (init_loop self subtrees h) self
    = set_data_size (data_size (get h self)
                     + sumZ (λ c, data_size (get h c)) subtrees) (get h self) ∧
  (∀ c, c ∈ subtrees →
        get (init_loop self subtrees h) c = set_parent_tree (Some self) (get h c)) ∧
  (∀ i, i ≠ self → i ∉ subtrees → get (init_loop self subtrees h) i = get h i).
Proof.
  induction subtrees as [|c rest IH]; intros h Hself Hnin Hnd Hdom.
  - simpl. split; [done|]. split; [|split; [set_solver|done]].
    destruct (get h self). unfold set_data_size. simpl. f_equal. lia.
  - apply NoDup_cons in Hnd as [Hc Hnd].
    assert (c ≠ self) as Hcs by set_solver.
    assert (c ∈ dom h) as Hcd by (apply Hdom; set_solver).
    unfold init_loop. simpl foldl.
    set (h2 := upd c (set_parent_tree (Some self))
                 (upd self (λ nd, set_data_size (data_size nd + data_size (get h c)) nd) h)).
    fold (init_loop self rest h2).
    assert (dom h2 = dom h) as Hd2 by (unfold h2; by rewrite !dom_upd).
    assert (get h2 self = set_data_size (data_size (get h self) + data_size (get h c)) (get h self))
      as Hg2s.
    { unfold h2. rewrite get_upd_ne by done. by rewrite get_upd_eq. }
    assert (get h2 c = set_parent_tree (Some self) (get h c)) as Hg2c.
    { unfold h2. rewrite get_upd_eq by (by rewrite dom_upd). by rewrite get_upd_ne. }
    assert (∀ i, i ≠ self → i ≠ c → get h2 i = get h i) as Hg2o.
    { intros i ??. unfold h2. by rewrite !get_upd_ne. }
    destruct (IH h2) as (Hd & Hs & Hch & Ho);
      [by rewrite Hd2|set_solver|done|intros; rewrite Hd2; apply Hdom; set_solver|].
    split; [by rewrite Hd|]. split; [|split].
    + rewrite Hs, Hg2s. unfold set_data_size. simpl. f_equal.
      rewrite (sumZ_ext (λ c0, data_size (get h2 c0)) (λ c0, data_size (get h c0)) rest).
      * lia.
      * intros c0 Hc0. rewrite Hg2o; [done|set_solver|set_solver].
    + intros c0 [->|Hc0]%elem_of_cons.
      * rewrite Ho by done. done.
      * rewrite Hch by done. rewrite Hg2o; [done|set_solver|set_solver].
    + intros i Hi Hni. rewrite Ho by set_solver. apply Hg2o; set_solver.
Qed.

Lemma TMTree_init_spec h k self name subtrees size col wtp :
  self ∉ dom h → NoDup subtrees → (∀ c, c ∈ subtrees → c ∈ dom h) →
  let h' := TMTree_init k self name subtrees size col wtp h in
  dom h' = {[self]} ∪ dom h ∧
  get h' self = Node k None (size + sumZ (λ c, data_size (get h c)) subtrees) col name
                     subtrees None (negb (Nat.eqb (length subtrees) 0)) wtp ∧
  (∀ c, c ∈ subtrees → get h' c = set_parent_tree (Some self) (get h c)) ∧
  (∀ i, i ≠ self → i ∉ subtrees → get h' i = get h i).
Proof.
  intros Hfresh Hnd Hdom h'. unfold h', TMTree_init.
  set (nd0 := Node k None size col name subtrees None false wtp).
  set (h0 := <[self := nd0]> h).
  assert (dom h0 = {[self]} ∪ dom h) as Hd0 by (unfold h0; apply dom_insert_L).
  assert (get h0 self = nd0) as Hg0.
  { unfold h0, get. by rewrite lookup_insert_eq. }
  assert (∀ i, i ≠ self → get h0 i = get h i) as Hg0o.
  { intros i Hi. unfold h0, get. by rewrite lookup_insert_ne. }
  assert (self ∉ subtrees) as Hns by (intros Hin; by apply Hfresh, Hdom).
  destruct (init_loop_spec self subtrees h0) as (Hd & Hs & Hch & Ho);
    [set_solver|done|done|intros; rewrite Hd0; set_solver|].
  split; [by rewrite dom_upd, Hd|]. split; [|split].
  - rewrite get_upd_eq by (rewrite Hd; set_solver). rewrite Hs, Hg0.
    unfold set_expanded, set_data_size, nd0. simpl. f_equal. f_equal.
    apply sumZ_ext. intros c Hc. rewrite Hg0o; [done|]. intros ->. done.
  - intros c Hc. rewrite get_upd_ne by (intros ->; done).
    rewrite Hch by done. rewrite Hg0o; [done|]. intros ->. done.
  - intros i Hi Hni. rewrite get_upd_ne by done. rewrite Ho by done. by apply Hg0o.
Qed.

Lemma TMTree_init_wf h k self name subtrees size col wtp :
  wf h → init_pre h k self name subtrees size col →
  wf (TMTree_init k self name subtrees size col wtp h).
Proof.
  intros Hwf [].
  destruct (TMTree_init_spec h k self name subtrees size col wtp)
    as (Hd & Hs & Hch & Ho); [done|done|intros; by apply pre_roots0|].
  set (h' := TMTree_init k self name subtrees size col wtp h) in *.
  assert (∀ i, i ∈ dom h → i ≠ self) as Hold by (intros i Hi ->; done).
  (* an old object keeps everything but its parent *)
  assert (∀ i, i ≠ self →
            (get h' i = get h i ∨ get h' i = set_parent_tree (Some self) (get h i))) as Hcase.
  { intros i Hi. destruct (decide (i ∈ subtrees)); [right; by apply Hch|left; by apply Ho]. }
  assert (∀ i, i ≠ self → data_size (get h' i) = data_size (get h i)) as Hsz.
  { intros i Hi. by destruct (Hcase i Hi) as [-> | ->]. }
  assert (∀ i, i ≠ self → _subtrees (get h' i) = _subtrees (get h i)) as Hst.
  { intros i Hi. by destruct (Hcase i Hi) as [-> | ->]. }
  assert (∀ i, i ≠ self → _expanded (get h' i) = _expanded (get h i)) as Hex.
  { intros i Hi. by destruct (Hcase i Hi) as [-> | ->]. }
  assert (∀ i, i ≠ self → _parent_tree (get h' i)
            = if decide (i ∈ subtrees) then Some self else _parent_tree (get h i)) as Hpa.
  { intros i Hi. case_decide; [by rewrite Hch|by rewrite Ho]. }
  assert (∀ l, (∀ c, c ∈ l → c ∈ dom h) → sum_sizes h' l = sum_sizes h l) as Hsum.
  { intros l Hl. apply sum_sizes_same. intros c Hc. apply Hsz, Hold, Hl, Hc. }
  apply wf_intro.
  - (* forest *)
    destruct (wf_forest _ Hwf) as [Hnd (rk & bound & Hrk)]. split.
    + intros i Hi. destruct (decide (i = self)) as [->|Hne].
      * by rewrite Hs.
      * rewrite Hst by done. apply Hnd. set_solver.
    + exists (λ i, if decide (i = self) then S bound else rk i), (S bound).
      intros i Hi. destruct (decide (i = self)) as [->|Hne].
      * split; [lia|]. intros p. rewrite Hs. done.
      * assert (i ∈ dom h) as Hih by set_solver.
        destruct (Hrk i Hih) as [Hb Hlt]. split; [lia|]. intros p. rewrite Hpa by done.
        case_decide.
        -- intros [= <-]. rewrite decide_True by done. lia.
        -- intros Hp. specialize (Hlt p Hp).
           rewrite decide_False; [done|]. apply Hold.
           by apply (wf_parents_closed _ Hwf i p).
  - intros i Hi. destruct (decide (i = self)) as [->|Hne].
    + (* the new object *)
      assert (sum_sizes h' subtrees = sumZ (λ c, data_size (get h c)) subtrees) as Hsum'.
      { rewrite Hsum, sum_sizes_sumZ; [done|]. intros; by apply pre_roots0. }
      split; rewrite ?Hs; simpl; rewrite ?Hsum'; try done.
      * destruct subtrees as [|c l]; [simpl; specialize (pre_leaf0 eq_refl); lia|].
        assert (0 < sumZ (λ c, data_size (get h c)) (c :: l)); [|lia].
        apply sumZ_pos; [done|]. intros c0 Hc0.
        apply (loc_size _ _ (wf_local h c0 Hwf (proj1 (pre_roots0 c0 Hc0)))).
      * intros _. lia.
      * intros c Hc. split; [rewrite Hd; set_solver|].
        rewrite Hch by done. done.
      * intros ->. done.
      * intros ->. rewrite pre_directory0 by done. done.
    + (* an old object *)
      assert (i ∈ dom h) as Hih by set_solver.
      pose proof (wf_local h i Hwf Hih) as [].
      assert (∀ c, c ∈ _subtrees (get h i) → c ∈ dom h) as Hcl
        by (intros c Hc; by apply loc_children0).
      split; rewrite ?Hsz, ?Hst, ?Hex, ?Hsum by done; try done.
      * by destruct (Hcase i Hne) as [-> | ->].
      * by destruct (Hcase i Hne) as [-> | ->].
      * intros p. rewrite Hpa by done. case_decide as Hin.
        -- intros [= <-]. split; [rewrite Hd; set_solver|]. by rewrite Hs.
        -- intros Hp. destruct (loc_parent0 p Hp) as [Hpd Hip].
           split; [rewrite Hd; set_solver|]. rewrite Hst; [done|by apply Hold].
      * intros c Hc. destruct (loc_children0 c Hc) as [Hcd Hcp].
        split; [rewrite Hd; set_solver|].
        rewrite Hpa by (by apply Hold). rewrite decide_False; [done|].
        intros Hin. destruct (pre_roots0 c Hin) as [_ Hroot]. congruence.
      * intros He p. rewrite Hpa by done. case_decide as Hin.
        -- intros [= <-]. rewrite Hs. simpl. by destruct subtrees; [set_solver|].
        -- intros Hp. rewrite Hex; [by apply loc_expanded0|].
           apply Hold. by apply (wf_parents_closed _ Hwf i p).
      * by destruct (Hcase i Hne) as [-> | ->].
      * by destruct (Hcase i Hne) as [-> | ->].
Qed.

Lemma wf_empty : wf ∅.
Proof.
  split; [split|]; try (intros i Hi; set_solver).
  exists (λ _, O), O. intros i Hi. set_solver.
Qed.

(** ** The expand/collapse family: what it writes *)

Lemma same_but_expanded_refl h : same_but_expanded h h.
Proof. split; [apply same_structure_refl|]. by split. Qed.

Lemma same_but_expanded_trans h1 h2 h3 :
  same_but_expanded h1 h2 → same_but_expanded h2 h3 → same_but_expanded h1 h3.
Proof.
  intros (H1 & H2 & H3) (H1' & H2' & H3'). split; [by eapply same_structure_trans|].
  split; intros i; [rewrite H2'|rewrite H3']; auto.
Qed.

Lemma same_but_expanded_set i b h : same_but_expanded h (upd i (set_expanded b) h).
Proof.
  split; [by apply same_structure_upd|].
  split; intros j; by apply (get_upd_proj _ i j).
Qed.

Lemma same_but_expanded_below h h' a m :
  same_but_expanded h h' → below h a m ↔ below h' a m.
Proof.
  intros [Hs _]. split; apply below_same_parents.
  - by apply same_structure_parents.
  - by apply same_parents_sym, same_structure_parents.
Qed.

Lemma for_each_clears h0 body cs :
  (∀ c, c ∈ cs → clears h0 body c) →
  ∀ h, same_but_expanded h0 h →
    ∃ h', for_each body cs h = Ret tt h' ∧ same_but_expanded h h' ∧
      (∀ m, _expanded (get h' m) = true → _expanded (get h m) = true) ∧
      (∀ m c, c ∈ cs → below h0 c m → _subtrees (get h0 m) ≠ [] →
              _expanded (get h' m) = false) ∧
      (∀ m, (∀ c, c ∈ cs → ¬ below h0 c m) → _expanded (get h' m) = _expanded (get h m)).
Proof.
  induction cs as [|c cs IH]; intros Hb h Hs.
  - exists h. simpl. split; [done|]. split; [apply same_but_expanded_refl|].
    split; [done|]. split; [set_solver|done].
  - destruct (Hb c ltac:(set_solver) h Hs) as (h2 & Hrun & Hs2 & Ha2 & Hc2 & Hf2).
    destruct (IH ltac:(set_solver) h2) as (h' & Hrun' & Hs' & Ha' & Hc' & Hf').
    { by eapply same_but_expanded_trans. }
    exists h'. simpl. rewrite Hrun. simpl. split; [done|].
    split; [by eapply same_but_expanded_trans|]. split; [auto|]. split.
    + intros m c0 [->|Hin]%elem_of_cons Hbel Hne.
      * destruct (_expanded (get h' m)) eqn:E; [|done].
        apply Ha' in E. rewrite Hc2 in E; done.
      * by eapply Hc'.
    + intros m Hm. rewrite Hf', Hf2; [done| |]; intros; apply Hm; set_solver.
Qed.

Lemma unexpanded_clears rk bound h0 fuel :
  linked h0 → ranked h0 rk bound →
  ∀ self, self ∈ dom h0 → (rk self < fuel)%nat → clears h0 (_unexpanded fuel) self.
Proof.
  intros Hl Hrk. induction fuel as [|fuel IH]; intros self Hself Hf h Hs; [lia|].
  pose proof Hs as (Hss & _).
  simpl. destruct (_subtrees (get h self)) as [|c0 cs0] eqn:Hsub.
  - exists h. split; [done|]. split; [apply same_but_expanded_refl|].
    split; [done|]. split; [|done].
    intros m Hb Hne. rewrite (ss_subtrees _ _ Hss) in Hsub.
    destruct (decide (self = m)) as [->|Hsm]; [done|].
    destruct (below_child h0 self m Hl Hb Hsm) as (c & Hc & _).
    rewrite Hsub in Hc. set_solver.
  - set (h1 := upd self (set_expanded false) h).
    assert (same_but_expanded h h1) as Hs1 by apply same_but_expanded_set.
    assert (same_but_expanded h0 h1) as Hs01 by (by eapply same_but_expanded_trans).
    pose proof Hs01 as (Hss1 & _).
    rewrite (ss_subtrees _ _ Hss1).
    destruct (for_each_clears h0 (_unexpanded fuel) (_subtrees (get h0 self)))
      with (h := h1) as (h' & Hrun & Hs' & Ha' & Hc' & Hf'); [|done|].
    { intros c Hc. destruct (Hl self Hself) as [_ H2]. destruct (H2 c Hc) as [Hcd Hp].
      destruct (Hrk c Hcd) as [_ Hlt]. specialize (Hlt _ Hp).
      apply IH; [done|lia]. }
    assert (_expanded (get h1 self) = false) as He1.
    { unfold h1. rewrite get_upd_eq; [done|].
      destruct Hss as [Hd _]. by rewrite Hd. }
    assert (∀ m, m ≠ self → _expanded (get h1 m) = _expanded (get h m)) as Ho1.
    { intros m Hm. unfold h1. by rewrite get_upd_ne. }
    exists h'. split; [done|]. split; [by eapply same_but_expanded_trans|].
    split; [|split].
    + intros m Hm. apply Ha' in Hm.
      destruct (decide (m = self)) as [->|Hne]; [congruence|]. by rewrite <- Ho1.
    + intros m Hb Hne. destruct (decide (self = m)) as [<-|Hsm].
      * destruct (_expanded (get h' self)) eqn:E; [|done]. apply Ha' in E. congruence.
      * destruct (below_child h0 self m Hl Hb Hsm) as (c & Hc & Hbc). by eapply Hc'.
    + intros m Hm. rewrite Hf'.
      * apply Ho1. intros ->. apply Hm. constructor.
      * intros c Hc Hbc. apply Hm. eapply below_trans; [|exact Hbc].
        apply below_parent. destruct (Hl self Hself) as [_ H2]. by apply H2.
Qed.

Lemma collapse_spec rk bound h fuel self p :
  wf h → ranked h rk bound → _parent_tree (get h self) = Some p →
  (rk p ≤ fuel)%nat →
  ∃ h', collapse fuel self h = Ret p h' ∧ same_but_expanded h h' ∧ wf h' ∧
        (∀ m, below h p m → _expanded (get h' m) = false) ∧
        (∀ m, ¬ below h p m → _expanded (get h' m) = _expanded (get h m)).
Proof.
  intros Hwf Hrk Hp Hf.
  pose proof (wf_linked _ Hwf) as Hl.
  pose proof (parent_in_dom _ _ _ Hp) as Hself.
  destruct (Hl self Hself) as [H1 _]. destruct (H1 p Hp) as [Hpd Hin].
  unfold collapse. rewrite Hp.
  set (h1 := upd p (set_expanded false) h).
  assert (same_but_expanded h h1) as Hs1 by apply same_but_expanded_set.
  pose proof Hs1 as (Hss1 & _). rewrite (ss_subtrees _ _ Hss1).
  destruct (for_each_clears h (_unexpanded fuel) (_subtrees (get h p)))
    with (h := h1) as (h' & Hrun & Hs' & Ha' & Hc' & Hf'); [|done|].
  { intros c Hc. destruct (Hl p Hpd) as [_ H2]. destruct (H2 c Hc) as [Hcd Hcp].
    destruct (Hrk c Hcd) as [_ Hlt]. specialize (Hlt _ Hcp).
    apply (unexpanded_clears rk bound); [done|done|done|lia]. }
  rewrite Hrun. simpl.
  assert (same_but_expanded h h') as Hsh by (by eapply same_but_expanded_trans).
  assert (_expanded (get h1 p) = false) as He1 by (unfold h1; by rewrite get_upd_eq).
  assert (∀ m, m ≠ p → _expanded (get h1 m) = _expanded (get h m)) as Ho1.
  { intros m Hm. unfold h1. by rewrite get_upd_ne. }
  assert (∀ m, _expanded (get h' m) = true → _expanded (get h m) = true) as Hanti.
  { intros m Hm. apply Ha' in Hm.
    destruct (decide (m = p)) as [->|Hne]; [congruence|]. by rewrite <- Ho1. }
  assert (∀ m, below h p m → _expanded (get h' m) = false) as Hbel.
  { intros m Hb. destruct (_expanded (get h' m)) eqn:E; [|done].
    destruct (decide (p = m)) as [<-|Hpm].
    - apply Ha' in E. congruence.
    - destruct (below_child h p m Hl Hb Hpm) as (c & Hc & Hbc).
      destruct (decide (_subtrees (get h m) = [])) as [Hnil|Hne].
      + apply Hanti in E.
        assert (m ∈ dom h) as Hm.
        { destruct (decide (m ∈ dom h)) as [|Hn]; [done|].
          rewrite (get_notin h m Hn) in E. done. }
        rewrite (loc_leaf _ _ (wf_local h m Hwf Hm) Hnil) in E. done.
      + rewrite (Hc' m c Hc Hbc Hne) in E. done. }
  assert (∀ m, ¬ below h p m → _expanded (get h' m) = _expanded (get h m)) as Hout.
  { intros m Hm. rewrite Hf'.
    - apply Ho1. intros ->. apply Hm. constructor.
    - intros c Hc Hbc. apply Hm. eapply below_trans; [|exact Hbc].
      apply below_parent. destruct (Hl p Hpd) as [_ H2]. by apply H2. }
  exists h'. split; [done|]. split; [done|]. split; [|by split].
  destruct Hsh as (Hss & Hz & _).
  apply (wf_change_expanded h h'); [done|done|done| |].
  - intros i Hi He q Hq.
    assert (¬ below h p i) as Hni by (intros Hb; rewrite (Hbel i Hb) in He; done).
    rewrite Hout in He by done.
    rewrite Hout; [by apply (loc_expanded _ _ (wf_local h i Hwf Hi))|].
    intros Hb. apply Hni. by eapply below_step.
  - intros i Hi Hnil. destruct (_expanded (get h' i)) eqn:E; [|done].
    apply Hanti in E. rewrite (loc_leaf _ _ (wf_local h i Hwf Hi) Hnil) in E. done.
Qed.

Lemma expand_spec h self :
  wf h → self ∈ dom h → displayed h self →
  ∃ r h', expand self h = Ret r h' ∧ same_but_expanded h h' ∧ wf h' ∧
    (_subtrees (get h self) ≠ [] → _expanded (get h' self) = true) ∧
    (∀ m, m ≠ self → _expanded (get h' m) = _expanded (get h m)).
Proof.
  intros Hwf Hself Hd. unfold expand.
  destruct (_subtrees (get h self)) as [|c l] eqn:Hsub.
  - exists self, h. split; [done|]. split; [apply same_but_expanded_refl|]. by split.
  - set (h' := upd self (set_expanded true) h).
    assert (_expanded (get h' self) = true) as He by (unfold h'; by rewrite get_upd_eq).
    assert (∀ m, m ≠ self → _expanded (get h' m) = _expanded (get h m)) as Ho.
    { intros m Hm. unfold h'. by rewrite get_upd_ne. }
    exists c, h'. split; [done|].
    pose proof (same_but_expanded_set self true h) as Hs. fold h' in Hs.
    split; [done|]. split; [|by split].
    destruct Hs as (Hss & Hz & _).
    apply (wf_change_expanded h h'); [done|done|done| |].
    + intros i Hi Hei q Hq. destruct (decide (q = self)) as [->|Hqs]; [done|].
      rewrite Ho by done. destruct (decide (i = self)) as [->|His]; [by apply Hd|].
      rewrite Ho in Hei by done. by apply (loc_expanded _ _ (wf_local h i Hwf Hi)).
    + intros i Hi Hnil. destruct (decide (i = self)) as [->|His]; [congruence|].
      rewrite Ho by done. by apply (loc_leaf _ _ (wf_local h i Hwf Hi)).
Qed.

Lemma descendant_below h a m : linked h → descendant h a m → below h a m.
Proof.
  intros Hl. induction 1 as [i c Hc|i c m Hc _ IH].
  - apply below_parent. destruct (Hl i (subtree_in_dom _ _ _ Hc)) as [_ H2]. by apply H2.
  - eapply below_trans; [|exact IH].
    apply below_parent. destruct (Hl i (subtree_in_dom _ _ _ Hc)) as [_ H2]. by apply H2.
Qed.

(** ** Concrete stores *)

(** Closed facts about a store that is given in full are computed. *)
Ltac concrete := apply (bool_decide_unpack _); vm_compute; exact I.

Ltac in_list H :=
  repeat (apply elem_of_cons in H as [->|H]); try (by apply elem_of_nil in H).

Ltac solve_init_pre :=
  split;
  [ concrete
  | done
  | lia
  | first [done | intros _; lia]
  | let c := fresh "c" in let Hc := fresh "Hc" in
    intros c Hc; in_list Hc; (split; [concrete|by vm_compute])
  | concrete
  | vm_compute; intuition discriminate
  | done
  | done ].

Lemma small_tree_wf : wf small_tree.
Proof.
  unfold small_tree.
  repeat (apply TMTree_init_wf; [|solve_init_pre]). apply wf_empty.
Qed.

Lemma chain_tree_wf : wf chain_tree.
Proof.
  unfold chain_tree.
  repeat (apply TMTree_init_wf; [|solve_init_pre]). apply wf_empty.
Qed.

(** ** Walking up the parents *)

Lemma same_but_size_refl h : same_but_size h h.
Proof. split; [apply same_structure_refl|]. by split. Qed.

Lemma same_but_size_trans h1 h2 h3 :
  same_but_size h1 h2 → same_but_size h2 h3 → same_but_size h1 h3.
Proof.
  intros (H1 & H2 & H3) (H1' & H2' & H3'). split; [by eapply same_structure_trans|].
  split; intros i; [rewrite H2'|rewrite H3']; auto.
Qed.

Lemma same_but_size_upd i f h :
  (∀ nd, ∃ z, f nd = set_data_size z nd) → same_but_size h (upd i f h).
Proof.
  intros Hf.
  split; [apply same_structure_upd; intros nd; by destruct (Hf nd) as [z ->]|].
  split; intros j; apply (get_upd_proj _ i j); intros nd; by destruct (Hf nd) as [z ->].
Qed.

Lemma bump_all_same δ l h : same_but_size h (bump_all δ l h).
Proof.
  revert h. induction l as [|a l IH]; intros h; [apply same_but_size_refl|].
  simpl. eapply same_but_size_trans; [|apply IH].
  apply same_but_size_upd. intros nd. by eexists.
Qed.

Lemma bump_all_size δ l h i :
  NoDup l → (∀ a, a ∈ l → a ∈ dom h) →
  data_size (get (bump_all δ l h) i) = data_size (get h i) + δ * on l i.
Proof.
  revert h. induction l as [|a l IH]; intros h Hnd Hdom.
  - simpl. unfold on. rewrite decide_False by set_solver. lia.
  - apply NoDup_cons in Hnd as [Ha Hnd]. simpl.
    rewrite IH; [|done|intros; rewrite dom_upd; apply Hdom; set_solver].
    unfold on. destruct (decide (i = a)) as [->|Hne].
    + rewrite get_upd_eq by (apply Hdom; set_solver).
      rewrite decide_False by done. rewrite decide_True by set_solver.
      unfold bump. simpl. lia.
    + rewrite get_upd_ne by done.
      destruct (decide (i ∈ l)).
      * rewrite decide_True by set_solver. done.
      * rewrite decide_False by set_solver. done.
Qed.

(** The loop adds the same amount to every ancestor when the amount does
    not depend on the ancestors' sizes. *)
Lemma walk_up_spec amount δ l : ∀ fuel x h,
  is_chain h x l →
  (∀ h', same_but_size h h' →
         (∀ i, i ∉ l → data_size (get h' i) = data_size (get h i)) → amount h' = δ) →
  (length l < fuel)%nat →
  walk_up fuel amount x h = Some (default x (last l), bump_all δ l h).
Proof.
  induction l as [|p l IH]; intros fuel x h Hc Hamt Hf.
  - inversion Hc as [? Hp|]; subst. destruct fuel; [simpl in Hf; lia|].
    simpl. by rewrite Hp.
  - inversion Hc as [|? ? ? Hp Hc']; subst. destruct fuel; [simpl in Hf; lia|].
    simpl in Hf. simpl walk_up. rewrite Hp.
    rewrite (Hamt h) by (apply same_but_size_refl || done).
    set (h1 := upd p (λ nd, set_data_size (data_size nd + δ) nd) h).
    assert (same_but_size h h1) as Hs1.
    { apply same_but_size_upd. intros nd. by eexists. }
    rewrite (IH fuel p h1).
    + f_equal. f_equal. rewrite last_cons. by destruct (last l).
    + eapply is_chain_same_parents; [|exact Hc'].
      destruct Hs1 as [Hss _]. by apply same_structure_parents.
    + intros h' Hs' Hsz. apply Hamt; [by eapply same_but_size_trans|].
      intros i Hi. rewrite Hsz by set_solver.
      unfold h1. rewrite get_upd_ne; [done|set_solver].
    + lia.
Qed.

Lemma last_chain_root h x l :
  is_chain h x l → _parent_tree (get h (default x (last l))) = None.
Proof.
  induction 1 as [x Hx|x p l Hx Hc IH]; [done|].
  rewrite last_cons. destruct (last l); [exact IH|]. simpl in *. exact IH.
Qed.

Lemma last_chain_below h x l : is_chain h x l → below h (default x (last l)) x.
Proof.
  intros Hc. apply (below_chain h _ _ _ Hc).
  destruct (last l) as [r|] eqn:E; simpl; [|set_solver].
  apply last_Some_elem_of in E. set_solver.
Qed.

(** ** [update_rectangles] writes rectangles only, and returns *)

Lemma slice_loop_frame rec hz total R cs :
  (∀ c rc h h', final_heap (rec c rc h) = Some h' → same_but_rect h h') →
  ∀ ul h h', final_heap (slice_loop rec hz total R cs ul h) = Some h' →
             same_but_rect h h'.
Proof.
  intros Hrec. destruct R as [[[x y] w] ht].
  induction cs as [|c rest IH]; intros ul h h' Hrun.
  - simpl in Hrun. injection Hrun as <-. apply same_but_rect_refl.
  - destruct rest as [|c' rest].
    + rewrite slice_loop_last in Hrun. destruct hz; by eapply Hrec.
    + rewrite slice_loop_cons in Hrun. case_decide.
      { simpl in Hrun. injection Hrun as <-. apply same_but_rect_refl. }
      destruct hz.
      * destruct (rec c _ h) as [[] h2|e h2|] eqn:E; unfold bind in Hrun; [| |done].
        -- eapply same_but_rect_trans; [|by eapply IH]. eapply Hrec. by rewrite E.
        -- injection Hrun as <-. eapply Hrec. by rewrite E.
      * destruct (rec c _ h) as [[] h2|e h2|] eqn:E; unfold bind in Hrun; [| |done].
        -- eapply same_but_rect_trans; [|by eapply IH]. eapply Hrec. by rewrite E.
        -- injection Hrun as <-. eapply Hrec. by rewrite E.
Qed.

Lemma slice_loop_total rec hz total R h0 cs :
  (∀ c rc hh, c ∈ cs → same_but_rect h0 hh →
     ∃ hh', rec c rc hh = Ret tt hh' ∧ same_but_rect hh hh') →
  total ≠ 0 →
  ∀ ul h, same_but_rect h0 h →
    ∃ h', slice_loop rec hz total R cs ul h = Ret tt h' ∧ same_but_rect h h'.
Proof.
  intros Hrec Htot. destruct R as [[[x y] w] ht].
  induction cs as [|c rest IH]; intros ul h Hs.
  - exists h. split; [done|apply same_but_rect_refl].
  - destruct rest as [|c' rest].
    + rewrite slice_loop_last. destruct hz; apply Hrec; set_solver.
    + rewrite slice_loop_cons, decide_False by done.
      destruct hz.
      * destruct (Hrec c (ul.1, ul.2, data_size (get h c) * w / total, ht) h)
          as (h2 & -> & Hs2); [set_solver|done|].
        unfold bind.
        destruct (IH ltac:(intros; apply Hrec; set_solver)
                    (ul.1 + data_size (get h c) * w / total, ul.2) h2)
          as (h' & -> & Hs'); [by eapply same_but_rect_trans|].
        exists h'. split; [done|]. by eapply same_but_rect_trans.
      * destruct (Hrec c (ul.1, ul.2, w, data_size (get h c) * ht / total) h)
          as (h2 & -> & Hs2); [set_solver|done|].
        unfold bind.
        destruct (IH ltac:(intros; apply Hrec; set_solver)
                    (ul.1, ul.2 + data_size (get h c) * ht / total) h2)
          as (h' & -> & Hs'); [by eapply same_but_rect_trans|].
        exists h'. split; [done|]. by eapply same_but_rect_trans.
Qed.

Lemma update_rectangles_frame fuel : ∀ self r h h',
  final_heap (update_rectangles fuel self r h) = Some h' → same_but_rect h h'.
Proof.
  induction fuel as [|fuel IH]; intros self r h h' Hrun; [done|].
  simpl in Hrun.
  pose proof (same_but_rect_set_rect self (Some r) h) as Hs1.
  destruct (_subtrees (get h self)) as [|c [|c' rest]].
  - simpl in Hrun. by injection Hrun as <-.
  - eapply same_but_rect_trans; [exact Hs1|]. by eapply IH.
  - destruct r as [[[x y] w] ht].
    eapply same_but_rect_trans; [exact Hs1|].
    eapply slice_loop_frame; [|exact Hrun]. apply IH.
Qed.


Lemma layoutable_same h h' : same_but_rect h h' → layoutable h → layoutable h'.
Proof.
  intros (Hss & Hz & _) [Hl Hp]. split; [by eapply linked_same|].
  intros i. rewrite (ss_dom _ _ Hss), Hz. apply Hp.
Qed.

Lemma update_rectangles_total rk bound fuel :
  ∀ self r h,
  layoutable h → ranked h rk bound → self ∈ dom h → (rk self < fuel)%nat →
  ∃ h', update_rectangles fuel self r h = Ret tt h' ∧ same_but_rect h h'.
Proof.
  induction fuel as [|fuel IH]; intros self r h Hlay Hrk Hself Hf; [lia|].
  pose proof Hlay as [Hl Hpos].
  destruct (Hl self Hself) as [_ Hch].
  assert (∀ c rc hh, c ∈ _subtrees (get h self) → same_but_rect h hh →
     ∃ hh', update_rectangles fuel c rc hh = Ret tt hh' ∧ same_but_rect hh hh') as Hrec.
  { intros c rc hh Hc Hsame.
    destruct (Hch c Hc) as [Hcd Hp].
    destruct (Hrk c Hcd) as [_ Hlt]. specialize (Hlt _ Hp).
    apply IH; [by eapply layoutable_same|by eapply same_but_rect_ranked
      |by rewrite (same_but_rect_dom h hh)|lia]. }
  pose proof (same_but_rect_set_rect self (Some r) h) as Hs1.
  simpl.
  destruct (_subtrees (get h self)) as [|c [|c' rest]] eqn:Hsub.
  - by eexists.
  - destruct (Hrec c r _ ltac:(set_solver) Hs1) as (h' & -> & Hs').
    exists h'. split; [done|]. by eapply same_but_rect_trans.
  - destruct r as [[[x y] w] ht].
    assert (_subtrees (get (upd self (set_rect (Some (x, y, w, ht))) h) self)
            = c :: c' :: rest) as ->.
    { destruct Hs1 as (Hss & _). by rewrite (ss_subtrees _ _ Hss). }
    assert (0 < sum_sizes h (c :: c' :: rest)) as Htot.
    { rewrite sum_sizes_sumZ. apply sumZ_pos; [done|]. intros c0 Hc0.
      apply Hpos. by apply Hch. }
    destruct (slice_loop_total (update_rectangles fuel) (bool_decide (w > ht))
                (sum_sizes h (c :: c' :: rest)) (x, y, w, ht) h (c :: c' :: rest))
      with (ul := (x, y)) (h := upd self (set_rect (Some (x, y, w, ht))) h)
      as (h' & Hrun & Hs'); [done|lia|done|].
    exists h'. split; [done|]. by eapply same_but_rect_trans.
Qed.

(** ** How many subtrees of a node lie on a parent chain *)




Lemma wf_chain h x : wf h → x ∈ dom h →
  ∃ l, is_chain h x l ∧ NoDup l ∧ x ∉ l ∧ (∀ a, a ∈ l → a ∈ dom h).
Proof.
  intros Hwf Hx.
  destruct (wf_forest _ Hwf) as [_ (rk & bound & Hrk)].
  pose proof (wf_parents_closed _ Hwf) as Hcl.
  destruct (chain_exists h rk bound Hrk Hcl x Hx) as (l & Hl & _).
  exists l. split; [done|]. split; [by eapply chain_NoDup|].
  split; [by eapply chain_not_self|].
  intros a Ha. by destruct (chain_rank h rk bound Hrk Hcl x l a Hx Hl Ha).
Qed.


Lemma walk_up_short amount l : ∀ fuel x h,
  is_chain h x l → (fuel ≤ length l)%nat → walk_up fuel amount x h = None.
Proof.
  induction l as [|p l IH]; intros fuel x h Hc Hf.
  - simpl in Hf. by assert (fuel = O) as -> by lia.
  - destruct fuel; [done|]. simpl in Hf.
    inversion Hc as [|? ? ? Hp Hc']; subst. simpl. rewrite Hp.
    apply IH; [|lia]. eapply is_chain_same_parents; [|exact Hc'].
    intros i. by apply (get_upd_proj _ p i).
Qed.

(** ** [TMTree.change_size]: what it writes *)

Lemma relayout_frame fuel curr h h' :
  final_heap (relayout fuel curr h) = Some h' → same_but_rect h h'.
Proof.
  unfold relayout. destruct (rect (get h curr)) as [r|].
  - apply update_rectangles_frame.
  - simpl. intros [= <-]. apply same_but_rect_refl.
Qed.

Lemma relayout_total rk bound fuel curr h :
  layoutable h → ranked h rk bound → curr ∈ dom h → is_Some (rect (get h curr)) →
  (rk curr < fuel)%nat →
  ∃ h', relayout fuel curr h = Ret tt h' ∧ same_but_rect h h'.
Proof.
  intros Hwf Hrk Hc [r Hr] Hf. unfold relayout. rewrite Hr.
  by apply (update_rectangles_total rk bound).
Qed.

Section resize.
Variable float_mul : Q → Z → Q.

Lemma TMTree_change_size_eq h self factor l fuel :
  self ∈ dom h → is_chain h self l → self ∉ l →
  TMTree_change_size float_mul fuel self factor h =
    if decide (length l < fuel)%nat
    then relayout fuel (default self (last l)) (resize_store float_mul h self factor l)
    else OutOfFuel.
Proof.
  intros Hself Hc Hns.
  unfold TMTree_change_size, resize_store.
  set (new := resized float_mul h self factor).
  set (size := if Qlt_le_dec factor 0
               then Qfloor (float_mul factor (data_size (get h self)))
               else Qceiling (float_mul factor (data_size (get h self)))).
  set (h1 := upd self (set_data_size new) h).
  assert (match _subtrees (get h self) with
          | [] =>
              if decide (data_size (get h self) + size < 1)
              then upd self (set_data_size 1) h
              else upd self (set_data_size (data_size (get h self) + size)) h
          | _ :: _ =>
              if decide (data_size (get h self) + size
                         < sum_sizes h (_subtrees (get h self)))
              then upd self (set_data_size (sum_sizes h (_subtrees (get h self)))) h
              else upd self (set_data_size (data_size (get h self) + size)) h
          end = h1) as ->.
  { unfold h1, new, resized. fold size. destruct (_subtrees (get h self)) eqn:Hsub.
    - case_decide; f_equal; f_equal; lia.
    - case_decide; f_equal; f_equal; lia. }
  assert (same_but_size h h1) as Hs1.
  { apply same_but_size_upd. intros nd. by eexists. }
  assert (is_chain h1 self l) as Hc1.
  { eapply is_chain_same_parents; [|exact Hc].
    destruct Hs1 as [Hss _]. by apply same_structure_parents. }
  assert (data_size (get h1 self) = new) as Hnew by (unfold h1; by rewrite get_upd_eq).
  case_decide as Hf.
  - rewrite (walk_up_spec _ (new - data_size (get h self)) l); [done|done| |done].
    intros hh Hsame Hsz. rewrite Hsz by done. by rewrite Hnew.
  - rewrite (walk_up_short _ l); [done|done|lia].
Qed.

Lemma resize_store_post h self factor l :
  wf h → self ∈ dom h → is_chain h self l →
  resize_post float_mul h self factor l (resize_store float_mul h self factor l).
Proof.
  intros Hwf Hself Hc.
  destruct (wf_chain h self Hwf Hself) as (l' & Hc' & Hnd & Hns & Hdom).
  assert (l' = l) as -> by (by eapply is_chain_inj).
  unfold resize_store.
  set (new := resized float_mul h self factor).
  set (h1 := upd self (set_data_size new) h).
  assert (same_but_size h h1) as Hs1.
  { apply same_but_size_upd. intros nd. by eexists. }
  destruct (same_but_size_trans _ _ _ Hs1 (bump_all_same (new - data_size (get h self)) l h1))
    as (Hss & He & _).
  split; [done|]. split; [done|]. intros i.
  rewrite bump_all_size; [|done|intros a Ha; unfold h1; rewrite dom_upd; auto].
  unfold on. destruct (decide (i = self)) as [->|Hne].
  - unfold h1. rewrite get_upd_eq by done. simpl.
    rewrite decide_False by done. rewrite decide_True by set_solver. lia.
  - unfold h1. rewrite get_upd_ne by done. destruct (decide (i ∈ l)).
    + rewrite decide_True by set_solver. done.
    + rewrite decide_False by set_solver. done.
Qed.

Lemma resize_post_rect h self factor l h1 h' :
  resize_post float_mul h self factor l h1 → same_but_rect h1 h' →
  resize_post float_mul h self factor l h'.
Proof.
  intros (Hss' & He' & Hsz') (Hss & Hz & He).
  split; [by eapply same_structure_trans|].
  split; [intros i; by rewrite He|]. intros i. by rewrite Hz.
Qed.

Lemma TMTree_change_size_post h self factor l fuel h' :
  wf h → self ∈ dom h → is_chain h self l →
  final_heap (TMTree_change_size float_mul fuel self factor h) = Some h' →
  resize_post float_mul h self factor l h'.
Proof.
  intros Hwf Hself Hc Hrun.
  destruct (wf_chain h self Hwf Hself) as (l' & Hc' & Hnd & Hns & Hdom).
  assert (l' = l) as -> by (by eapply is_chain_inj).
  rewrite (TMTree_change_size_eq h self factor l) in Hrun by done.
  case_decide; [|done].
  eapply resize_post_rect; [by apply resize_store_post|by eapply relayout_frame].
Qed.

End resize.

(** An ancestor is at least as large as the node. *)
Lemma parent_size_ge h x p :
  wf h → _parent_tree (get h x) = Some p → data_size (get h x) ≤ data_size (get h p).
Proof.
  intros Hwf Hp. pose proof (parent_in_dom _ _ _ Hp) as Hx.
  destruct (loc_parent _ _ (wf_local h x Hwf Hx) p Hp) as [Hpd Hin].
  pose proof (wf_local h p Hwf Hpd) as Hlp.
  etrans; [|apply (loc_sum _ _ Hlp); intros Hnil; rewrite Hnil in Hin; set_solver].
  rewrite sum_sizes_sumZ.
  apply (sumZ_elem_le (λ c, data_size (get h c))); [|done].
  intros c Hc. destruct (loc_children _ _ Hlp c Hc) as [Hcd _].
  pose proof (loc_size _ _ (wf_local h c Hwf Hcd)). lia.
Qed.

Lemma chain_sizes_ge h x l a :
  wf h → is_chain h x l → a ∈ l → data_size (get h x) ≤ data_size (get h a).
Proof.
  intros Hwf. induction 1 as [x Hx|x p l Hx _ IH]; intros Ha; [set_solver|].
  pose proof (parent_size_ge h x p Hwf Hx).
  apply elem_of_cons in Ha as [->|Ha]; [done|]. specialize (IH Ha). lia.
Qed.

Section resize_wf.
Variable float_mul : Q → Z → Q.





End resize_wf.

Lemma small_tree_laid_wf : wf small_tree_laid.
Proof.
  unfold small_tree_laid.
  destruct (final_heap (update_rectangles 3 3 (0, 0, 100, 200) small_tree)) as [h'|] eqn:E;
    [|apply small_tree_wf].
  eapply same_but_rect_wf; [|apply small_tree_wf]. by eapply update_rectangles_frame.
Qed.

(** ** [TMTree.move]: what it writes *)

Lemma dom_bump_all δ l h : dom (bump_all δ l h) = dom h.
Proof. destruct (bump_all_same δ l h) as ([] & _). done. Qed.

Lemma bump_all_proj {A} (π : node → A) δ l h i :
  (∀ z nd, π (set_data_size z nd) = π nd) →
  π (get (bump_all δ l h) i) = π (get h i).
Proof.
  intros Hπ. revert h. induction l as [|a l IH]; intros h; [done|].
  simpl. rewrite IH. apply (get_upd_proj π a i). intros nd. apply Hπ.
Qed.

Section move_store.
Context (h : heap) (self destination p : oid) (rest lp ld : list oid).
Hypothesis Hml : move_links h self destination p rest lp ld.

Let h' := move_store h self destination p rest lp ld.

Lemma move_store_dom : dom h' = dom h.
Proof.
  unfold h', move_store. rewrite dom_bump_all, !dom_upd, dom_bump_all, dom_upd.
  case_match; by rewrite ?dom_upd.
Qed.

Lemma move_store_proj {A} (π : node → A) i :
  (∀ z nd, π (set_data_size z nd) = π nd) →
  (∀ z nd, π (set_subtrees z nd) = π nd) →
  (∀ z nd, π (set_expanded z nd) = π nd) →
  (∀ z nd, π (set_parent_tree z nd) = π nd) →
  π (get h' i) = π (get h i).
Proof.
  intros H1 H2 H3 H4. unfold h', move_store.
  rewrite bump_all_proj by done.
  rewrite (get_upd_proj π) by (intros; apply H3).
  rewrite (get_upd_proj π) by (intros; apply H4).
  rewrite bump_all_proj by done.
  rewrite (get_upd_proj π) by (intros; apply H2).
  case_match.
  - rewrite (get_upd_proj π) by (intros; apply H3).
    by rewrite (get_upd_proj π) by (intros; apply H2).
  - by rewrite (get_upd_proj π) by (intros; apply H2).
Qed.

Lemma move_store_subtrees i :
  _subtrees (get h' i) =
    if decide (i = destination) then _subtrees (get h destination) ++ [self]
    else if decide (i = p) then rest
    else _subtrees (get h i).
Proof.
  destruct Hml. unfold h', move_store.
  rewrite bump_all_proj by done.
  rewrite (get_upd_proj _subtrees) by done.
  rewrite (get_upd_proj _subtrees) by done.
  rewrite bump_all_proj by done.
  set (h1 := upd destination _ h).
  set (h2 := if (length (_subtrees (get h1 p)) <? 2)%nat then _ else _).
  assert (dom h2 = dom h) as Hd2.
  { unfold h2, h1. case_match; by rewrite ?dom_upd. }
  assert (∀ j, _subtrees (get h2 j) = _subtrees (get h1 j)) as H21.
  { intros j. unfold h2. case_match; [|done]. by apply (get_upd_proj _subtrees). }
  destruct (decide (i = p)) as [->|Hip].
  - rewrite get_upd_eq by (by rewrite Hd2). rewrite decide_False by done. done.
  - rewrite get_upd_ne by done. rewrite H21. unfold h1.
    destruct (decide (i = destination)) as [->|Hid].
    + by rewrite get_upd_eq.
    + by rewrite get_upd_ne.
Qed.

Lemma move_store_parent i :
  _parent_tree (get h' i) =
    if decide (i = self) then Some destination else _parent_tree (get h i).
Proof.
  destruct Hml. unfold h', move_store.
  rewrite bump_all_proj by done.
  rewrite (get_upd_proj _parent_tree) by done.
  destruct (decide (i = self)) as [->|His].
  - rewrite get_upd_eq; [done|]. rewrite dom_bump_all, dom_upd.
    case_match; by rewrite ?dom_upd.
  - rewrite get_upd_ne by done. rewrite bump_all_proj by done.
    rewrite (get_upd_proj _parent_tree) by done.
    case_match.
    + rewrite (get_upd_proj _parent_tree) by done.
      by rewrite (get_upd_proj _parent_tree) by done.
    + by rewrite (get_upd_proj _parent_tree) by done.
Qed.

Lemma move_store_expanded i :
  _expanded (get h' i) =
    if decide (i = destination) then true
    else if decide (i = p)
         then (if (length (_subtrees (get h p)) <? 2)%nat then false
               else _expanded (get h p))
         else _expanded (get h i).
Proof.
  destruct Hml. unfold h', move_store.
  rewrite bump_all_proj by done.
  set (h1 := upd destination _ h).
  assert (_subtrees (get h1 p) = _subtrees (get h p)) as ->.
  { unfold h1. by rewrite get_upd_ne. }
  set (h2 := if (length (_subtrees (get h p)) <? 2)%nat then _ else _).
  assert (dom h2 = dom h) as Hd2.
  { unfold h2, h1. case_match; by rewrite ?dom_upd. }
  destruct (decide (i = destination)) as [->|Hid].
  - rewrite get_upd_eq; [done|].
    by rewrite dom_upd, dom_bump_all, dom_upd, Hd2.
  - rewrite get_upd_ne by done.
    rewrite (get_upd_proj _expanded) by done.
    rewrite bump_all_proj by done.
    rewrite (get_upd_proj _expanded) by done.
    unfold h2. destruct (decide (i = p)) as [->|Hip].
    + case_match.
      * rewrite get_upd_eq; [done|]. unfold h1. by rewrite dom_upd.
      * unfold h1. by rewrite (get_upd_proj _expanded) by done.
    + case_match.
      * rewrite get_upd_ne by done. unfold h1. by rewrite (get_upd_proj _expanded) by done.
      * unfold h1. by rewrite (get_upd_proj _expanded) by done.
Qed.

Lemma move_store_size i :
  data_size (get h' i) =
    data_size (get h i)
    - data_size (get h self) * on (p :: lp) i
    + data_size (get h self) * on (destination :: ld) i.
Proof.
  destruct Hml. unfold h', move_store.
  set (s := data_size (get h self)).
  set (h1 := upd destination _ h).
  set (h2 := if (length (_subtrees (get h1 p)) <? 2)%nat then _ else _).
  assert (dom h2 = dom h) as Hd2.
  { unfold h2, h1. case_match; by rewrite ?dom_upd. }
  set (h3 := upd p (set_subtrees rest) h2).
  assert (dom h3 = dom h) as Hd3 by (unfold h3; by rewrite dom_upd).
  assert (data_size (get h3 i) = data_size (get h i)) as H3.
  { unfold h3, h2, h1. rewrite (get_upd_proj data_size) by done.
    case_match.
    - rewrite (get_upd_proj data_size) by done.
      by rewrite (get_upd_proj data_size) by done.
    - by rewrite (get_upd_proj data_size) by done. }
  rewrite bump_all_size.
  - rewrite (get_upd_proj data_size) by done.
    rewrite (get_upd_proj data_size) by done.
    rewrite bump_all_size.
    + rewrite H3. lia.
    + done.
    + intros a Ha. rewrite Hd3. apply elem_of_cons in Ha as [->|Ha]; auto.
  - done.
  - intros a Ha. rewrite !dom_upd, dom_bump_all, Hd3.
    apply elem_of_cons in Ha as [->|Ha]; auto.
Qed.

End move_store.

Lemma is_chain_agree h h' x l :
  is_chain h x l →
  (∀ i, i ∈ x :: l → _parent_tree (get h' i) = _parent_tree (get h i)) →
  is_chain h' x l.
Proof.
  induction 1 as [x Hx|x p l Hx _ IH]; intros Hag.
  - apply chain_root. rewrite Hag; [done|set_solver].
  - apply chain_step; [rewrite Hag; [done|set_solver]|].
    apply IH. intros i Hi. apply Hag. set_solver.
Qed.

Lemma TMTree_move_eq h self destination p rest lp ld fuel :
  move_links h self destination p rest lp ld →
  TMTree_move fuel self destination h =
    if decide (length (p :: lp) < fuel ∧ length (destination :: ld) < fuel)%nat
    then relayout fuel (default destination (last ld))
                  (move_store h self destination p rest lp ld)
    else OutOfFuel.
Proof.
  intros Hml. pose proof Hml as [].
  unfold TMTree_move, move_store. rewrite decide_False by done.
  set (s := data_size (get h self)).
  set (h1 := upd destination _ h).
  assert (_parent_tree (get h1 self) = Some p) as ->.
  { unfold h1. by rewrite (get_upd_proj _parent_tree) by done. }
  set (h2 := if (length (_subtrees (get h1 p)) <? 2)%nat then _ else _).
  assert (dom h2 = dom h) as Hd2.
  { unfold h2, h1. case_match; by rewrite ?dom_upd. }
  assert (_subtrees (get h2 p) = _subtrees (get h p)) as ->.
  { unfold h2. case_match.
    - rewrite (get_upd_proj _subtrees) by done. unfold h1. by rewrite get_upd_ne.
    - unfold h1. by rewrite get_upd_ne. }
  rewrite ml_rest0.
  set (h3 := upd p (set_subtrees rest) h2).
  assert (dom h3 = dom h) as Hd3 by (unfold h3; by rewrite dom_upd).
  assert (∀ i, _parent_tree (get h3 i) = _parent_tree (get h i)) as Hp3.
  { intros i. unfold h3, h2, h1. rewrite (get_upd_proj _parent_tree) by done.
    case_match.
    - rewrite (get_upd_proj _parent_tree) by done.
      by rewrite (get_upd_proj _parent_tree) by done.
    - by rewrite (get_upd_proj _parent_tree) by done. }
  assert (∀ i, data_size (get h3 i) = data_size (get h i)) as Hz3.
  { intros i. unfold h3, h2, h1. rewrite (get_upd_proj data_size) by done.
    case_match.
    - rewrite (get_upd_proj data_size) by done.
      by rewrite (get_upd_proj data_size) by done.
    - by rewrite (get_upd_proj data_size) by done. }
  assert (is_chain h3 self (p :: lp)) as Hc3.
  { apply chain_step; [by rewrite Hp3|]. eapply is_chain_agree; [exact ml_lp0|].
    intros; apply Hp3. }
  destruct (decide (length (p :: lp) < fuel)%nat) as [Hf1|Hf1].
  - rewrite (walk_up_spec _ (- s) (p :: lp)); [|done| |done].
    2:{ intros hh Hsame Hsz. rewrite Hsz by set_solver. by rewrite Hz3. }
    set (h4 := bump_all (- s) (p :: lp) h3).
    set (h5 := upd self (set_parent_tree (Some destination)) h4).
    set (h6 := upd destination (set_expanded true) h5).
    assert (self ∈ dom h4) as Hs4 by (unfold h4; by rewrite dom_bump_all, Hd3).
    assert (∀ i, _parent_tree (get h6 i)
                 = if decide (i = self) then Some destination else _parent_tree (get h i))
      as Hp6.
    { intros i. unfold h6. rewrite (get_upd_proj _parent_tree) by done. unfold h5.
      destruct (decide (i = self)) as [->|His].
      - by rewrite get_upd_eq.
      - rewrite get_upd_ne by done. unfold h4. rewrite bump_all_proj by done. apply Hp3. }
    assert (data_size (get h6 self) = s) as Hz6.
    { unfold h6, h5. rewrite (get_upd_proj data_size) by done.
      rewrite (get_upd_proj data_size) by done. unfold h4.
      rewrite bump_all_size;
        [|done|intros a Ha; rewrite Hd3; apply elem_of_cons in Ha as [->|Ha]; auto].
      rewrite Hz3. unfold on. rewrite decide_False by set_solver. unfold s. lia. }
    assert (is_chain h6 self (destination :: ld)) as Hc6.
    { apply chain_step; [by rewrite Hp6, decide_True|].
      eapply is_chain_agree; [exact ml_ld0|].
      intros i Hi. rewrite Hp6. rewrite decide_False; [done|]. set_solver. }
    destruct (decide (length (destination :: ld) < fuel)%nat) as [Hf2|Hf2].
    + rewrite (walk_up_spec _ s (destination :: ld)); [|done| |done].
      2:{ intros hh Hsame Hsz. rewrite Hsz by set_solver. done. }
      rewrite decide_True by done. rewrite last_cons.
      by destruct (last ld).
    + rewrite (walk_up_short _ (destination :: ld)); [|done|lia].
      rewrite decide_False; [done|]. intros []. lia.
  - rewrite (walk_up_short _ (p :: lp)); [|done|lia].
    rewrite decide_False; [done|]. intros []. lia.
Qed.

(** The ancestors of a node of the displayed tree are expanded. *)
Lemma chain_expanded h x l a :
  wf h → is_chain h x l → displayed h x → a ∈ l → _expanded (get h a) = true.
Proof.
  intros Hwf. induction 1 as [x Hx|x p l Hx Hc IH]; intros Hd Ha; [set_solver|].
  pose proof (Hd p Hx) as Hpe.
  apply elem_of_cons in Ha as [->|Ha]; [done|].
  apply IH; [|done]. intros q Hq.
  pose proof (parent_in_dom _ _ _ Hq) as Hpd.
  by apply (loc_expanded _ _ (wf_local h p Hwf Hpd)).
Qed.

Lemma leaf_displayed h i :
  is_displayed_tree_leaf h i = true → displayed h i ∧ _expanded (get h i) = false.
Proof.
  unfold is_displayed_tree_leaf, displayed.
  destruct (_parent_tree (get h i)) as [p|].
  - intros [H1 H2%negb_true_iff]%andb_true_iff. split; [|done]. by intros ? [= <-].
  - intros H2%negb_true_iff. done.
Qed.

Lemma move_pre_links h self destination p :
  move_pre h self destination p →
  ∃ rest lp ld, move_links h self destination p rest lp ld ∧
                move_flags h self destination p lp ld.
Proof.
  intros []. pose proof (wf_linked _ mv_wf0) as Hl.
  pose proof (parent_in_dom _ _ _ mv_parent0) as Hself.
  destruct (Hl self Hself) as [H1 _]. destruct (H1 p mv_parent0) as [Hpd Hin].
  destruct (leaf_displayed _ _ mv_self_leaf0) as [Hds Hes].
  destruct (leaf_displayed _ _ mv_dest_leaf0) as [Hdd Hed].
  pose proof (Hds p mv_parent0) as Hpe.
  destruct (wf_chain h p mv_wf0 Hpd) as (lp & Hlp & Hndp & Hnsp & Hdomp).
  destruct (wf_chain h destination mv_wf0 mv_dest0) as (ld & Hld & Hndd & Hnsd & Hdomd).
  destruct (list_remove_elem self _ Hin) as [rest Hrest].
  assert (∀ a, a ∈ lp → _expanded (get h a) = true) as Hlpe.
  { intros a Ha. apply (chain_expanded h p lp a mv_wf0 Hlp); [|done].
    intros q Hq. by apply (loc_expanded _ _ (wf_local h p mv_wf0 Hpd)). }
  assert (∀ a, a ∈ ld → _expanded (get h a) = true) as Hlde
    by (intros a Ha; by apply (chain_expanded h destination ld a mv_wf0 Hld)).
  exists rest, lp, ld. split; split; try done.
  - intros ->. congruence.
  - intros ->. congruence.
  - intros Ha. apply Hlpe in Ha. congruence.
  - intros Ha. apply Hlde in Ha. congruence.
  - by apply NoDup_cons.
  - by apply NoDup_cons.
Qed.



Lemma on_notin l i : i ∉ l → on l i = 0.
Proof. intros. unfold on. by rewrite decide_False. Qed.

Lemma on_in l i : i ∈ l → on l i = 1.
Proof. intros. unfold on. by rewrite decide_True. Qed.

Lemma on_range l i : 0 ≤ on l i ≤ 1.
Proof. unfold on. case_decide; lia. Qed.

Section move_wf.
Context (h : heap) (self destination p : oid) (rest lp ld : list oid).
Hypothesis Hpre : move_pre h self destination p.
Hypothesis Hml : move_links h self destination p rest lp ld.
Hypothesis Hmf : move_flags h self destination p lp ld.

Let h' := move_store h self destination p rest lp ld.
Let s := data_size (get h self).

Lemma move_store_forest : forest h'.
Proof.
  destruct Hpre, Hml, Hmf.
  destruct (wf_forest _ mv_wf0) as [Hnd (rk & bound & Hrk)].
  pose proof (wf_linked _ mv_wf0) as Hl.
  destruct (list_remove_NoDup self _ rest (Hnd p ml_p0) ml_rest0)
    as (Hndr & Hnr & Hmem & _).
  split.
  - intros i Hi. unfold h'. rewrite (move_store_subtrees _ _ _ _ _ _ _ Hml).
    unfold h' in Hi. rewrite (move_store_dom _ _ _ _ _ _ _) in Hi.
    repeat case_decide; subst; [|done|by apply Hnd].
    apply NoDup_app. split; [by apply Hnd|]. split; [|apply NoDup_singleton].
    intros c Hc ->%list_elem_of_singleton.
    destruct (Hl destination ml_dest0) as [_ H2]. destruct (H2 _ Hc) as [_ Hp']. congruence.
  - exists (λ i, if decide (i ∈ destination :: ld) then (rk i + rk self + 1)%nat else rk i),
           (bound + rk self + 1)%nat.
    intros i Hi. unfold h' in Hi. rewrite (move_store_dom _ _ _ _ _ _ _) in Hi.
    destruct (Hrk i Hi) as [Hb Hlt]. split; [case_decide; lia|].
    intros q. unfold h'. rewrite (move_store_parent _ _ _ _ _ _ _ Hml).
    destruct (decide (i = self)) as [->|His].
    + intros [= <-]. rewrite decide_False by set_solver.
      rewrite decide_True by set_solver. lia.
    + intros Hq. specialize (Hlt q Hq). destruct (decide (i ∈ destination :: ld)) as [Hin|Hin].
      * rewrite decide_True; [lia|].
        apply elem_of_cons. right.
        by apply (chain_parent_closed h destination ld i q).
      * case_decide; lia.
Qed.

(** The nodes that are not on the two chains. *)
Lemma move_off_chains :
  self ∉ p :: lp ∧ self ∉ destination :: ld ∧
  destination ∉ p :: lp ∧ p ∉ lp ∧ destination ∉ ld.
Proof.
  destruct Hpre, Hml, Hmf.
  split; [set_solver|]. split; [set_solver|]. split; [|split].
  - intros [->|Ha]%elem_of_cons; [congruence|]. apply mf_lp0 in Ha. congruence.
  - by apply NoDup_cons in ml_nodup_lp0 as [].
  - by apply NoDup_cons in ml_nodup_ld0 as [].
Qed.



Lemma move_store_positive i :
  data_size (get h self) ≠ data_size (get h p) →
  i ∈ dom h → 0 < data_size (get h' i).
Proof.
  intros Hnz Hi. destruct Hpre. pose proof Hml as [].
  unfold h'. rewrite (move_store_size _ _ _ _ _ _ _ Hml). fold s.
  assert (0 < s) as Hs by apply (loc_size _ _ (wf_local h self mv_wf0 ml_self0)).
  pose proof (loc_size _ _ (wf_local h i mv_wf0 Hi)).
  pose proof (on_range (p :: lp) i). pose proof (on_range (destination :: ld) i).
  destruct (decide (i ∈ p :: lp)) as [Hin|Hin].
  - assert (data_size (get h p) ≤ data_size (get h i)).
    { apply elem_of_cons in Hin as [->|Hin]; [done|].
      by apply (chain_sizes_ge h p lp i). }
    pose proof (parent_size_ge h self p mv_wf0 ml_parent0) as Hge.
    fold s in Hge, Hnz. nia.
  - rewrite (on_notin (p :: lp)) by done. nia.
Qed.

Lemma move_store_linked : linked h'.
Proof.
  intros i Hi. unfold h' in Hi. rewrite move_store_dom in Hi.
  destruct Hpre. pose proof Hml as [].
  destruct (wf_forest _ mv_wf0) as [Hnd _].
  destruct (wf_linked _ mv_wf0 i Hi) as [Hpa Hch].
  destruct (list_remove_NoDup self _ rest (Hnd p ml_p0) ml_rest0)
    as (Hndr & Hnr & Hmem & Hsumr).
  pose proof (move_store_subtrees h self destination p rest lp ld Hml) as Hsub.
  pose proof (move_store_parent h self destination p rest lp ld Hml) as Hpar.
  pose proof (move_store_dom h self destination p rest lp ld) as Hdom.
  fold h' in Hsub, Hpar, Hdom.
  split.
  - intros q. rewrite Hpar, Hdom. case_decide as His.
    + intros [= <-]. subst i. split; [done|]. rewrite Hsub, decide_True by done. set_solver.
    + intros Hq. destruct (Hpa q Hq) as [Hqd Hin]. split; [done|].
      rewrite Hsub. repeat case_decide; subst; [set_solver| |done].
      apply Hmem in Hin as [->|Hin]; done.
  - intros c. rewrite Hsub, Hpar, Hdom. destruct (decide (i = destination)) as [->|Hid].
    + intros [Hc|Hc]%elem_of_app; [|apply list_elem_of_singleton in Hc as ->].
      * destruct (Hch c Hc) as [Hcd Hcp]. split; [done|].
        rewrite decide_False; [done|]. intros ->. congruence.
      * split; [done|]. by rewrite decide_True.
    + destruct (decide (i = p)) as [->|Hip].
      * intros Hc. destruct (Hch c) as [Hcd Hcp]; [apply Hmem; by right|].
        split; [done|]. rewrite decide_False; [done|]. by intros ->.
      * intros Hc. destruct (Hch c Hc) as [Hcd Hcp]. split; [done|].
        rewrite decide_False; [done|]. intros ->. congruence.
Qed.

Lemma move_store_layoutable :
  data_size (get h self) ≠ data_size (get h p) → layoutable h'.
Proof.
  intros Hnz. split; [apply move_store_linked|].
  intros i Hi. apply move_store_positive; [done|].
  unfold h' in Hi. by rewrite move_store_dom in Hi.
Qed.



End move_wf.

(** ** [expand_all] and [collapse_all] *)

Lemma collect_each_expands h0 body cs :
  (∀ c, c ∈ cs → expands h0 body c) →
  ∀ acc h, same_but_expanded h0 h →
    ∃ l h', collect_each body cs acc h = Ret (acc ++ l) h' ∧ length l = length cs ∧
      same_but_expanded h h' ∧
      (∀ m, _expanded (get h m) = true → _expanded (get h' m) = true) ∧
      (∀ m c, c ∈ cs → below h0 c m → _subtrees (get h0 m) ≠ [] →
              _expanded (get h' m) = true) ∧
      (∀ m, (∀ c, c ∈ cs → ¬ below h0 c m) → _expanded (get h' m) = _expanded (get h m)) ∧
      (∀ m, _expanded (get h' m) = true →
            _expanded (get h m) = true ∨ _subtrees (get h0 m) ≠ []).
Proof.
  induction cs as [|c cs IH]; intros Hb acc h Hs.
  - exists [], h. simpl. rewrite app_nil_r. split; [done|]. split; [done|].
    split; [apply same_but_expanded_refl|]. split; [done|]. split; [set_solver|].
    split; [done|]. by left.
  - destruct (Hb c ltac:(set_solver) h Hs) as (r & h2 & Hrun & Hs2 & Hm2 & Hc2 & Hf2 & Hw2).
    destruct (IH ltac:(set_solver) (acc ++ [r]) h2)
      as (l & h' & Hrun' & Hlen & Hs' & Hm' & Hc' & Hf' & Hw').
    { by eapply same_but_expanded_trans. }
    exists (r :: l), h'. simpl. rewrite Hrun. simpl. rewrite Hrun'.
    split; [by rewrite <- app_assoc|]. split; [by rewrite Hlen|].
    split; [by eapply same_but_expanded_trans|]. split; [auto|]. split; [|split].
    + intros m c0 [->|Hin]%elem_of_cons Hbel Hne.
      * apply Hm'. by apply Hc2.
      * by eapply Hc'.
    + intros m Hm. rewrite Hf', Hf2; [done| |]; intros; apply Hm; set_solver.
    + intros m Hm. destruct (Hw' m Hm) as [H|H]; [|by right]. by apply Hw2.
Qed.

Lemma expand_all_expands rk bound h0 fuel :
  linked h0 → ranked h0 rk bound →
  ∀ self, self ∈ dom h0 → (rk self < fuel)%nat → expands h0 (expand_all fuel) self.
Proof.
  intros Hl Hrk. induction fuel as [|fuel IH]; intros self Hself Hf h Hs; [lia|].
  pose proof Hs as (Hss & _).
  simpl. destruct (_subtrees (get h self)) as [|c0 cs0] eqn:Hsub.
  - exists self, h. split; [done|]. split; [apply same_but_expanded_refl|].
    split; [done|]. split; [|split; [done|by left]].
    intros m Hb Hne. rewrite (ss_subtrees _ _ Hss) in Hsub.
    destruct (decide (self = m)) as [->|Hsm]; [done|].
    destruct (below_child h0 self m Hl Hb Hsm) as (c & Hc & _).
    rewrite Hsub in Hc. set_solver.
  - set (h1 := upd self (set_expanded true) h).
    assert (same_but_expanded h h1) as Hs1 by apply same_but_expanded_set.
    assert (same_but_expanded h0 h1) as Hs01 by (by eapply same_but_expanded_trans).
    pose proof Hs01 as (Hss1 & _).
    rewrite (ss_subtrees _ _ Hss1).
    assert (_subtrees (get h0 self) ≠ []) as Hne0.
    { rewrite <- (ss_subtrees _ _ Hss), Hsub. done. }
    destruct (collect_each_expands h0 (expand_all fuel) (_subtrees (get h0 self)))
      with (acc := @nil oid) (h := h1)
      as (l & h' & Hrun & Hlen & Hs' & Hm' & Hc' & Hf' & Hw'); [|done|].
    { intros c Hc. destruct (Hl self Hself) as [_ H2]. destruct (H2 c Hc) as [Hcd Hp].
      destruct (Hrk c Hcd) as [_ Hlt]. specialize (Hlt _ Hp).
      apply IH; [done|lia]. }
    assert (_expanded (get h1 self) = true) as He1.
    { unfold h1. rewrite get_upd_eq; [done|].
      destruct Hss as [Hd _]. by rewrite Hd. }
    assert (∀ m, m ≠ self → _expanded (get h1 m) = _expanded (get h m)) as Ho1.
    { intros m Hm. unfold h1. by rewrite get_upd_ne. }
    rewrite Hrun. simpl.
    destruct (last l) as [t|] eqn:Hlast.
    2:{ apply last_None in Hlast. subst l. simpl in Hlen.
        destruct (_subtrees (get h0 self)); done. }
    exists t, h'. split; [done|]. split; [by eapply same_but_expanded_trans|].
    split; [|split; [|split]].
    + intros m Hm. apply Hm'.
      destruct (decide (m = self)) as [->|Hne]; [done|]. by rewrite Ho1.
    + intros m Hb Hne. destruct (decide (self = m)) as [<-|Hsm].
      * by apply Hm'.
      * destruct (below_child h0 self m Hl Hb Hsm) as (c & Hc & Hbc). by eapply Hc'.
    + intros m Hm. rewrite Hf'.
      * apply Ho1. intros ->. apply Hm. constructor.
      * intros c Hc Hbc. apply Hm. eapply below_trans; [|exact Hbc].
        apply below_parent. destruct (Hl self Hself) as [_ H2]. by apply H2.
    + intros m Hm. destruct (Hw' m Hm) as [H|H]; [|by right].
      destruct (decide (m = self)) as [->|Hne]; [by right|]. left. by rewrite <- Ho1.
Qed.




(** ** [move]: the store it leaves *)

Lemma TMTree_move_post h self destination p rest lp ld fuel h' :
  move_links h self destination p rest lp ld →
  final_heap (TMTree_move fuel self destination h) = Some h' →
  same_but_rect (move_store h self destination p rest lp ld) h'.
Proof.
  intros Hml Hrun. rewrite (TMTree_move_eq h self destination p rest lp ld) in Hrun by done.
  case_decide; [|done]. by eapply relayout_frame.
Qed.

Lemma TMTree_move_total h self destination p rest lp ld :
  move_pre h self destination p →
  move_links h self destination p rest lp ld →
  move_flags h self destination p lp ld →
  data_size (get h self) ≠ data_size (get h p) →
  is_Some (rect (get h (default destination (last ld)))) →
  ∃ fuel h', TMTree_move fuel self destination h = Ret tt h'.
Proof.
  intros Hpre Hml Hmf Hnz Hr.
  pose proof (move_store_layoutable h self destination p rest lp ld Hpre Hml Hmf Hnz) as Hlay.
  destruct (move_store_forest h self destination p rest lp ld Hpre Hml Hmf)
    as [_ (rk & bound & Hrk)].
  set (fuel := S (bound + length lp + length ld + 2)).
  assert (default destination (last ld) ∈ dom h) as Hroot.
  { destruct Hpre, Hml.
    eapply (below_dom h (wf_parents_closed _ mv_wf0)); [exact ml_dest0|].
    by apply last_chain_below. }
  destruct (relayout_total rk bound fuel (default destination (last ld))
              (move_store h self destination p rest lp ld)) as (h' & Hrun & _).
  - done.
  - done.
  - by rewrite move_store_dom.
  - by rewrite (move_store_proj h self destination p rest lp ld rect).
  - destruct (Hrk (default destination (last ld))) as [Hb _];
      [by rewrite move_store_dom|]. unfold fuel. lia.
  - exists fuel, h'. rewrite (TMTree_move_eq h self destination p rest lp ld) by done.
    rewrite decide_True; [done|]. unfold fuel. simpl. lia.
Qed.

(** Method resolution: a completed [move] is a completed [TMTree.move]. *)
Lemma move_Ret fuel self destination h h' :
  move fuel self destination h = Ret tt h' →
  TMTree_move fuel self destination h = Ret tt h'.
Proof.
  unfold move. destruct (cls (get h self)); try done; by case_match.
Qed.

Lemma chain_root_unique h x l a :
  is_chain h x l → a ∈ x :: l → _parent_tree (get h a) = None →
  a = default x (last l).
Proof.
  induction 1 as [x Hx|x p l Hx Hc IH]; intros Ha Hroot.
  - by apply list_elem_of_singleton in Ha.
  - apply elem_of_cons in Ha as [->|Ha]; [congruence|].
    rewrite last_cons. specialize (IH Ha Hroot). by destruct (last l).
Qed.

Lemma move_total h self destination p :
  move_pre h self destination p →
  cls (get h self) ≠ ChessMove →
  cls (get h self) = Generic ∨ cls (get h destination) ≠ File →
  data_size (get h self) ≠ data_size (get h p) →
  laid_out h destination →
  ∃ fuel h', move fuel self destination h = Ret tt h'.
Proof.
  intros Hpre Hchess Hfile Hnz (l & Hl & Hr).
  destruct (move_pre_links h self destination p Hpre) as (rest & lp & ld & Hml & Hmf).
  assert (ld = l) as -> by (destruct Hml; by eapply is_chain_inj).
  destruct (TMTree_move_total h self destination p rest lp l Hpre Hml Hmf Hnz Hr)
    as (fuel & h' & Hrun).
  exists fuel, h'. unfold move, is_FileTree.
  destruct (cls (get h self)) eqn:Hk; try done.
  - destruct Hfile as [?|Hfile]; [done|]. by rewrite bool_decide_eq_false_2.
  - destruct Hfile as [?|Hfile]; [done|]. by rewrite bool_decide_eq_false_2.
Qed.

Lemma move_Ret_store h self destination p fuel h' :
  move_pre h self destination p →
  move fuel self destination h = Ret tt h' →
  ∃ rest lp ld, move_links h self destination p rest lp ld ∧
                move_flags h self destination p lp ld ∧
                same_but_rect (move_store h self destination p rest lp ld) h'.
Proof.
  intros Hpre Hrun%move_Ret.
  destruct (move_pre_links h self destination p Hpre) as (rest & lp & ld & Hml & Hmf).
  exists rest, lp, ld. split; [done|]. split; [done|].
  eapply TMTree_move_post; [done|]. by rewrite Hrun.
Qed.

(** ** More budget, same result *)

Lemma for_each_mono (body body' : oid → heap → outcome unit) cs :
  (∀ c h h', body c h = Ret tt h' → body' c h = Ret tt h') →
  ∀ h h', for_each body cs h = Ret tt h' → for_each body' cs h = Ret tt h'.
Proof.
  intros Hb. induction cs as [|c cs IH]; intros h h' Hrun; [done|].
  simpl in *. destruct (body c h) as [[] h2|e h2|] eqn:E; try done.
  rewrite (Hb c h h2 E). simpl in *. by apply IH.
Qed.

Lemma unexpanded_mono f : ∀ f' self h h',
  (f ≤ f')%nat → _unexpanded f self h = Ret tt h' → _unexpanded f' self h = Ret tt h'.
Proof.
  induction f as [|f IH]; intros f' self h h' Hle Hrun; [done|].
  destruct f' as [|f']; [lia|]. simpl in *.
  destruct (_subtrees (get h self)); [done|].
  eapply for_each_mono; [|exact Hrun]. intros c h1 h2. apply IH. lia.
Qed.

Lemma collapse_mono f f' self h r h' :
  (f ≤ f')%nat → collapse f self h = Ret r h' → collapse f' self h = Ret r h'.
Proof.
  intros Hle. unfold collapse. destruct (_parent_tree (get h self)) as [p|]; [|done].
  destruct (for_each (_unexpanded f) _ _) as [[] h2|e h2|] eqn:E; try done.
  intros Hrun. rewrite (for_each_mono (_unexpanded f) (_unexpanded f') _ ) with (h' := h2);
    [done| |done].
  intros c h1 h3. by apply unexpanded_mono.
Qed.

Lemma collapse_wf f self h r h' :
  wf h → collapse f self h = Ret r h' → wf h'.
Proof.
  intros Hwf Hrun. destruct (_parent_tree (get h self)) as [p|] eqn:Hp.
  - destruct (wf_forest _ Hwf) as [_ (rk & bound & Hrk)].
    destruct (collapse_spec rk bound h (f + rk p) self p) as (h2 & Hrun2 & _ & Hwf2 & _);
      [done|done|done|lia|].
    rewrite (collapse_mono f (f + rk p) self h r h') in Hrun2; [|lia|done].
    by injection Hrun2 as _ <-.
  - unfold collapse in Hrun. rewrite Hp in Hrun. by injection Hrun as _ <-.
Qed.

(** ** The trees of the docstrings, laid out *)

(** The docstring's [s2.move(s1)] in the small tree. *)
Lemma small_tree_move_pre : move_pre small_tree_laid 2 1 3.
Proof.
  split; [apply small_tree_laid_wf|concrete|by vm_compute..].
Qed.

Lemma small_tree_laid_out i : i ∈ [1%nat; 2%nat] → laid_out small_tree_laid i.
Proof.
  intros Hi. exists [3%nat]. in_list Hi.
  - split; [|eexists; by vm_compute].
    apply chain_step; [by vm_compute|]. apply chain_root. by vm_compute.
  - split; [|eexists; by vm_compute].
    apply chain_step; [by vm_compute|]. apply chain_root. by vm_compute.
Qed.

Lemma mixed_tree_laid_wf : wf mixed_tree_laid.
Proof.
  assert (wf mixed_tree) as Hwf.
  { unfold mixed_tree, FileTree_init.
    repeat (apply TMTree_init_wf; [|solve_init_pre]). apply wf_empty. }
  unfold mixed_tree_laid.
  destruct (final_heap (update_rectangles 3 3 (0, 0, 100, 200) mixed_tree)) as [h'|] eqn:E;
    [|done].
  eapply same_but_rect_wf; [|done]. by eapply update_rectangles_frame.
Qed.

Lemma mixed_tree_move_pre : move_pre mixed_tree_laid 1 2 3.
Proof.
  split; [apply mixed_tree_laid_wf|concrete|by vm_compute..].
Qed.

Lemma mixed_tree_laid_out : laid_out mixed_tree_laid 2.
Proof.
  exists [3%nat]. split; [|eexists; by vm_compute].
  apply chain_step; [by vm_compute|]. apply chain_root. by vm_compute.
Qed.

Lemma small_tree_collapsed_wf : wf small_tree_collapsed.
Proof.
  unfold small_tree_collapsed.
  destruct (collapse 3 1 small_tree) as [r h'|e h'|] eqn:E; try (by vm_compute in E).
  simpl. eapply collapse_wf; [apply small_tree_wf|exact E].
Qed.

(** ** The operations keep the invariants *)






(** ** The docstring examples, run *)

(** [update_rectangles]: [t2.rect], [t1.rect], then [s1.rect], [s2.rect]
    and [t3.rect]. *)
Example update_rectangles_docstring :
  (∃ h', update_rectangles 2 2 (0, 0, 100, 200)
           (TMTree_init Generic 2 "A" [1%nat] 1 black false
              (TMTree_init Generic 1 "B" [] 5 black false ∅)) = Ret tt h' ∧
         rect (get h' 2) = Some (0, 0, 100, 200) ∧
         rect (get h' 1) = Some (0, 0, 100, 200)) ∧
  rect (get small_tree_laid 1) = Some (0, 0, 100, 50) ∧
  rect (get small_tree_laid 2) = Some (0, 50, 100, 150) ∧
  rect (get small_tree_laid 3) = Some (0, 0, 100, 200).
Proof. split; [eexists; split; [vm_compute; reflexivity|]|]; by vm_compute. Qed.

(** [get_rectangles]: [rectangles[0][0]] and [rectangles[1][0]]. *)
Example get_rectangles_docstring :
  get_rectangles 2 small_tree_laid 3
    = Some [(Some (0, 0, 100, 50), black); (Some (0, 50, 100, 150), black)].
Proof. by vm_compute. Qed.

(** [expand]: with [t3._expanded = False], [s1] is not a displayed leaf;
    [t3.expand() is s1], and then it is one. *)
Example expand_docstring :
  let h := upd 3 (set_expanded false) small_tree in
  is_displayed_tree_leaf h 1 = false ∧
  ∃ h', expand 3 h = Ret 1%nat h' ∧ is_displayed_tree_leaf h' 1 = true.
Proof. split; [by vm_compute|]. eexists. split; [reflexivity|by vm_compute]. Qed.

(** [collapse]: [d1.collapse() is d2]; [d1] is no displayed leaf any
    more, [d2] is one. *)
Example collapse_docstring :
  is_displayed_tree_leaf chain_tree 1 = true ∧
  is_displayed_tree_leaf chain_tree 2 = false ∧
  ∃ h', collapse 2 1 chain_tree = Ret 2%nat h' ∧
        is_displayed_tree_leaf h' 1 = false ∧
        is_displayed_tree_leaf h' 2 = true.
Proof.
  split; [by vm_compute|]. split; [by vm_compute|].
  eexists. split; [vm_compute; reflexivity|]. by vm_compute.
Qed.

(** [move]: after [s2.move(s1)], [s2.rect], [s1.data_size],
    [t3.data_size] and the two displayed-leaf tests. *)
Example move_docstring :
  ∃ h', move 3 2 1 small_tree_laid = Ret tt h' ∧
        rect (get h' 2) = Some (0, 0, 100, 200) ∧
        data_size (get h' 1) = 20 ∧
        data_size (get h' 3) = 21 ∧
        is_displayed_tree_leaf h' 1 = false ∧
        is_displayed_tree_leaf h' 2 = true.
Proof. eexists. split; [vm_compute; reflexivity|]. by vm_compute. Qed.

(** [change_size]: after [s2.change_size(-2/3)], [s2.data_size],
    [t3.data_size] and [s2.rect]. *)
Example change_size_docstring :
  ∃ h', change_size exact_mul 3 2 (-2 # 3) small_tree_laid = Ret tt h' ∧
        data_size (get h' 2) = 5 ∧
        data_size (get h' 3) = 11 ∧
        rect (get h' 2) = Some (0, 100, 100, 100).
Proof. eexists. split; [vm_compute; reflexivity|]. by vm_compute. Qed.

(** A move between two trees: [s2] of the small tree into a second,
    one-node tree [d = TMTree('D', [], 7)] (object 4) that has been laid
    out. The root [d] grows by 15 and the root [t3] shrinks by 15. *)
Example move_between_trees :
  let h0 := TMTree_init Generic 4 "D" [] 7 black false small_tree_laid in
  let h := default h0 (final_heap (update_rectangles 1 4 (0, 0, 10, 10) h0)) in
  ∃ h', move 3 2 4 h = Ret tt h' ∧
        data_size (get h 4) = 7 ∧ data_size (get h' 4) = 22 ∧
        data_size (get h 3) = 21 ∧ data_size (get h' 3) = 6 ∧
        _subtrees (get h' 4) = [2%nat] ∧ _subtrees (get h' 3) = [1%nat] ∧
        _expanded (get h' 3) = true ∧ _expanded (get h' 4) = true.
Proof. eexists. split; [vm_compute; reflexivity|]. by vm_compute. Qed.

(** ** [get_tree_at_position] *)

Lemma first_result_Some rec l t :
  first_result rec l = Value (Some t) →
  ∃ c, c ∈ l ∧ rec c = Value (Some t).
Proof.
  induction l as [|c l IH]; simpl; [done|].
  destruct (rec c) as [[t'|]| |] eqn:E; try done.
  - intros [= ->]. exists c. split; [left|done].
  - intros (c' & Hc' & Hr)%IH. exists c'. split; [by right|done].
Qed.



Lemma displayed_leaf h i :
  displayed h i → _expanded (get h i) = false → is_displayed_tree_leaf h i = true.
Proof.
  unfold displayed, is_displayed_tree_leaf. intros Hd He.
  destruct (_parent_tree (get h i)) as [p|]; [|by rewrite He].
  by rewrite (Hd p eq_refl), He.
Qed.

Lemma get_tree_at_position_sound h pos : ∀ fuel self t,
  linked h → displayed h self →
  get_tree_at_position fuel h self pos = Value (Some t) →
  below h self t ∧ is_displayed_tree_leaf h t = true ∧
  ∃ rt, rect (get h t) = Some rt ∧ within pos rt.
Proof.
  induction fuel as [|fuel IH]; intros self t Hl Hd; [done|]. simpl.
  destruct (rect (get h self)) as [[[[x y] w] ht]|] eqn:Hr; [|done].
  case_bool_decide as H1; [done|]. case_bool_decide as H2; [done|].
  destruct (_expanded (get h self)) eqn:He; simpl.
  - intros (c & Hc & Hrun)%first_result_Some.
    pose proof (subtree_in_dom _ _ _ Hc) as Hself.
    destruct (Hl self Hself) as [_ Hch]. destruct (Hch c Hc) as [Hcd Hcp].
    destruct (IH c t Hl) as (Hb & Ht & Hrt); [|done|].
    { intros q. rewrite Hcp. by intros [= <-]. }
    split; [|done]. eapply below_trans; [|exact Hb]. by apply below_parent.
  - intros [= <-]. split; [constructor|]. split; [by apply displayed_leaf|].
    exists (x, y, w, ht). split; [done|]. simpl. lia.
Qed.






Lemma chain_tree_collapsed_wf : wf chain_tree_collapsed.
Proof.
  unfold chain_tree_collapsed.
  destruct (collapse 2 1 chain_tree) as [r h'|e h'|] eqn:E; try (by vm_compute in E).
  simpl. eapply collapse_wf; [apply chain_tree_wf|exact E].
Qed.

(** ** What [expand_all] returns *)

Lemma rightmost_same h h' i r :
  (∀ i, _subtrees (get h' i) = _subtrees (get h i)) →
  rightmost h i r → rightmost h' i r.
Proof.
  intros Hs. induction 1 as [i Hi|i c r Hc _ IH].
  - apply rightmost_leaf. by rewrite Hs.
  - eapply rightmost_step; [|exact IH]. by rewrite Hs.
Qed.

Lemma rightmost_end h i r : rightmost h i r → _subtrees (get h r) = [].
Proof. by induction 1. Qed.

Lemma rightmost_below h i r : linked h → rightmost h i r → below h i r.
Proof.
  intros Hl. induction 1 as [i Hi|i c r Hc _ IH]; [constructor|].
  eapply below_trans; [|exact IH]. apply below_parent.
  assert (c ∈ _subtrees (get h i)) as Hin.
  { apply last_Some in Hc as (l' & ->). set_solver. }
  destruct (Hl i (subtree_in_dom _ _ _ Hin)) as [_ H2]. by apply H2.
Qed.

Lemma collect_each_run h0 body cs (P : oid → oid → Prop) :
  (∀ c h r h', c ∈ cs → same_but_expanded h0 h → body c h = Ret r h' →
               same_but_expanded h h' ∧ P c r) →
  ∀ acc h l h', same_but_expanded h0 h →
    collect_each body cs acc h = Ret l h' →
    same_but_expanded h h' ∧ ∃ rs, l = acc ++ rs ∧ Forall2 P cs rs.
Proof.
  induction cs as [|c cs IH]; intros Hb acc h l h' Hs Hrun.
  - simpl in Hrun. injection Hrun as <- <-. split; [apply same_but_expanded_refl|].
    exists []. by rewrite app_nil_r.
  - simpl in Hrun. destruct (body c h) as [r h2|e h2|] eqn:E; try done. simpl in Hrun.
    destruct (Hb c h r h2) as [Hs2 HP]; [by left|done|done|].
    destruct (IH ltac:(intros; eapply Hb; [by right|done..]) (acc ++ [r]) h2 l h')
      as (Hs' & rs & -> & Hall); [by eapply same_but_expanded_trans|done|].
    split; [by eapply same_but_expanded_trans|].
    exists (r :: rs). split; [by rewrite <- app_assoc|by constructor].
Qed.

Lemma Forall2_last {A B} (P : A → B → Prop) l k x y :
  Forall2 P l k → last l = Some x → last k = Some y → P x y.
Proof.
  induction 1 as [|a b l k Hab Hlk IH]; [done|].
  destruct Hlk as [|a' b' l k Hab' Hlk].
  - simpl. by intros [= <-] [= <-].
  - rewrite !last_cons_cons. apply IH.
Qed.

Lemma expand_all_run h0 fuel : ∀ self h r h',
  same_but_expanded h0 h →
  expand_all fuel self h = Ret r h' →
  same_but_expanded h h' ∧ rightmost h0 self r.
Proof.
  induction fuel as [|fuel IH]; intros self h r h' Hs Hrun; [done|].
  pose proof Hs as (Hss & _).
  simpl in Hrun. destruct (_subtrees (get h self)) as [|c0 cs0] eqn:Hsub.
  - injection Hrun as <- <-. split; [apply same_but_expanded_refl|].
    apply rightmost_leaf. by rewrite <- (ss_subtrees _ _ Hss).
  - set (h1 := upd self (set_expanded true) h) in *.
    assert (same_but_expanded h h1) as Hs1 by apply same_but_expanded_set.
    assert (same_but_expanded h0 h1) as Hs01 by (by eapply same_but_expanded_trans).
    pose proof Hs01 as (Hss1 & _).
    destruct (collect_each (expand_all fuel) (_subtrees (get h1 self)) [] h1)
      as [l h2|e h2|] eqn:E; try done.
    simpl in Hrun. destruct (last l) as [t|] eqn:Hlast; [|done].
    injection Hrun as <- <-.
    destruct (collect_each_run h0 (expand_all fuel) (_subtrees (get h1 self))
                (rightmost h0)) with (acc := @nil oid) (h := h1) (l := l) (h' := h2)
      as (Hs2 & rs & -> & Hall); [|done|done|].
    { intros c h3 r3 h4 _ Hs3 Hrun3. by apply IH. }
    split; [by eapply same_but_expanded_trans|].
    rewrite (ss_subtrees _ _ Hss1) in Hall. simpl in Hlast.
    destruct (last (_subtrees (get h0 self))) as [c|] eqn:Hc.
    + eapply rightmost_step; [done|]. by eapply Forall2_last.
    + apply last_None in Hc. rewrite Hc in Hall. inversion Hall; subst. done.
Qed.

(** ** What [collapse_all] leaves *)

Lemma descendant_snoc h a p m :
  descendant h a p → m ∈ _subtrees (get h p) → descendant h a m.
Proof.
  induction 1 as [i c Hc|i c p Hc _ IH]; intros Hm.
  - eapply desc_step; [done|]. by apply desc_child.
  - eapply desc_step; [done|]. by apply IH.
Qed.

Lemma below_descendant h a m :
  linked h → below h a m → a = m ∨ descendant h a m.
Proof.
  intros Hl. induction 1 as [|m p Hp _ IH]; [by left|]. right.
  destruct (Hl m (parent_in_dom _ _ _ Hp)) as [H1 _]. destruct (H1 p Hp) as [_ Hin].
  destruct IH as [->|IH]; [by apply desc_child|by eapply descendant_snoc].
Qed.

Lemma unexpanded_below h i m :
  wf h → i ∈ dom h → _expanded (get h i) = false → below h i m →
  _expanded (get h m) = false.
Proof.
  intros Hwf Hi He Hb.
  destruct (below_descendant h i m (wf_linked _ Hwf) Hb) as [<-|Hd]; [done|].
  by apply (inv_collapsed _ _ (proj2 Hwf i Hi) He).
Qed.

Lemma collapse_loop_all rk bound : ∀ l fuel curr h,
  wf h → ranked h rk bound → curr ∈ dom h → is_chain h curr l →
  (length l + bound < fuel)%nat →
  (∀ m, below h curr m → _expanded (get h m) = false) →
  ∃ h', collapse_loop fuel curr h = Ret (default curr (last l)) h' ∧
        same_but_expanded h h' ∧ wf h' ∧
        (∀ m, below h (default curr (last l)) m → _expanded (get h' m) = false) ∧
        (∀ m, ¬ below h (default curr (last l)) m →
              _expanded (get h' m) = _expanded (get h m)).
Proof.
  induction l as [|p l IH]; intros fuel curr h Hwf Hrk Hcurr Hc Hf Hun.
  - inversion Hc as [? Hp|]; subst. destruct fuel; [lia|]. simpl. rewrite Hp.
    exists h. split; [done|]. split; [apply same_but_expanded_refl|]. by split.
  - inversion Hc as [|? ? ? Hp Hc']; subst. destruct fuel; [simpl in Hf; lia|].
    simpl in Hf. simpl collapse_loop. rewrite Hp.
    pose proof (wf_parents_closed _ Hwf _ _ Hcurr Hp) as Hpd.
    destruct (Hrk p Hpd) as [Hb _].
    destruct (collapse_spec rk bound h (S fuel) curr p)
      as (h1 & -> & Hs1 & Hwf1 & Hin1 & Hout1); [done|done|done|lia|].
    simpl. pose proof Hs1 as (Hss1 & _).
    assert (default curr (last (p :: l)) = default p (last l)) as ->.
    { rewrite last_cons. by destruct (last l). }
    assert (is_chain h1 p l) as Hc1.
    { eapply is_chain_same_parents; [by apply same_structure_parents|done]. }
    destruct (IH fuel p h1) as (h' & Hrun & Hs' & Hwf' & Hin' & Hout'); [done| | |done|lia| |].
    + eapply ranked_same; [by apply ss_dom|by apply same_structure_parents|done].
    + by rewrite (ss_dom _ _ Hss1).
    + intros m Hm. apply Hin1. by apply (same_but_expanded_below h h1).
    + exists h'. split; [done|]. split; [by eapply same_but_expanded_trans|].
      split; [done|]. split.
      * intros m Hm. apply Hin'. by apply (same_but_expanded_below h h1).
      * intros m Hm. rewrite Hout'.
        -- apply Hout1. intros Hpm. apply Hm.
           eapply below_trans; [|exact Hpm]. by apply last_chain_below.
        -- intros Hm'. apply Hm. by apply (same_but_expanded_below h h1).
Qed.

(** ** The slices lie in the rectangle *)







(** ** Laying out a layout again *)




(** ** The layout after [move] and [change_size] *)


(** ** Objects as they are created *)

Lemma nested_dict_induction (P : nested_dict → Prop) :
  (∀ items, Forall (λ it, P it.2) items → P (NDict items)) → ∀ d, P d.
Proof.
  intros H. fix IH 1. intros [items]. apply H.
  induction items as [|[k sub] items IHi]; constructor; [apply IH|apply IHi].
Qed.

Lemma nested_tuple_induction (P : nested_tuple → Prop) :
  (∀ name size, P (NTuple name (inl size))) →
  (∀ name files, Forall P files → P (NTuple name (inr files))) →
  ∀ obj, P obj.
Proof.
  intros Hf Hd. fix IH 1. intros [name [size|files]]; [apply Hf|]. apply Hd.
  induction files as [|f files IHf]; constructor; [apply IH|apply IHf].
Qed.

(** What [TMTree.__init__] on new roots builds. *)
Lemma TMTree_init_built h k self name subtrees size col wtp next0 :
  wf h → self ∉ dom h → (next0 ≤ self)%nat →
  name ≠ EmptyString → 0 ≤ size → (subtrees = [] → 0 < size) →
  colour_ok col → (k = File → subtrees = []) → (k = Directory → size = 1) →
  NoDup subtrees →
  (∀ c, c ∈ subtrees →
        (next0 ≤ c)%nat ∧ c ∈ dom h ∧ _parent_tree (get h c) = None) →
  let h' := TMTree_init k self name subtrees size col wtp h in
  wf h' ∧
  (∀ i, i ∈ dom h' ↔ i ∈ dom h ∨ i = self) ∧
  (∀ i, (i < next0)%nat → get h' i = get h i) ∧
  get h' self = Node k None (size + sumZ (λ c, data_size (get h c)) subtrees) col name
                     subtrees None (negb (Nat.eqb (length subtrees) 0)) wtp ∧
  (∀ c, c ∈ subtrees → get h' c = set_parent_tree (Some self) (get h c)) ∧
  (∀ i, i ≠ self → i ∉ subtrees → get h' i = get h i).
Proof.
  intros Hwf Hself Hle Hname Hsize Hleaf Hcol Hfile Hdir Hnd Hsub h'.
  destruct (TMTree_init_spec h k self name subtrees size col wtp)
    as (Hd & Hs & Hch & Ho); [done|done|intros c Hc; by apply Hsub|].
  fold h' in Hd, Hs, Hch, Ho.
  split; [|split; [|split; [|done]]].
  - apply TMTree_init_wf; [done|]. split; try done.
    intros c Hc. destruct (Hsub c Hc) as (_ & ? & ?). done.
  - intros i. rewrite Hd. set_solver.
  - intros i Hi. apply Ho; [lia|]. intros Hc. destruct (Hsub i Hc) as (? & _). lia.
Qed.

Lemma ChessTree_loop_spec draw wtp items :
  Forall (λ it, chess_built draw it.2) items →
  Forall (λ it, it.1.1 ≠ EmptyString ∧ 0 ≤ it.1.2 ∧
                (it.2 = NDict [] → 0 < it.1.2) ∧ valid_dict it.2) items →
  ∀ subtrees next0 next h,
  wf h → fresh_from next h → (next0 ≤ next)%nat → NoDup subtrees →
  (∀ c, c ∈ subtrees →
        (next0 ≤ c < next)%nat ∧ c ∈ dom h ∧ _parent_tree (get h c) = None ∧
        _white_to_play (get h c) = negb wtp) →
  (∀ i, (next0 ≤ i < next)%nat → i ∈ dom h ∧ chess_object h i) →
  ∃ subtrees' next' h',
    ChessTree_loop (ChessTree_init draw) wtp items subtrees next h
      = (subtrees', next', h') ∧
    (next ≤ next')%nat ∧ wf h' ∧ fresh_from next' h' ∧
    (∀ i, i ∈ dom h' ↔ i ∈ dom h ∨ (next ≤ i < next')%nat) ∧
    (∀ i, (i < next)%nat → get h' i = get h i) ∧
    NoDup subtrees' ∧
    (∀ c, c ∈ subtrees' →
          (next0 ≤ c < next')%nat ∧ c ∈ dom h' ∧ _parent_tree (get h' c) = None ∧
          _white_to_play (get h' c) = negb wtp) ∧
    (∀ i, (next0 ≤ i < next')%nat → i ∈ dom h' ∧ chess_object h' i) ∧
    sumZ (λ c, data_size (get h' c)) subtrees'
      = sumZ (λ c, data_size (get h c)) subtrees
        + sumZ (λ it, it.1.2 + dict_total it.2) items ∧
    (subtrees' = [] ↔ subtrees = [] ∧ items = []).
Proof.
  induction items as [|[[move ended] sub] items IH];
    intros Hrec Hval subtrees next0 next h Hwf Hfr Hle Hnd Hsub Hobj.
  - exists subtrees, next, h. simpl. split; [done|]. split; [lia|]. split; [done|].
    split; [done|]. split; [intros i; split; [by left|intros [?|?]; [done|lia]]|].
    split; [done|]. split; [done|]. split; [done|]. split; [done|]. split; [lia|].
    naive_solver.
  - apply Forall_cons in Hrec as [Hrec1 Hrec]. apply Forall_cons in Hval as [Hval1 Hval].
    simpl in Hrec1, Hval1. destruct Hval1 as (Hmove & Hended & Hleaf & Hvsub).
    destruct (Hrec1 move (negb wtp) ended next h)
      as (next1 & h1 & Hrun & Hb & Hn & Hz & Hw & _ & Ho);
      [done..|].
    destruct Hb as [Hbs Hbwf Hbfr Hbdom Hbold Hbroot].
    simpl. rewrite Hrun.
    assert (∀ c, c ∈ subtrees → get h1 c = get h c) as Hkeep.
    { intros c Hc. apply Hbold. destruct (Hsub c Hc) as (? & _). lia. }
    destruct (IH Hrec Hval (subtrees ++ [next]) next0 next1 h1)
      as (subtrees' & next' & h' & Hrun' & Hle' & Hwf' & Hfr' & Hdom' & Hold' & Hnd' & Hsub'
          & Hobj' & Hsum' & Hnil'); [done|done|lia| | | |].
    + apply NoDup_app. split; [done|]. split; [|apply NoDup_singleton].
      intros c Hc ->%list_elem_of_singleton. destruct (Hsub next Hc) as (? & _). lia.
    + intros c [Hc|Hc]%elem_of_app; [|apply list_elem_of_singleton in Hc as ->].
      * destruct (Hsub c Hc) as (? & ? & ? & ?). rewrite (Hkeep c Hc).
        split; [lia|]. split; [apply Hbdom; by left|done].
      * split; [lia|]. split; [apply Hbdom; right; lia|done].
    + intros i Hi. destruct (decide (i < next)%nat) as [Hlt|Hge].
      * destruct (Hobj i ltac:(lia)) as [Hid [Hc Hp]].
        split; [apply Hbdom; by left|].
        unfold chess_object. rewrite (Hbold i Hlt). split; [done|].
        intros p Hpp. rewrite (Hp p Hpp). f_equal. f_equal. symmetry. apply Hbold.
        destruct (wf_linked _ Hwf i Hid) as [H1 _]. destruct (H1 p Hpp) as [Hpd _].
        by apply Hfr.
      * split; [apply Hbdom; right; lia|]. apply Ho. lia.
    + exists subtrees', next', h'. split; [done|]. split; [lia|]. split; [done|].
      split; [done|]. split.
      { intros i. rewrite Hdom', Hbdom. split; [|intros [?|?]].
        - intros [[?|?]|?]; [by left|right; lia|right; lia].
        - by left; left.
        - destruct (decide (i < next1)%nat); [left; right; lia|right; lia]. }
      split.
      { intros i Hi. rewrite Hold' by lia. by apply Hbold. }
      split; [done|]. split; [done|]. split; [done|]. split.
      { rewrite Hsum', sumZ_app. simpl. rewrite Hz.
        rewrite (sumZ_ext (λ c, data_size (get h1 c)) (λ c, data_size (get h c)) subtrees).
        - lia.
        - intros c Hc. by rewrite (Hkeep c Hc). }
      rewrite Hnil'. split; [intros [H _]; by destruct subtrees|by intros [_ ?]].
Qed.

Lemma ChessTree_init_spec draw :
  (∀ i, colour_ok (draw i)) → ∀ d, valid_dict d → chess_built draw d.
Proof.
  intros Hdraw d. induction d as [items IH] using nested_dict_induction.
  intros Hval last_move wtp n next h Hwf Hfr Hname Hn Hleaf.
  inversion Hval as [? Hitems]; subst.
  assert (Forall (λ it, chess_built draw it.2) items) as Hrec.
  { rewrite Forall_forall in IH, Hitems. apply Forall_forall. intros it Hit.
    apply IH; [done|]. by destruct (Hitems it Hit) as (_ & _ & _ & ?). }
  destruct (ChessTree_loop_spec draw wtp items Hrec Hitems [] (S next) (S next) h)
    as (subtrees & next' & h1 & Hrun & Hle & Hwf1 & Hfr1 & Hdom1 & Hold1 & Hnd & Hsub
        & Hobj & Hsum & Hnil); [done| |lia|constructor|set_solver|intros; lia|].
  { intros i Hi. specialize (Hfr i Hi). lia. }
  simpl. rewrite Hrun.
  assert (next ∉ dom h1) as Hself.
  { intros Hi. apply Hdom1 in Hi as [Hi|Hi]; [|lia]. specialize (Hfr next Hi). lia. }
  destruct (TMTree_init_built h1 ChessMove next last_move subtrees n (draw next) wtp next)
    as (Hwf' & Hdom' & Hold' & Hs' & Hch' & Ho'); [done|done|lia|done|done| |done|done|done|done| |].
  { intros ->. apply Hleaf. f_equal. by apply Hnil. }
  { intros c Hc. destruct (Hsub c Hc) as (? & ? & ? & _). split; [lia|done]. }
  set (h' := TMTree_init ChessMove next last_move subtrees n (draw next) wtp h1) in *.
  exists next', h'. split; [done|]. split; [|split; [|split; [|split; [|split]]]].
  - split.
    + lia.
    + done.
    + intros i Hi. apply Hdom' in Hi as [Hi| ->]; [by apply Hfr1|lia].
    + intros i. rewrite Hdom', Hdom1. split.
      * intros [[?|?]|?]; [by left|right; lia|right; lia].
      * intros [?|?]; [by left; left|].
        destruct (decide (i = next)); [by right|left; right; lia].
    + intros i Hi. rewrite Hold' by done. apply Hold1. lia.
    + by rewrite Hs'.
  - by rewrite Hs'.
  - rewrite Hs'. simpl. rewrite Hsum. simpl. lia.
  - by rewrite Hs'.
  - rewrite Hs'. simpl. rewrite Hnil. split; [by intros [_ ->]|by intros [= ->]].
  - intros i Hi. unfold chess_object.
    destruct (decide (i = next)) as [->|Hne]; [by rewrite Hs'|].
    destruct (Hobj i ltac:(lia)) as [Hid [Hc Hp]].
    assert (∀ p, p ∈ dom h1 → _white_to_play (get h' p) = _white_to_play (get h1 p)) as Hwtp.
    { intros p Hpd. assert (p ≠ next) as Hpn by (by intros ->).
      destruct (decide (p ∈ subtrees)) as [Hin|Hnin].
      - by rewrite (Hch' p Hin).
      - by rewrite (Ho' p Hpn Hnin). }
    destruct (decide (i ∈ subtrees)) as [Hin|Hnin].
    + rewrite (Hch' i Hin). simpl. split; [done|]. intros p [= <-].
      rewrite Hs'. simpl. by destruct (Hsub i Hin) as (_ & _ & _ & ?).
    + rewrite (Ho' i Hne Hnin). split; [done|]. intros p Hpp.
      rewrite (Hp p Hpp). f_equal. symmetry. apply Hwtp.
      destruct (wf_linked _ Hwf1 i Hid) as [H1 _]. by destruct (H1 p Hpp).
Qed.

Lemma docstring_dict_valid : valid_dict docstring_dict.
Proof.
  repeat (constructor; simpl; repeat split; try done; try lia).
Qed.

Lemma fresh_from_empty next : fresh_from next ∅.
Proof. intros i Hi. set_solver. Qed.

Lemma black_ok i : colour_ok ((λ _ : oid, black) i).
Proof. vm_compute. intuition discriminate. Qed.

Lemma dir_tree_loop_spec draw name files :
  (∀ i, colour_ok (draw i)) → name ≠ EmptyString →
  Forall (λ f, ∀ fname fs, f = NTuple fname (inr fs) → dir_built draw f) files →
  Forall valid_tuple files →
  ∀ subtree next0 next h,
  wf h → fresh_from next h → (next0 ≤ next)%nat → NoDup subtree →
  (∀ c, c ∈ subtree →
        (next0 ≤ c < next)%nat ∧ c ∈ dom h ∧ _parent_tree (get h c) = None) →
  ∃ next' h',
    dir_tree_loop (dir_tree_from_nested_tuple draw) draw name files subtree next h
      = Ret (pred next', next') h' ∧
    (next < next')%nat ∧ wf h' ∧ fresh_from next' h' ∧
    (∀ i, i ∈ dom h' ↔ i ∈ dom h ∨ (next ≤ i < next')%nat) ∧
    (∀ i, (i < next0)%nat → get h' i = get h i) ∧
    _parent_tree (get h' (pred next')) = None ∧
    cls (get h' (pred next')) = Directory ∧
    data_size (get h' (pred next'))
      = 1 + sumZ (λ c, data_size (get h c)) subtree + sumZ tuple_size files.
Proof.
  intros Hdraw Hname.
  induction files as [|f files IH];
    intros Hrec Hval subtree next0 next h Hwf Hfr Hle Hnd Hsub.
  - simpl. unfold DirectoryTree_init.
    assert (next ∉ dom h) as Hself.
    { intros Hi. specialize (Hfr next Hi). lia. }
    destruct (TMTree_init_built h Directory next name subtree 1 (draw next) false next0)
      as (Hwf' & Hdom' & Hold' & Hs' & Hch' & Ho');
      [done|done|lia|done|lia|lia|done|done|done|done| |].
    { intros c Hc. destruct (Hsub c Hc) as (? & ? & ?). split; [lia|done]. }
    eexists (S next), _. split; [done|]. split; [lia|]. split; [done|]. split.
    { intros i Hi. apply Hdom' in Hi as [Hi| ->]; [|lia]. specialize (Hfr i Hi). lia. }
    split.
    { intros i. rewrite Hdom'. split; (intros [?|?]; [by left|right; lia]). }
    split; [done|]. simpl. rewrite Hs'. simpl. split; [done|]. split; [done|]. lia.
  - apply Forall_cons in Hrec as [Hrec1 Hrec]. apply Forall_cons in Hval as [Hval1 Hval].
    assert (∃ c next1 h1,
              (∀ k : oid * oid → heap → outcome (oid * oid),
                 match f with
                 | NTuple fname (inl size) =>
                     k (next, S next) (FileTree_init next fname size (draw next) h)
                 | NTuple _ (inr _) =>
                     bind (dir_tree_from_nested_tuple draw f next h) k
                 end = k (c, next1) h1) ∧
              built h next c next1 h1 ∧ data_size (get h1 c) = tuple_size f)
      as (c & next1 & h1 & Hstep & Hb & Hsz).
    { destruct f as [fname [size|fs]].
      - inversion Hval1 as [? ? Hfn Hsize|]; subst.
        assert (next ∉ dom h) as Hself.
        { intros Hi. specialize (Hfr next Hi). lia. }
        destruct (TMTree_init_built h File next fname [] size (draw next) false next)
          as (Hwf' & Hdom' & Hold' & Hs' & Hch' & Ho');
          [done|done|lia|done|lia|done|done|done|done|constructor|set_solver|].
        exists next, (S next), (FileTree_init next fname size (draw next) h).
        split; [done|]. unfold FileTree_init. split.
        + split; [lia|done| | |done|by rewrite Hs'].
          * intros i Hi. apply Hdom' in Hi as [Hi| ->]; [|lia]. specialize (Hfr i Hi). lia.
          * intros i. rewrite Hdom'. split; (intros [?|?]; [by left|right; lia]).
        + rewrite Hs'. simpl. lia.
      - destruct (Hrec1 fname fs eq_refl next h Hwf Hfr)
          as (c & next1 & h1 & Hrun & Hb & _ & Hsz).
        exists c, next1, h1. split; [|done]. intros k. by rewrite Hrun. }
    destruct Hb as [Hbs Hbwf Hbfr Hbdom Hbold Hbroot].
    assert (∀ c', c' ∈ subtree → get h1 c' = get h c') as Hkeep.
    { intros c' Hc'. apply Hbold. destruct (Hsub c' Hc') as (? & _). lia. }
    destruct (IH Hrec Hval (subtree ++ [c]) next0 next1 h1)
      as (next' & h' & Hrun' & Hlt' & Hwf' & Hfr' & Hdom' & Hold' & Hroot' & Hcls' & Hsz');
      [done|done|lia| | |].
    + apply NoDup_app. split; [done|]. split; [|apply NoDup_singleton].
      intros c' Hc' ->%list_elem_of_singleton. destruct (Hsub c Hc') as (? & _). lia.
    + intros c' [Hc'|Hc']%elem_of_app; [|apply list_elem_of_singleton in Hc' as ->].
      * destruct (Hsub c' Hc') as (? & ? & ?). rewrite (Hkeep c' Hc').
        split; [lia|]. split; [apply Hbdom; by left|done].
      * split; [lia|]. split; [apply Hbdom; right; lia|done].
    + exists next', h'. split.
      { simpl. destruct f as [fname [size|fs]].
        - specialize (Hstep (λ r h1, dir_tree_loop (dir_tree_from_nested_tuple draw) draw name
                                       files (subtree ++ [r.1]) r.2 h1)).
          simpl in Hstep. rewrite Hstep. exact Hrun'.
        - specialize (Hstep (λ r h1, dir_tree_loop (dir_tree_from_nested_tuple draw) draw name
                                       files (subtree ++ [r.1]) r.2 h1)).
          rewrite Hstep. exact Hrun'. }
      split; [lia|]. split; [done|]. split; [done|]. split.
      { intros i. rewrite Hdom', Hbdom. split; [|intros [?|?]].
        - intros [[?|?]|?]; [by left|right; lia|right; lia].
        - by left; left.
        - destruct (decide (i < next1)%nat); [left; right; lia|right; lia]. }
      split.
      { intros i Hi. rewrite Hold' by lia. apply Hbold. lia. }
      split; [done|]. split; [done|].
      rewrite Hsz', sumZ_app. simpl. rewrite Hsz.
      rewrite (sumZ_ext (λ c, data_size (get h1 c)) (λ c, data_size (get h c)) subtree).
      * lia.
      * intros c' Hc'. by rewrite (Hkeep c' Hc').
Qed.

Lemma dir_tree_from_nested_tuple_spec draw :
  (∀ i, colour_ok (draw i)) →
  ∀ obj, valid_tuple obj → ∀ name files, obj = NTuple name (inr files) →
  dir_built draw obj.
Proof.
  intros Hdraw obj.
  induction obj as [name size|name files IH] using nested_tuple_induction;
    intros Hval name' files' [= <- <-] next h Hwf Hfr.
  inversion Hval as [|? ? Hname Hfiles]; subst.
  assert (∃ next' h',
            dir_tree_from_nested_tuple draw (NTuple name (inr files)) next h
              = Ret (pred next', next') h' ∧
            (next < next')%nat ∧ wf h' ∧ fresh_from next' h' ∧
            (∀ i, i ∈ dom h' ↔ i ∈ dom h ∨ (next ≤ i < next')%nat) ∧
            (∀ i, (i < next)%nat → get h' i = get h i) ∧
            _parent_tree (get h' (pred next')) = None ∧
            cls (get h' (pred next')) = Directory ∧
            data_size (get h' (pred next'))
              = 1 + sumZ (λ c, data_size (get h c)) [] + sumZ tuple_size files)
    as (next' & h' & Hrun & Hlt & Hwf' & Hfr' & Hdom' & Hold' & Hroot' & Hcls' & Hsz').
  { destruct files as [|f fs].
    - apply (dir_tree_loop_spec draw name [] Hdraw Hname) with (next0 := next);
        [done|done|done|done|lia|constructor|set_solver].
    - apply (dir_tree_loop_spec draw name (f :: fs) Hdraw Hname) with (next0 := next);
        [|done|done|done|lia|constructor|set_solver].
      rewrite Forall_forall in IH, Hfiles. apply Forall_forall.
      intros g Hg fname fs' ->. eapply IH; [done|by apply Hfiles|done]. }
  exists (pred next'), next', h'. split; [done|]. split.
  - split; [lia|done|done|done|done|done].
  - split; [done|]. rewrite Hsz'. simpl. lia.
Qed.

Lemma docstring_tuple_valid : valid_tuple docstring_tuple.
Proof.
  unfold docstring_tuple.
  repeat (first [ apply valid_directory; [done|]
                | apply valid_file; [done|lia]
                | apply List.Forall_cons
                | apply List.Forall_nil ]).
Qed.

(** ** Grouping by the first move *)

Lemma dict_set_nil {B} (k : string) (ks : list string) :
  dict_set k (@nil B) ((λ m, (m, [])) <$> ks)
  = (λ m, (m, [])) <$> (if decide (k ∈ ks) then ks else ks ++ [k]).
Proof.
  induction ks as [|m ks IH].
  { destruct (decide (k ∈ [])) as [Hin|_]; [set_solver|done]. }
  cbn [fmap list_fmap dict_set].
  destruct (decide (k = m)) as [->|Hne].
  - by rewrite decide_True by set_solver.
  - rewrite IH. destruct (decide (k ∈ ks)) as [Hin|Hnin].
    + by rewrite decide_True by set_solver.
    + by rewrite decide_False by set_solver.
Qed.

Lemma first_loop_keys (moves : list (list string)) : ∀ ks0,
  NoDup ks0 →
  ∃ ks, foldl (λ d lst, match lst with
                        | [] => d
                        | m :: _ => dict_set m (@nil (list string)) d
                        end) ((λ m, (m, [])) <$> ks0) moves
        = (λ m, (m, [])) <$> ks ∧
        NoDup ks ∧
        ∀ m, m ∈ ks ↔ m ∈ ks0 ∨ ∃ g, m :: g ∈ moves.
Proof.
  induction moves as [|lst moves IH]; intros ks0 Hnd.
  - exists ks0. split; [done|]. split; [done|]. set_solver.
  - simpl. destruct lst as [|m g].
    + destruct (IH ks0 Hnd) as (ks & Hrun & Hnd' & Hks). exists ks.
      split; [done|]. split; [done|]. intros m. rewrite Hks. split.
      * intros [?|(g & Hg)]; [by left|right; exists g; by right].
      * intros [?|(g & Hg)]; [by left|right; exists g].
        by apply elem_of_cons in Hg as [?|?].
    + rewrite dict_set_nil.
      destruct (IH (if decide (m ∈ ks0) then ks0 else ks0 ++ [m])) as (ks & Hrun & Hnd' & Hks).
      { case_decide; [done|]. apply NoDup_app. split; [done|].
        split; [|apply NoDup_singleton]. set_solver. }
      exists ks. split; [done|]. split; [done|]. intros m'. rewrite Hks. split.
      * intros [Hin|(g' & Hg')].
        -- case_decide; [by left|].
           apply elem_of_app in Hin as [?|Hin]; [by left|].
           apply list_elem_of_singleton in Hin as ->.
           right. exists g. left.
        -- right. exists g'. by right.
      * intros [Hin|(g' & Hg')].
        -- left. case_decide; [done|set_solver].
        -- apply elem_of_cons in Hg' as [Hg'|Hg']; [injection Hg' as -> ->|].
           ++ left. case_decide; [done|set_solver].
           ++ right. by exists g'.
Qed.

Lemma dict_alter_map {B} (f : B → B) (k : string) (ks : list string) (F : string → B) :
  NoDup ks →
  dict_alter f k ((λ m, (m, F m)) <$> ks)
  = (λ m, (m, if decide (m = k) then f (F m) else F m)) <$> ks.
Proof.
  induction 1 as [|m ks Hm Hnd IH]; [done|].
  cbn [fmap list_fmap dict_alter].
  destruct (decide (k = m)) as [->|Hne].
  - rewrite decide_True by done. f_equal. apply list_fmap_ext.
    intros i m' Hm'. rewrite decide_False; [done|]. intros ->.
    apply Hm. by eapply list_elem_of_lookup_2.
  - rewrite decide_False by done. by rewrite IH.
Qed.

Lemma second_loop_tails (ks : list string) (moves : list (list string)) :
  NoDup ks → ∀ F : string → list (list string),
  foldl (λ d lst, match lst with
                  | [] => d
                  | m :: rest => dict_alter (λ v, v ++ [rest]) m d
                  end) ((λ m, (m, F m)) <$> ks) moves
  = (λ m, (m, F m ++ tails_of m moves)) <$> ks.
Proof.
  intros Hnd. induction moves as [|lst moves IH]; intros F.
  - simpl. apply list_fmap_ext. intros i m _. by rewrite app_nil_r.
  - simpl. destruct lst as [|m' rest].
    + rewrite IH. done.
    + rewrite dict_alter_map by done. rewrite IH.
      apply list_fmap_ext. intros i m _. unfold tails_of. simpl.
      destruct (decide (m = m')) as [->|Hne].
      * rewrite decide_True by done. simpl. by rewrite <- app_assoc.
      * by rewrite decide_False by done.
Qed.

Lemma group_by_first_spec moves :
  ∃ ks, group_by_first moves = (λ m, (m, tails_of m moves)) <$> ks ∧
        NoDup ks ∧ ∀ m, m ∈ ks ↔ ∃ g, m :: g ∈ moves.
Proof.
  destruct (first_loop_keys moves [] (NoDup_nil_2)) as (ks & Hrun & Hnd & Hks).
  exists ks. split; [|split; [done|]].
  - unfold group_by_first. simpl in Hrun. rewrite Hrun.
    by rewrite (second_loop_tails ks moves Hnd (λ _, [])).
  - intros m. rewrite Hks. set_solver.
Qed.

Lemma elem_of_tails_of m g moves : g ∈ tails_of m moves ↔ m :: g ∈ moves.
Proof.
  unfold tails_of. rewrite list_elem_of_omap. split.
  - intros ([|m' rest] & Hin & Heq); [done|]. case_decide; [|done]. by simplify_eq.
  - intros Hin. exists (m :: g). split; [done|]. by rewrite decide_True.
Qed.

(** ** The dictionary of [moves_to_nested_dict] *)

Lemma foldl_pointwise {A B} (f g : A → B → A) (l : list B) :
  (∀ a b, f a b = g a b) → ∀ a, foldl f a l = foldl g a l.
Proof.
  intros Hfg. induction l as [|b l IH]; intros a; simpl; [done|].
  by rewrite Hfg, IH.
Qed.

Lemma moves_to_nested_dict_eq fuel moves :
  moves_to_nested_dict (S fuel) moves =
    match moves with
    | [] => Some (NDict [])
    | [] :: _ => Some (NDict [])
    | [[m]] => Some (NDict [((m, 1), NDict [])])
    | _ => foldl (nested_step (moves_to_nested_dict fuel)) (Some (NDict []))
                 (group_by_first moves)
    end.
Proof.
  assert (∀ l a,
            foldl (λ nested_d '(move, games),
                     match nested_d, moves_to_nested_dict fuel games with
                     | Some (NDict items), Some sub =>
                         Some (NDict (dict_set (move, count_empty games) sub items))
                     | _, _ => None
                     end) a l
            = foldl (nested_step (moves_to_nested_dict fuel)) a l) as Hfold.
  { intros l a. apply foldl_pointwise. by intros ? []. }
  destruct moves as [|[|m [|m' g]] [|lst rest]]; simpl; try done; apply Hfold.
Qed.

Lemma nested_fold_None rec d : foldl (nested_step rec) None d = None.
Proof. induction d as [|g d IH]; simpl; [done|]. exact IH. Qed.

Lemma dict_set_notin {K V} `{EqDecision K} (k : K) (v : V) (d : list (K * V)) :
  k ∉ d.*1 → dict_set k v d = d ++ [(k, v)].
Proof.
  induction d as [|[k' v'] d IH]; intros Hk; simpl; [done|].
  rewrite decide_False by set_solver. f_equal. apply IH. set_solver.
Qed.

Lemma nested_fold_items rec d : ∀ items0 items,
  foldl (nested_step rec) (Some (NDict items0)) d = Some (NDict items) →
  NoDup d.*1 → (∀ m, m ∈ d.*1 → m ∉ items0.*1.*1) →
  items.*1.*1 = items0.*1.*1 ++ d.*1 ∧
  ∀ P : (string * Z) * nested_dict → Prop,
    Forall P items0 →
    (∀ group sub, group ∈ d → rec group.2 = Some sub →
                  P ((group.1, count_empty group.2), sub)) →
    Forall P items.
Proof.
  induction d as [|[m games] d IH]; intros items0 items Hrun Hnd Hnew.
  - simpl in Hrun. injection Hrun as <-. split; [by rewrite app_nil_r|done].
  - simpl in Hrun.
    destruct (rec games) as [sub|] eqn:Hsub; [|by rewrite nested_fold_None in Hrun].
    rewrite dict_set_notin in Hrun.
    2:{ intros Hin. apply (Hnew m); [set_solver|].
        apply list_elem_of_fmap. exists (m, count_empty games). by split. }
    apply NoDup_cons in Hnd as [Hm Hnd].
    destruct (IH _ _ Hrun Hnd) as [Hkeys Hall].
    { intros m' Hm'. rewrite !fmap_app. simpl. intros [Hin|Hin]%elem_of_app.
      - apply (Hnew m'); [set_solver|done].
      - apply list_elem_of_singleton in Hin as ->. done. }
    split.
    + rewrite Hkeys, !fmap_app. simpl. by rewrite <- app_assoc.
    + intros P HP0 HP. apply Hall.
      * apply Forall_app. split; [done|]. constructor; [|done].
        apply (HP (m, games) sub); [left|done].
      * intros group sub' Hg. apply HP. by right.
Qed.

Lemma nested_fold_total rec d : ∀ items0,
  (∀ group, group ∈ d → ∃ sub, rec group.2 = Some sub) →
  ∃ items, foldl (nested_step rec) (Some (NDict items0)) d = Some (NDict items).
Proof.
  induction d as [|[m games] d IH]; intros items0 Hall; [by eexists|].
  simpl.
  destruct (Hall (m, games)) as (sub & Hsub); [left|]. simpl in Hsub. rewrite Hsub.
  apply IH. intros group Hg. apply Hall. by right.
Qed.

(** The empty dictionary is returned for no sequence and for an empty
    first sequence only. *)
Lemma moves_to_nested_dict_empty fuel moves :
  moves_to_nested_dict fuel moves = Some (NDict []) →
  moves = [] ∨ ∃ rest, moves = [] :: rest.
Proof.
  destruct fuel as [|fuel]; [done|]. rewrite moves_to_nested_dict_eq.
  destruct moves as [|[|m g] rest]; [by left|right; by eexists|].
  intros Hrun. exfalso.
  assert (foldl (nested_step (moves_to_nested_dict fuel)) (Some (NDict []))
                (group_by_first ((m :: g) :: rest)) = Some (NDict [])) as Hfold.
  { destruct g as [|m' g]; destruct rest as [|lst rest]; done. }
  destruct (group_by_first_spec ((m :: g) :: rest)) as (ks & Hg & Hnd & Hks).
  rewrite Hg in Hfold.
  destruct (nested_fold_items _ _ _ _ Hfold) as [Hkeys _].
  - rewrite <- list_fmap_compose. by rewrite list_fmap_id.
  - set_solver.
  - simpl in Hkeys. rewrite <- list_fmap_compose, list_fmap_id in Hkeys.
    assert (m ∈ ks) as Hm by (apply Hks; exists g; left).
    rewrite <- Hkeys in Hm. set_solver.
Qed.

Lemma count_empty_nonneg games : 0 ≤ count_empty games.
Proof. unfold count_empty. lia. Qed.

Lemma count_empty_head rest : 0 < count_empty ([] :: rest).
Proof.
  unfold count_empty. rewrite filter_cons_True by done. simpl. lia.
Qed.

Lemma moves_to_nested_dict_total : ∀ fuel moves,
  (∀ g, g ∈ moves → (length g ≤ fuel)%nat) →
  ∃ d, moves_to_nested_dict (S fuel) moves = Some d.
Proof.
  induction fuel as [|fuel IH]; intros moves Hlen; rewrite moves_to_nested_dict_eq.
  - destruct moves as [|[|m g] rest]; [by eexists..|].
    specialize (Hlen (m :: g) ltac:(left)). simpl in Hlen. lia.
  - assert (∃ d, foldl (nested_step (moves_to_nested_dict (S fuel))) (Some (NDict []))
                       (group_by_first moves) = Some d) as Hfold.
    { destruct (nested_fold_total (moves_to_nested_dict (S fuel)) (group_by_first moves) [])
        as (items & ->); [|by eexists].
      destruct (group_by_first_spec moves) as (ks & -> & _ & _).
      intros group (m & -> & Hm)%list_elem_of_fmap. simpl. apply IH.
      intros g Hg%elem_of_tails_of. specialize (Hlen _ Hg). simpl in Hlen. lia. }
    destruct moves as [|[|m [|m' g]] [|lst rest]]; try done; by eexists.
Qed.

Lemma Forall_and_inv {A} (P Q : A → Prop) l :
  Forall (λ x, P x ∧ Q x) l → Forall P l ∧ Forall Q l.
Proof. intros H. split; eapply Forall_impl; try exact H; by intros ? []. Qed.

Lemma moves_to_nested_dict_valid : ∀ fuel moves d,
  moves_to_nested_dict fuel moves = Some d →
  branching d ∧
  ((∀ g m, g ∈ moves → m ∈ g → m ≠ EmptyString) → valid_dict d).
Proof.
  induction fuel as [|fuel IH]; intros moves d; [done|].
  rewrite moves_to_nested_dict_eq.
  assert (valid_dict (NDict []) ∧ branching (NDict [])) as Hnil.
  { split; constructor; try constructor. }
  assert (foldl (nested_step (moves_to_nested_dict fuel)) (Some (NDict []))
                (group_by_first moves) = Some d →
          branching d ∧
          ((∀ g m, g ∈ moves → m ∈ g → m ≠ EmptyString) → valid_dict d)) as Hgeneral.
  { destruct (group_by_first_spec moves) as (ks & -> & Hnd & Hks).
    destruct d as [items]. intros Hfold.
    assert (((λ m, (m, tails_of m moves)) <$> ks).*1 = ks) as Hfst.
    { rewrite <- list_fmap_compose. apply list_fmap_id. }
    destruct (nested_fold_items _ _ _ _ Hfold) as [Hkeys Hall].
    { by rewrite Hfst. }
    { set_solver. }
    rewrite Hfst in Hkeys. simpl in Hkeys.
    specialize (Hall (λ it, branching it.2 ∧
                            ((∀ g m, g ∈ moves → m ∈ g → m ≠ EmptyString) →
                             it.1.1 ≠ EmptyString ∧ 0 ≤ it.1.2 ∧
                             (it.2 = NDict [] → 0 < it.1.2) ∧ valid_dict it.2))).
    specialize (Hall ltac:(constructor)).
    assert (∀ group sub,
              group ∈ (λ m, (m, tails_of m moves)) <$> ks →
              moves_to_nested_dict fuel group.2 = Some sub →
              branching sub ∧
              ((∀ g m, g ∈ moves → m ∈ g → m ≠ EmptyString) →
               group.1 ≠ EmptyString ∧ 0 ≤ count_empty group.2 ∧
               (sub = NDict [] → 0 < count_empty group.2) ∧ valid_dict sub)) as Hgroup.
    { intros group sub (m & -> & Hm)%list_elem_of_fmap Hsub. simpl in *.
      apply Hks in Hm as (g & Hg).
      destruct (IH (tails_of m moves) sub Hsub) as [Hb Hv].
      split; [done|]. intros Htok.
      split; [apply (Htok (m :: g)); [done|left]|].
      split; [apply count_empty_nonneg|]. split.
      - intros ->. apply moves_to_nested_dict_empty in Hsub as [Hnil'|(rest & Hrest)].
        + apply elem_of_tails_of in Hg. rewrite Hnil' in Hg. set_solver.
        + rewrite Hrest. apply count_empty_head.
      - apply Hv. intros g' m' Hg'%elem_of_tails_of Hm'.
        apply (Htok (m :: g')); [done|by right]. }
    destruct (Forall_and_inv _ _ _ (Hall Hgroup)) as [H1 H2].
    split; [constructor; [by rewrite Hkeys|done]|].
    intros Htok. constructor. eapply Forall_impl; [exact H2|].
    intros it Hit. by apply Hit. }
  destruct moves as [|[|m [|m' g]] [|lst rest]]; try done;
    try (intros [= <-]; split; [apply Hnil|intros _; apply Hnil]).
  intros [= <-]. split.
  - constructor; [apply NoDup_singleton|]. constructor; [apply Hnil|done].
  - intros Htok. constructor. constructor; [|done]. simpl.
    split; [|split; [lia|split; [lia|]]].
    + apply (Htok [m]); left.
    + apply Hnil.
Qed.

Lemma length_le_concat {A} (g : list A) (moves : list (list A)) :
  g ∈ moves → (length g ≤ length (concat moves))%nat.
Proof.
  induction moves as [|g' moves IH]; intros Hg; [set_solver|].
  simpl. rewrite length_app.
  apply elem_of_cons in Hg as [->|Hg]; [lia|]. specialize (IH Hg). lia.
Qed.

Lemma moves_to_nested_dict_single : ∀ game fuel,
  (length game ≤ fuel)%nat →
  moves_to_nested_dict (S fuel) [game] = Some (game_dict game).
Proof.
  induction game as [|m [|m' g] IH]; intros fuel Hlen; [done|done|].
  rewrite moves_to_nested_dict_eq.
  destruct fuel as [|fuel]; [simpl in Hlen; lia|].
  assert (group_by_first [m :: m' :: g] = [(m, [m' :: g])]) as ->.
  { unfold group_by_first. simpl. by rewrite decide_True. }
  cbn [foldl]. unfold nested_step. cbn [fst snd].
  rewrite IH by (simpl in *; lia).
  done.
Qed.

Lemma docstring_games_tokens g m :
  g ∈ docstring_games → m ∈ g → m ≠ EmptyString.
Proof.
  unfold docstring_games. intros Hg Hm. in_list Hg; by in_list Hm.
Qed.

(** ** The rectangles of [get_rectangles] *)





(** ** The path string *)

Lemma path_loop_chain h separator x l :
  is_chain h x l → ∀ fuel path_string, (length l < fuel)%nat →
  path_loop fuel h separator (_parent_tree (get h x)) path_string
  = Some (foldr (λ a s, _name (get h a) +:+ separator +:+ s) path_string (rev l)).
Proof.
  induction 1 as [x Hx|x p l Hx Hc IH]; intros fuel path_string Hf.
  - destruct fuel; [lia|]. simpl. by rewrite Hx.
  - destruct fuel; [simpl in Hf; lia|]. simpl. rewrite Hx.
    rewrite IH by (simpl in Hf; lia). by rewrite foldr_app.
Qed.

(** ** More docstring examples, run *)

(** [get_tree_at_position]: [t3.get_tree_at_position((0, 0)) is s1],
    [t3.get_tree_at_position((100, 100)) is s2], and a position outside
    the rectangle. *)
Example get_tree_at_position_docstring :
  get_tree_at_position 2 small_tree_laid 3 (0, 0) = Value (Some 1%nat) ∧
  get_tree_at_position 2 small_tree_laid 3 (100, 100) = Value (Some 2%nat) ∧
  get_tree_at_position 2 small_tree_laid 3 (500, 500) = Value None.
Proof. by vm_compute. Qed.

(** [get_path_string]: [d3.get_path_string()] and
    [d1.get_path_string()]. *)
Example get_path_string_docstring :
  let h := TMTree_init Generic 3 "C" [2%nat] 1 black false chain_tree in
  get_path_string "/" 1 h 3 = Some "C(7) None" ∧
  get_path_string "/" 3 h 1 = Some "C | C2 | C1(5) None".
Proof. by vm_compute. Qed.

(** [ChessTree.__init__] and [ChessTree.get_suffix]: [ct] is object 0,
    the move [e2e4] object 1 and the move [e7e5] object 2. *)
Example ChessTree_docstring :
  ∃ h, ChessTree_init (λ _, black) docstring_dict "-" true 0 0 ∅ = (0%nat, 3%nat, h) ∧
       is_displayed_tree_leaf h 0 = false ∧
       data_size (get h 0) = 1 ∧
       rect (get h 0) = None ∧
       get_suffix h 0 = " (white to play)" ∧
       get_suffix h 1 = " (black to play)" ∧
       get_suffix h 2 = " (end)".
Proof. eexists. split; [vm_compute; reflexivity|]. by vm_compute. Qed.

(** [dir_tree_from_nested_tuple]: [report.pdf] is object 0, [data.xlsx]
    object 1, [documents] object 2, [images] object 5, [empty_dir] object
    7 and [my_dir] object 8. *)
Example DirectoryTree_docstring :
  ∃ h, dir_tree_from_nested_tuple (λ _, black) docstring_tuple 0 ∅ = Ret (8%nat, 9%nat) h ∧
       data_size (get h 8) = 47 ∧
       _subtrees (get h 8) = [2%nat; 5%nat; 6%nat; 7%nat] ∧
       cls (get h 2) = Directory ∧
       cls (get h 1) = File ∧
       data_size (get h 2) = 24 ∧
       data_size (get h 5) = 7 ∧
       get_path_string "/" 2 h 2 = Some "./documents (directory)" ∧
       get_path_string "/" 3 h 1 = Some "./documents/data.xlsx (file)" ∧
       ∃ h1, update_rectangles 4 8 (0, 0, 200, 400) h = Ret tt h1 ∧
             move 4 1 0 h1 = Raise OperationNotSupportedError h1 ∧
             ∃ h2, move 4 1 7 h1 = Ret tt h2 ∧
                   get_path_string "/" 3 h2 1 = Some "./empty_dir/data.xlsx (file)".
Proof.
  eexists. split; [vm_compute; reflexivity|].
  do 8 (split; [by vm_compute|]).
  eexists. split; [vm_compute; reflexivity|]. split; [by vm_compute|].
  eexists. split; [vm_compute; reflexivity|]. by vm_compute.
Qed.

(** [example_tree]: the root [a] is object 11, with the rectangle of the
    call; the position [(10, 10)] lies in [j], object 1. *)
Example example_tree_run :
  ∃ h, example_tree (λ _, black) = Ret 11%nat h ∧
       rect (get h 11) = Some (0, 0, 55, 30) ∧
       data_size (get h 11) = 60 ∧
       get_tree_at_position 4 h 11 (10, 10) = Value (Some 1%nat).
Proof. eexists. split; [vm_compute; reflexivity|]. by vm_compute. Qed.

(** * The properties of the specification *)

(** ** Every operation keeps the invariants *)



(** ** The layout *)




(** ** Moving: the expansion flag of the old parent *)

(** C3, amended. Under the preconditions of [move], a completed
    [self.move(destination)] has cleared the [_expanded] flag of the old
    parent [p] exactly when [p] had fewer than 2 subtrees before the
    removal, that is, when [self] was its only subtree; a parent that had
    exactly two subtrees keeps its flag set. On a node that is not a
    [ChessTree], with a destination that is not a [FileTree], in a
    laid-out tree, the call completes. *)
Theorem move_unexpands_parent_of_only_child h self destination p :
  move_pre h self destination p →
  (∀ fuel h', move fuel self destination h = Ret tt h' →
     (_expanded (get h' p) = false ↔ length (_subtrees (get h p)) = 1%nat) ∧
     (length (_subtrees (get h p)) = 2%nat → _expanded (get h' p) = true)) ∧
  (cls (get h self) ≠ ChessMove → cls (get h destination) ≠ File →
   data_size (get h self) ≠ data_size (get h p) → laid_out h destination →
   ∃ fuel h', move fuel self destination h = Ret tt h').
Proof.
  intros Hpre. split.
  - intros fuel h' Hrun.
    destruct (move_Ret_store h self destination p fuel h' Hpre Hrun)
      as (rest & lp & ld & Hml & Hmf & (_ & _ & He)).
    rewrite He, (move_store_expanded h self destination p rest lp ld Hml).
    pose proof Hml as []. destruct Hmf.
    rewrite decide_False by done. rewrite decide_True by done.
    assert (self ∈ _subtrees (get h p)) as Hin.
    { destruct (list_remove_Some _ _ _ ml_rest0) as (l1 & l2 & -> & _). set_solver. }
    destruct (_subtrees (get h p)) as [|a [|b l]]; [set_solver|by simpl|].
    simpl. rewrite mf_p0. split; [split; [done|intros [=]]|done].
  - intros Hchess Hfile Hnz Hlaid. apply (move_total h self destination p); auto.
Qed.

Lemma move_unexpands_parent_witness :
  move_pre small_tree_laid 2 1 3 ∧
  (∀ fuel h', move fuel 2 1 small_tree_laid = Ret tt h' →
     (_expanded (get h' 3) = false ↔ length (_subtrees (get small_tree_laid 3)) = 1%nat) ∧
     (length (_subtrees (get small_tree_laid 3)) = 2%nat → _expanded (get h' 3) = true)) ∧
  (cls (get small_tree_laid 2) ≠ ChessMove → cls (get small_tree_laid 1) ≠ File →
   data_size (get small_tree_laid 2) ≠ data_size (get small_tree_laid 3) →
   laid_out small_tree_laid 1 →
   ∃ fuel h', move fuel 2 1 small_tree_laid = Ret tt h').
Proof.
  split; [apply small_tree_move_pre|].
  apply (move_unexpands_parent_of_only_child small_tree_laid 2 1 3 small_tree_move_pre).
Defined.

(** C3 as stated fails: [t3] has exactly the two subtrees [s1] and [s2];
    after [s2.move(s1)] its [_expanded] flag is still set, as the
    docstring of [move] shows with [t3.get_tree_at_position((0, 0)) is
    s2]. *)
Lemma move_keeps_parent_of_two_expanded :
  ¬ (∀ h self destination p fuel h',
       move_pre h self destination p →
       move fuel self destination h = Ret tt h' →
       length (_subtrees (get h p)) = 2%nat →
       _expanded (get h' p) = false).
Proof.
  intros H.
  destruct (move 3 2 1 small_tree_laid) as [[] h'|e h'|] eqn:E; try (by vm_compute in E).
  specialize (H small_tree_laid 2%nat 1%nat 3%nat 3%nat h' small_tree_move_pre E eq_refl).
  revert E H. vm_compute. intros [= <-]. done.
Qed.

(** ** Move-sequence ingestion *)

(** The docstring examples: the code and the specification agree. *)
Example moves_to_nested_dict_docstring :
  moves_to_nested_dict 4 [["a"; "b"; "c"]; ["a"; "b"]; ["d"; "e"]; ["d"; "e"]]
    = Some (NDict [(("a", 0), NDict [(("b", 1), NDict [(("c", 1), NDict [])])]);
                   (("d", 0), NDict [(("e", 2), NDict [])])]) ∧
  ingest 4 [["a"; "b"; "c"]; ["a"; "b"]; ["d"; "e"]; ["d"; "e"]]
    = moves_to_nested_dict 4 [["a"; "b"; "c"]; ["a"; "b"]; ["d"; "e"]; ["d"; "e"]] ∧
  moves_to_nested_dict 2 [["a"]; []] = Some (NDict [(("a", 1), NDict [])]) ∧
  moves_to_nested_dict 1 [[]] = Some (NDict []) ∧
  moves_to_nested_dict 1 [] = Some (NDict []).
Proof. repeat split; reflexivity. Qed.

(** C4 fails on the code. [moves_to_nested_dict] returns the empty
    dictionary as soon as the first sequence of the collection is empty,
    so the sequences after an empty first one are lost; this happens at
    the top ([[[], ['a']]]) and in the recursion, where a game that is a
    prefix of a later game leaves an empty remainder in front
    ([[['a'], ['a', 'b']]]: the game [a b] is lost). The docstring says
    that empty lists are ignored. *)
Theorem moves_to_nested_dict_drops_games :
  moves_to_nested_dict 3 [["a"]; ["a"; "b"]] = Some (NDict [(("a", 1), NDict [])]) ∧
  ingest 3 [["a"]; ["a"; "b"]]
    = Some (NDict [(("a", 1), NDict [(("b", 1), NDict [])])]) ∧
  moves_to_nested_dict 2 [[]; ["a"]] = Some (NDict []) ∧
  ingest 2 [[]; ["a"]] = Some (NDict [(("a", 1), NDict [])]) ∧
  (∀ fuel, moves_to_nested_dict (S fuel) [["a"]; ["a"; "b"]]
           ≠ Some (NDict [(("a", 1), NDict [(("b", 1), NDict [])])])).
Proof.
  repeat split; try reflexivity.
  intros [|[|fuel]]; by vm_compute.
Qed.

(** ** Moving: conservation of size *)

(** C5. Under the preconditions of [move], with [lp] the ancestors of the
    old parent [p] and [ld] those of [destination]: after a completed
    [self.move(destination)], when the two roots differ the root of the
    tree of [destination] has grown by [self.data_size] and the root of
    the tree of [p] has shrunk by it; every common ancestor of
    [destination] and [p], the shared root included, has the size it had.
    On a node that is not a [ChessTree], with a destination that is not a
    [FileTree], in a laid-out tree, the call completes. *)
Theorem move_conserves_size h self destination p lp ld :
  move_pre h self destination p → is_chain h p lp → is_chain h destination ld →
  (∀ fuel h', move fuel self destination h = Ret tt h' →
     let root_p := default p (last lp) in
     let root_d := default destination (last ld) in
     (root_p ≠ root_d →
        data_size (get h' root_d) = data_size (get h root_d) + data_size (get h self) ∧
        data_size (get h' root_p) = data_size (get h root_p) - data_size (get h self)) ∧
     (∀ a, a ∈ p :: lp → a ∈ destination :: ld →
           data_size (get h' a) = data_size (get h a)) ∧
     (root_p = root_d → data_size (get h' root_d) = data_size (get h root_d)) ∧
     data_size (get h' self) = data_size (get h self)) ∧
  (cls (get h self) ≠ ChessMove → cls (get h destination) ≠ File →
   data_size (get h self) ≠ data_size (get h p) → laid_out h destination →
   ∃ fuel h', move fuel self destination h = Ret tt h').
Proof.
  intros Hpre Hlp Hld. split.
  - intros fuel h' Hrun root_p root_d.
    destruct (move_Ret_store h self destination p fuel h' Hpre Hrun)
      as (rest & lp' & ld' & Hml & Hmf & (_ & Hz & _)).
    assert (lp' = lp) as -> by (destruct Hml; by eapply is_chain_inj).
    assert (ld' = ld) as -> by (destruct Hml; by eapply is_chain_inj).
    pose proof (move_store_size h self destination p rest lp ld Hml) as Hsz.
    destruct (move_off_chains h self destination p rest lp ld Hpre Hml Hmf)
      as (Hs1 & Hs2 & _).
    assert (root_p ∈ p :: lp) as Hrp.
    { apply (below_chain h _ _ _ Hlp). by apply last_chain_below. }
    assert (root_d ∈ destination :: ld) as Hrd.
    { apply (below_chain h _ _ _ Hld). by apply last_chain_below. }
    assert (∀ a, a ∈ p :: lp → a ∈ destination :: ld →
                 data_size (get h' a) = data_size (get h a)) as Hcommon.
    { intros a Ha Hb. rewrite Hz, Hsz, !on_in by done. lia. }
    split; [|split; [done|split]].
    + intros Hne. split.
      * rewrite Hz, Hsz. rewrite (on_in (destination :: ld)) by done.
        rewrite on_notin; [lia|]. intros Hin. apply Hne. symmetry.
        apply (chain_root_unique h p lp root_d Hlp Hin). by apply last_chain_root.
      * rewrite Hz, Hsz. rewrite (on_in (p :: lp)) by done.
        rewrite on_notin; [lia|]. intros Hin. apply Hne.
        apply (chain_root_unique h destination ld root_p Hld Hin). by apply last_chain_root.
    + intros Heq. apply Hcommon; [by rewrite <- Heq|done].
    + rewrite Hz, Hsz, !on_notin by done. lia.
  - intros Hchess Hfile Hnz Hlaid. apply (move_total h self destination p); auto.
Qed.

Lemma move_conserves_size_witness :
  move_pre small_tree_laid 2 1 3 ∧ is_chain small_tree_laid 3 [] ∧
  is_chain small_tree_laid 1 [3%nat] ∧
  (∀ fuel h', move fuel 2 1 small_tree_laid = Ret tt h' →
     let root_p := default 3%nat (last []) in
     let root_d := default 1%nat (last [3%nat]) in
     (root_p ≠ root_d →
        data_size (get h' root_d)
          = data_size (get small_tree_laid root_d) + data_size (get small_tree_laid 2) ∧
        data_size (get h' root_p)
          = data_size (get small_tree_laid root_p) - data_size (get small_tree_laid 2)) ∧
     (∀ a, a ∈ [3%nat] → a ∈ [1%nat; 3%nat] →
           data_size (get h' a) = data_size (get small_tree_laid a)) ∧
     (root_p = root_d →
        data_size (get h' root_d) = data_size (get small_tree_laid root_d)) ∧
     data_size (get h' 2) = data_size (get small_tree_laid 2)) ∧
  (cls (get small_tree_laid 2) ≠ ChessMove → cls (get small_tree_laid 1) ≠ File →
   data_size (get small_tree_laid 2) ≠ data_size (get small_tree_laid 3) →
   laid_out small_tree_laid 1 →
   ∃ fuel h', move fuel 2 1 small_tree_laid = Ret tt h').
Proof.
  assert (is_chain small_tree_laid 3 []) as H3 by (apply chain_root; by vm_compute).
  assert (is_chain small_tree_laid 1 [3%nat]) as H1
    by (apply chain_step; [by vm_compute|done]).
  split; [apply small_tree_move_pre|]. split; [done|]. split; [done|].
  apply (move_conserves_size small_tree_laid 2 1 3 [] [3%nat] small_tree_move_pre H3 H1).
Defined.

(** ** Resizing *)



(** ** Unsupported operations *)

(** C7, amended. [change_size] on a [DirectoryTree] or a [ChessTree]
    raises [OperationNotSupportedError]; so does [move] on a [ChessTree],
    whatever the destination, and [move] of a [FileTree], a
    [DirectoryTree] or a [ChessTree] into a [FileTree]. In each case the
    store at the [raise] is the store of the call: nothing has been
    written. *)
Theorem unsupported_operations_raise_unchanged
    (float_mul : Q → Z → Q) (fuel : nat) (h : heap) (self destination : oid)
    (factor : Q) :
  (cls (get h self) = Directory ∨ cls (get h self) = ChessMove →
   change_size float_mul fuel self factor h = Raise OperationNotSupportedError h) ∧
  (cls (get h self) = ChessMove →
   move fuel self destination h = Raise OperationNotSupportedError h) ∧
  (cls (get h self) ≠ Generic → cls (get h destination) = File →
   move fuel self destination h = Raise OperationNotSupportedError h).
Proof.
  unfold change_size, move, is_FileTree. split; [|split].
  - by intros [-> | ->].
  - by intros ->.
  - intros Hk Hd. rewrite bool_decide_eq_true_2 by done.
    by destruct (cls (get h self)).
Qed.

(** C7 as stated fails: a [TMTree] node moved into a [FileTree] raises
    nothing. *)
Lemma move_into_file_does_not_always_raise :
  ¬ (∀ fuel h self destination,
       self ∈ dom h → destination ∈ dom h → cls (get h destination) = File →
       ∃ h', move fuel self destination h = Raise OperationNotSupportedError h').
Proof.
  intros H.
  destruct (H 3%nat mixed_tree_laid 1%nat 2%nat) as (h' & Hrun);
    [concrete|concrete|by vm_compute|].
  by vm_compute in Hrun.
Qed.

(** ** Expand/collapse duality *)

(** C8. For a displayed leaf [n] with parent [p] in a tree that satisfies
    the invariants, [n.collapse()] returns [p], leaves [p] and its whole
    subtree unexpanded, and a following [p.expand()] sets [p._expanded]
    again while [n._expanded] stays false: [n] is a displayed leaf
    again. *)
Theorem collapse_then_expand_restores_leaf h n p :
  wf h → is_displayed_tree_leaf h n = true → _parent_tree (get h n) = Some p →
  ∃ fuel h1 r h2,
    collapse fuel n h = Ret p h1 ∧
    _expanded (get h1 p) = false ∧
    (∀ m, descendant h1 p m → _expanded (get h1 m) = false) ∧
    expand p h1 = Ret r h2 ∧
    _expanded (get h2 p) = true ∧
    _expanded (get h2 n) = false ∧
    is_displayed_tree_leaf h2 n = true.
Proof.
  intros Hwf Hleaf Hp.
  destruct (wf_forest _ Hwf) as [_ (rk & bound & Hrk)].
  pose proof (wf_linked _ Hwf) as Hl.
  pose proof (parent_in_dom _ _ _ Hp) as Hn.
  destruct (Hl n Hn) as [H1 _]. destruct (H1 p Hp) as [Hpd Hin].
  destruct (Hrk n Hn) as [_ Hlt]. specialize (Hlt p Hp).
  unfold is_displayed_tree_leaf in Hleaf. rewrite Hp in Hleaf.
  apply andb_true_iff in Hleaf as [Hpe Hne]. apply negb_true_iff in Hne.
  destruct (collapse_spec rk bound h (rk p) n p) as (h1 & Hrun & Hs1 & Hwf1 & Hbel & Hout);
    [done..|].
  pose proof Hs1 as (Hss1 & _).
  assert (p ∈ dom h1) as Hpd1 by (by rewrite (ss_dom _ _ Hss1)).
  assert (displayed h1 p) as Hdisp.
  { intros q. rewrite (ss_parent _ _ Hss1). intros Hq.
    rewrite Hout; [by apply (loc_expanded _ _ (wf_local h p Hwf Hpd))|].
    intros Hb. destruct (Hrk p Hpd) as [_ Hlt']. specialize (Hlt' q Hq).
    pose proof (below_rank h rk bound Hrk (wf_parents_closed _ Hwf) p q
                  (proj1 (proj1 (Hl p Hpd) q Hq)) Hb). lia. }
  destruct (expand_spec h1 p Hwf1 Hpd1 Hdisp) as (r & h2 & Hrun2 & Hs2 & Hwf2 & He2 & Ho2).
  pose proof Hs2 as (Hss2 & _).
  assert (n ≠ p) as Hnp by (intros ->; lia).
  exists (rk p), h1, r, h2. split; [done|]. split; [apply Hbel; constructor|].
  split; [|split; [done|]].
  { intros m Hd. apply Hbel. rewrite (same_but_expanded_below h h1) by done.
    apply descendant_below; [by apply wf_linked|done]. }
  assert (_expanded (get h2 p) = true) as Hp2.
  { apply He2. rewrite (ss_subtrees _ _ Hss1). intros Hnil. rewrite Hnil in Hin. set_solver. }
  assert (_expanded (get h2 n) = false) as Hn2.
  { rewrite Ho2 by done. apply Hbel. by apply below_parent. }
  split; [done|]. split; [done|].
  unfold is_displayed_tree_leaf.
  rewrite (ss_parent _ _ Hss2), (ss_parent _ _ Hss1), Hp, Hp2, Hn2. done.
Qed.

(** The docstring's [d1], [d2]: [d1.collapse()], then [d2.expand()]. *)
Lemma collapse_then_expand_witness :
  wf chain_tree ∧ is_displayed_tree_leaf chain_tree 1 = true ∧
  _parent_tree (get chain_tree 1) = Some 2%nat ∧
  ∃ fuel h1 r h2,
    collapse fuel 1 chain_tree = Ret 2%nat h1 ∧
    _expanded (get h1 2) = false ∧
    (∀ m, descendant h1 2 m → _expanded (get h1 m) = false) ∧
    expand 2 h1 = Ret r h2 ∧
    _expanded (get h2 2) = true ∧
    _expanded (get h2 1) = false ∧
    is_displayed_tree_leaf h2 1 = true.
Proof.
  assert (is_displayed_tree_leaf chain_tree 1 = true) as Hleaf by (by vm_compute).
  assert (_parent_tree (get chain_tree 1) = Some 2%nat) as Hp by (by vm_compute).
  split; [apply chain_tree_wf|]. split; [done|]. split; [done|].
  apply (collapse_then_expand_restores_leaf chain_tree 1 2 chain_tree_wf Hleaf Hp).
Defined.

(** ** Moving into a file *)

(** C9. [TMTree.move] does not look at the class of the destination:
    under the other preconditions of [move], a [TMTree] node [self]
    moved into a displayed leaf [destination] that is a [FileTree] raises
    nothing and ends up as the last subtree of [destination]. *)
Theorem generic_move_into_file_succeeds h self destination p :
  move_pre h self destination p →
  cls (get h self) = Generic → cls (get h destination) = File →
  data_size (get h self) ≠ data_size (get h p) → laid_out h destination →
  ∃ fuel h', move fuel self destination h = Ret tt h' ∧
             _subtrees (get h' destination) = _subtrees (get h destination) ++ [self] ∧
             last (_subtrees (get h' destination)) = Some self.
Proof.
  intros Hpre Hgen Hfile Hnz Hlaid.
  destruct (move_total h self destination p Hpre) as (fuel & h' & Hrun);
    [by rewrite Hgen|by left|done|done|].
  destruct (move_Ret_store h self destination p fuel h' Hpre Hrun)
    as (rest & lp & ld & Hml & Hmf & (Hss & _ & _)).
  exists fuel, h'. split; [done|].
  assert (_subtrees (get h' destination) = _subtrees (get h destination) ++ [self]) as ->.
  { rewrite (ss_subtrees _ _ Hss), (move_store_subtrees h self destination p rest lp ld Hml).
    by rewrite decide_True. }
  split; [done|]. by rewrite last_snoc.
Qed.

Lemma generic_move_into_file_witness :
  move_pre mixed_tree_laid 1 2 3 ∧
  cls (get mixed_tree_laid 1) = Generic ∧ cls (get mixed_tree_laid 2) = File ∧
  data_size (get mixed_tree_laid 1) ≠ data_size (get mixed_tree_laid 3) ∧
  laid_out mixed_tree_laid 2 ∧
  ∃ fuel h', move fuel 1 2 mixed_tree_laid = Ret tt h' ∧
             _subtrees (get h' 2) = _subtrees (get mixed_tree_laid 2) ++ [1%nat] ∧
             last (_subtrees (get h' 2)) = Some 1%nat.
Proof.
  split; [apply mixed_tree_move_pre|].
  split; [by vm_compute|]. split; [by vm_compute|]. split; [by vm_compute|].
  split; [apply mixed_tree_laid_out|].
  apply (generic_move_into_file_succeeds mixed_tree_laid 1 2 3 mixed_tree_move_pre);
    [by vm_compute..|apply mixed_tree_laid_out].
Defined.

(** ** Moving a node into itself *)

(** C10, amended. [TMTree.move(n, n)] does nothing. So [n.move(n)] returns
    without an error and writes nothing when [n] is a [TMTree] or a
    [DirectoryTree]; on a [FileTree] or a [ChessTree] it raises
    [OperationNotSupportedError], and writes nothing either. *)
Theorem move_to_self (fuel : nat) (h : heap) (n : oid) :
  TMTree_move fuel n n h = Ret tt h ∧
  move fuel n n h =
    match cls (get h n) with
    | Generic | Directory => Ret tt h
    | File | ChessMove => Raise OperationNotSupportedError h
    end.
Proof.
  assert (TMTree_move fuel n n h = Ret tt h) as Hbase.
  { unfold TMTree_move. by rewrite decide_True. }
  split; [done|]. unfold move, is_FileTree.
  by destruct (cls (get h n)).
Qed.

(** C10 as stated fails: [FileTree('f', 3)] moved into itself raises. *)
Lemma file_move_to_self_raises :
  ¬ (∀ fuel h n, n ∈ dom h → move fuel n n h = Ret tt h).
Proof.
  intros H.
  specialize (H 1%nat (FileTree_init 1 "f" 3 black ∅) 1%nat ltac:(concrete)).
  by vm_compute in H.
Qed.

(** * Further properties of the program *)

(** ** The tree at a position *)

(** X1. In a store that satisfies the invariants, for a node [self] of
    the displayed tree, a tree that [self.get_tree_at_position(pos)]
    returns is a node of the subtree of [self] that is a leaf of the
    displayed tree and whose rectangle, the right and the bottom edge
    counted in, contains [pos]. *)
Theorem tree_at_position_is_displayed_leaf h self pos fuel t :
  wf h → displayed h self →
  get_tree_at_position fuel h self pos = Value (Some t) →
  below h self t ∧ is_displayed_tree_leaf h t = true ∧
  ∃ rt, rect (get h t) = Some rt ∧ within pos rt.
Proof.
  intros Hwf Hd Hrun.
  by apply (get_tree_at_position_sound h pos fuel self t (wf_linked _ Hwf) Hd).
Qed.

Lemma tree_at_position_is_displayed_leaf_witness :
  wf small_tree_laid ∧ displayed small_tree_laid 3 ∧
  get_tree_at_position 2 small_tree_laid 3 (100, 100) = Value (Some 2%nat) ∧
  below small_tree_laid 3 2 ∧ is_displayed_tree_leaf small_tree_laid 2 = true ∧
  ∃ rt, rect (get small_tree_laid 2) = Some rt ∧ within (100, 100) rt.
Proof.
  assert (displayed small_tree_laid 3) as Hd by (intros p; by vm_compute).
  assert (get_tree_at_position 2 small_tree_laid 3 (100, 100) = Value (Some 2%nat))
    as Hrun by (by vm_compute).
  split; [apply small_tree_laid_wf|]. split; [done|]. split; [done|].
  apply (tree_at_position_is_displayed_leaf small_tree_laid 3 (100, 100) 2 2
           small_tree_laid_wf Hd Hrun).
Defined.



(** ** Expanding and collapsing *)

(** X3. In a store that satisfies the invariants, [self.expand()] on a
    leaf of the displayed tree that has subtrees returns the first
    subtree; afterwards [self] is no leaf of the displayed tree, every
    subtree of [self] is one, and the test gives what it gave before on
    every other node. *)
Theorem expand_shows_subtrees h self :
  wf h → self ∈ dom h → is_displayed_tree_leaf h self = true →
  _subtrees (get h self) ≠ [] →
  ∃ first h',
    expand self h = Ret first h' ∧
    head (_subtrees (get h self)) = Some first ∧
    is_displayed_tree_leaf h' self = false ∧
    (∀ c, c ∈ _subtrees (get h self) → is_displayed_tree_leaf h' c = true) ∧
    (∀ m, m ≠ self → m ∉ _subtrees (get h self) →
          is_displayed_tree_leaf h' m = is_displayed_tree_leaf h m).
Proof.
  intros Hwf Hself Hleaf Hne.
  destruct (leaf_displayed _ _ Hleaf) as [Hd He].
  destruct (wf_forest _ Hwf) as [_ (rk & bound & Hrk)].
  pose proof (wf_linked _ Hwf) as Hl.
  unfold expand. destruct (_subtrees (get h self)) as [|first cs] eqn:Hsub; [done|].
  set (h' := upd self (set_expanded true) h).
  assert (_expanded (get h' self) = true) as He'.
  { unfold h'. by rewrite get_upd_eq. }
  assert (∀ m, m ≠ self → _expanded (get h' m) = _expanded (get h m)) as Ho.
  { intros m Hm. unfold h'. by rewrite get_upd_ne. }
  assert (∀ m, _parent_tree (get h' m) = _parent_tree (get h m)) as Hp.
  { intros m. unfold h'. by apply get_upd_proj. }
  exists first, h'. split; [done|]. split; [done|]. split; [|split].
  - unfold is_displayed_tree_leaf. rewrite He'.
    destruct (_parent_tree (get h' self)); [by rewrite andb_false_r|done].
  - intros c Hc. rewrite <- Hsub in Hc.
    destruct (Hl self Hself) as [_ H2]. destruct (H2 c Hc) as [Hcd Hcp].
    assert (c ≠ self) as Hcs.
    { intros ->. destruct (Hrk self Hself) as [_ Hlt]. specialize (Hlt self Hcp). lia. }
    unfold is_displayed_tree_leaf. rewrite Hp, Hcp, He', Ho by done.
    rewrite (inv_collapsed _ _ (proj2 Hwf self Hself) He c); [done|by constructor].
  - intros m Hms Hmc. unfold is_displayed_tree_leaf. rewrite Hp, Ho by done.
    destruct (_parent_tree (get h m)) as [q|] eqn:Hq; [|done].
    rewrite Ho; [done|]. intros ->.
    pose proof (parent_in_dom _ _ _ Hq) as Hmd.
    destruct (Hl m Hmd) as [H1 _]. destruct (H1 self Hq) as [_ Hin].
    rewrite Hsub in Hin. done.
Qed.

Lemma expand_shows_subtrees_witness :
  wf chain_tree_collapsed ∧ 2%nat ∈ dom chain_tree_collapsed ∧
  is_displayed_tree_leaf chain_tree_collapsed 2 = true ∧
  _subtrees (get chain_tree_collapsed 2) ≠ [] ∧
  ∃ first h',
    expand 2 chain_tree_collapsed = Ret first h' ∧
    head (_subtrees (get chain_tree_collapsed 2)) = Some first ∧
    is_displayed_tree_leaf h' 2 = false ∧
    (∀ c, c ∈ _subtrees (get chain_tree_collapsed 2) →
          is_displayed_tree_leaf h' c = true) ∧
    (∀ m, m ≠ 2%nat → m ∉ _subtrees (get chain_tree_collapsed 2) →
          is_displayed_tree_leaf h' m = is_displayed_tree_leaf chain_tree_collapsed m).
Proof.
  assert (2%nat ∈ dom chain_tree_collapsed) as Hd by concrete.
  assert (is_displayed_tree_leaf chain_tree_collapsed 2 = true) as Hleaf by (by vm_compute).
  assert (_subtrees (get chain_tree_collapsed 2) ≠ []) as Hne by (by vm_compute).
  split; [apply chain_tree_collapsed_wf|]. split; [done|]. split; [done|]. split; [done|].
  apply (expand_shows_subtrees chain_tree_collapsed 2 chain_tree_collapsed_wf Hd Hleaf Hne).
Defined.

(** X4. In a store that satisfies the invariants, [self.expand_all()] on
    a node of the displayed tree returns; afterwards every node of the
    subtree of [self] is expanded exactly when it has subtrees, the flags
    of all other nodes are as before, and the tree returned is the one
    reached from [self] by taking the last subtree as long as there is
    one, which is then a leaf of the displayed tree. *)
Theorem expand_all_expands_subtree h self :
  wf h → self ∈ dom h → displayed h self →
  ∃ fuel r h',
    expand_all fuel self h = Ret r h' ∧
    rightmost h self r ∧
    (∀ m, below h self m →
          _expanded (get h' m) = negb (bool_decide (_subtrees (get h m) = []))) ∧
    (∀ m, ¬ below h self m → _expanded (get h' m) = _expanded (get h m)) ∧
    is_displayed_tree_leaf h' r = true.
Proof.
  intros Hwf Hself Hd.
  destruct (wf_forest _ Hwf) as [_ (rk & bound & Hrk)].
  pose proof (wf_linked _ Hwf) as Hl.
  destruct (expand_all_expands rk bound h (S (rk self)) Hl Hrk self Hself ltac:(lia) h
              (same_but_expanded_refl h))
    as (r & h' & Hrun & Hs & Hmono & Hset & Hout & Hwhy).
  destruct (expand_all_run h (S (rk self)) self h r h' (same_but_expanded_refl h) Hrun)
    as [_ Hright].
  pose proof Hs as (Hss & _).
  assert (∀ m, below h self m →
               _expanded (get h' m) = negb (bool_decide (_subtrees (get h m) = [])))
    as Hin.
  { intros m Hm. case_bool_decide as Hnil; simpl; [|by apply Hset].
    destruct (_expanded (get h' m)) eqn:E; [|done].
    destruct (Hwhy m E) as [H|H]; [|done].
    pose proof (below_in_dom h self m Hself Hm) as Hmd.
    rewrite (loc_leaf _ _ (wf_local h m Hwf Hmd) Hnil) in H. done. }
  exists (S (rk self)), r, h'. split; [done|]. split; [done|]. split; [done|].
  split; [done|].
  pose proof (rightmost_below h self r Hl Hright) as Hbr.
  apply displayed_leaf.
  - intros q. rewrite (ss_parent _ _ Hss). intros Hq.
    destruct (decide (self = r)) as [<-|Hne].
    + apply Hmono. by apply Hd.
    + rewrite Hin by (by eapply below_parent_of). 
      pose proof (below_in_dom h self r Hself Hbr) as Hrd.
      destruct (Hl r Hrd) as [H1 _]. destruct (H1 q Hq) as [_ Hmem].
      rewrite bool_decide_eq_false_2; [done|]. intros Hnil. rewrite Hnil in Hmem. set_solver.
  - rewrite Hin by done. by rewrite bool_decide_eq_true_2 by (by eapply rightmost_end).
Qed.

Lemma expand_all_expands_subtree_witness :
  wf small_tree_collapsed ∧ 3%nat ∈ dom small_tree_collapsed ∧
  displayed small_tree_collapsed 3 ∧
  ∃ fuel r h',
    expand_all fuel 3 small_tree_collapsed = Ret r h' ∧
    rightmost small_tree_collapsed 3 r ∧
    (∀ m, below small_tree_collapsed 3 m →
          _expanded (get h' m)
            = negb (bool_decide (_subtrees (get small_tree_collapsed m) = []))) ∧
    (∀ m, ¬ below small_tree_collapsed 3 m →
          _expanded (get h' m) = _expanded (get small_tree_collapsed m)) ∧
    is_displayed_tree_leaf h' r = true.
Proof.
  assert (3%nat ∈ dom small_tree_collapsed) as Hd by concrete.
  assert (displayed small_tree_collapsed 3) as Hdisp by (intros p; by vm_compute).
  split; [apply small_tree_collapsed_wf|]. split; [done|]. split; [done|].
  apply (expand_all_expands_subtree small_tree_collapsed 3 small_tree_collapsed_wf Hd Hdisp).
Defined.

(** X5. In a store that satisfies the invariants, [self.collapse_all()]
    on a leaf of the displayed tree returns the root of the tree of
    [self]; afterwards no node of that tree is expanded, so that the root
    is the only leaf of its displayed tree, and the flags of the nodes of
    other trees are as before. *)
Theorem collapse_all_collapses_tree h self l :
  wf h → self ∈ dom h → is_displayed_tree_leaf h self = true →
  is_chain h self l →
  let root := default self (last l) in
  ∃ fuel h',
    collapse_all fuel self h = Ret root h' ∧
    (∀ m, below h root m → _expanded (get h' m) = false) ∧
    (∀ m, ¬ below h root m → _expanded (get h' m) = _expanded (get h m)) ∧
    is_displayed_tree_leaf h' root = true ∧
    (∀ m, below h root m → m ≠ root → is_displayed_tree_leaf h' m = false).
Proof.
  intros Hwf Hself Hleaf Hc root.
  destruct (wf_forest _ Hwf) as [_ (rk & bound & Hrk)].
  destruct (leaf_displayed _ _ Hleaf) as [_ He].
  assert (∃ fuel h',
            collapse_all fuel self h = Ret root h' ∧ same_but_expanded h h' ∧
            (∀ m, below h root m → _expanded (get h' m) = false) ∧
            (∀ m, ¬ below h root m → _expanded (get h' m) = _expanded (get h m)))
    as (fuel & h' & Hrun & Hs & Hin & Hout).
  { unfold collapse_all. destruct (_parent_tree (get h self)) eqn:Hp.
    - destruct (collapse_loop_all rk bound l (S (length l + bound)) self h)
        as (h' & Hrun & Hs & _ & Hin & Hout); [done..|lia| |].
      { intros m Hm. by eapply unexpanded_below. }
      by exists (S (length l + bound)), h'.
    - inversion Hc as [|? ? ? Hp']; subst; [|congruence].
      exists O, h. split; [done|]. split; [apply same_but_expanded_refl|].
      split; [|done]. intros m Hm. by eapply unexpanded_below. }
  pose proof Hs as (Hss & _).
  exists fuel, h'. split; [done|]. split; [done|]. split; [done|]. split.
  - unfold is_displayed_tree_leaf.
    rewrite (ss_parent _ _ Hss). unfold root at 1.
    rewrite (last_chain_root h self l Hc).
    rewrite Hin; [done|constructor].
  - intros m Hm Hne. unfold is_displayed_tree_leaf. rewrite (ss_parent _ _ Hss).
    destruct (_parent_tree (get h m)) as [q|] eqn:Hq.
    + rewrite (Hin q); [done|]. by eapply below_parent_of.
    + inversion Hm as [|? q Hq' _]; subst; [done|congruence].
Qed.

Lemma collapse_all_collapses_tree_witness :
  wf small_tree ∧ 1%nat ∈ dom small_tree ∧
  is_displayed_tree_leaf small_tree 1 = true ∧ is_chain small_tree 1 [3%nat] ∧
  let root := default 1%nat (last [3%nat]) in
  ∃ fuel h',
    collapse_all fuel 1 small_tree = Ret root h' ∧
    (∀ m, below small_tree root m → _expanded (get h' m) = false) ∧
    (∀ m, ¬ below small_tree root m →
          _expanded (get h' m) = _expanded (get small_tree m)) ∧
    is_displayed_tree_leaf h' root = true ∧
    (∀ m, below small_tree root m → m ≠ root → is_displayed_tree_leaf h' m = false).
Proof.
  assert (1%nat ∈ dom small_tree) as Hd by concrete.
  assert (is_displayed_tree_leaf small_tree 1 = true) as Hleaf by (by vm_compute).
  assert (is_chain small_tree 1 [3%nat]) as Hc.
  { apply chain_step; [by vm_compute|]. apply chain_root. by vm_compute. }
  split; [apply small_tree_wf|]. split; [done|]. split; [done|]. split; [done|].
  apply (collapse_all_collapses_tree small_tree 1 [3%nat] small_tree_wf Hd Hleaf Hc).
Defined.

(** ** The layout *)







(** ** Moving *)

(** X9. [self.move(destination)] on a node [self] without a parent, for
    a node that is no [ChessTree] and a destination that is another
    object and no [FileTree], raises [AttributeError], and it does so
    after [self] has been appended to the subtrees of [destination]: the
    store at the [raise] differs from the store of the call in that list
    and in nothing else. *)
Theorem move_of_root_raises_after_append fuel h self destination :
  destination ∈ dom h → self ≠ destination →
  _parent_tree (get h self) = None →
  cls (get h self) ≠ ChessMove → cls (get h destination) ≠ File →
  ∃ h', move fuel self destination h = Raise AttributeError h' ∧
        get h' destination
          = set_subtrees (_subtrees (get h destination) ++ [self]) (get h destination) ∧
        (∀ i, i ≠ destination → get h' i = get h i).
Proof.
  intros Hd Hne Hp Hchess Hfile.
  exists (upd destination (λ nd, set_subtrees (_subtrees nd ++ [self]) nd) h).
  split; [|split].
  - assert (TMTree_move fuel self destination h
            = Raise AttributeError
                (upd destination (λ nd, set_subtrees (_subtrees nd ++ [self]) nd) h)) as Hrun.
    { unfold TMTree_move. rewrite decide_False by done.
      rewrite get_upd_ne by done. by rewrite Hp. }
    unfold move, is_FileTree. rewrite bool_decide_eq_false_2 by done.
    by destruct (cls (get h self)).
  - by rewrite get_upd_eq.
  - intros i Hi. by rewrite get_upd_ne.
Qed.

Lemma move_of_root_raises_after_append_witness :
  1%nat ∈ dom chain_tree ∧ 2%nat ≠ 1%nat ∧
  _parent_tree (get chain_tree 2) = None ∧
  cls (get chain_tree 2) ≠ ChessMove ∧ cls (get chain_tree 1) ≠ File ∧
  ∃ h', move 3 2 1 chain_tree = Raise AttributeError h' ∧
        get h' 1 = set_subtrees (_subtrees (get chain_tree 1) ++ [2%nat]) (get chain_tree 1) ∧
        (∀ i, i ≠ 1%nat → get h' i = get chain_tree i).
Proof.
  assert (1%nat ∈ dom chain_tree) as Hd by concrete.
  assert (2%nat ≠ 1%nat) as Hne by done.
  assert (_parent_tree (get chain_tree 2) = None) as Hp by (by vm_compute).
  assert (cls (get chain_tree 2) ≠ ChessMove) as Hc by (by vm_compute).
  assert (cls (get chain_tree 1) ≠ File) as Hf by (by vm_compute).
  split; [done|]. split; [done|]. split; [done|]. split; [done|]. split; [done|].
  apply (move_of_root_raises_after_append 3 chain_tree 2 1 Hd Hne Hp Hc Hf).
Defined.

(** X10. Under the preconditions of [move], a completed
    [self.move(destination)] has made [destination] the parent of
    [self], appended [self] to the subtrees of [destination] and removed
    it from those of its old parent [p]; no other link has changed;
    [destination] is expanded, and [self] is a leaf of the displayed tree
    again while [destination] is none any more. No object has been
    created, and class, name, colour and the size of [self] are as
    before. *)
Theorem move_relinks h self destination p :
  move_pre h self destination p →
  ∀ fuel h', move fuel self destination h = Ret tt h' →
    _parent_tree (get h' self) = Some destination ∧
    _subtrees (get h' destination) = _subtrees (get h destination) ++ [self] ∧
    list_remove self (_subtrees (get h p)) = Some (_subtrees (get h' p)) ∧
    self ∉ _subtrees (get h' p) ∧
    (∀ i, i ≠ self → _parent_tree (get h' i) = _parent_tree (get h i)) ∧
    (∀ i, i ≠ destination → i ≠ p → _subtrees (get h' i) = _subtrees (get h i)) ∧
    _expanded (get h' destination) = true ∧
    is_displayed_tree_leaf h' self = true ∧
    is_displayed_tree_leaf h' destination = false ∧
    dom h' = dom h ∧
    (∀ i, cls (get h' i) = cls (get h i) ∧ _name (get h' i) = _name (get h i) ∧
          _colour (get h' i) = _colour (get h i)) ∧
    data_size (get h' self) = data_size (get h self).
Proof.
  intros Hpre fuel h' Hrun.
  destruct (move_Ret_store h self destination p fuel h' Hpre Hrun)
    as (rest & lp & ld & Hml & Hmf & (Hss & Hz & He)).
  pose proof (move_store_subtrees h self destination p rest lp ld Hml) as Hsub.
  pose proof (move_store_parent h self destination p rest lp ld Hml) as Hpar.
  pose proof (move_store_expanded h self destination p rest lp ld Hml) as Hexp.
  pose proof (move_store_size h self destination p rest lp ld Hml) as Hsz.
  destruct Hpre as [Hwf _ _ _ _ _].
  pose proof (ml_p _ _ _ _ _ _ _ Hml) as Hpd.
  pose proof (ml_rest _ _ _ _ _ _ _ Hml) as Hrm.
  pose proof (ml_ne_d _ _ _ _ _ _ _ Hml) as Hsd.
  pose proof (ml_ne_p _ _ _ _ _ _ _ Hml) as Hsp.
  pose proof (ml_d_p _ _ _ _ _ _ _ Hml) as Hdp.
  pose proof (ml_self_lp _ _ _ _ _ _ _ Hml) as Hslp.
  pose proof (ml_self_ld _ _ _ _ _ _ _ Hml) as Hsld.
  assert (NoDup (_subtrees (get h p))) as Hnd by (by apply (proj1 (wf_forest _ Hwf))).
  destruct (list_remove_NoDup _ _ _ Hnd Hrm) as (_ & Hnotin & _).
  assert (_parent_tree (get h' self) = Some destination) as Hp'.
  { by rewrite (ss_parent _ _ Hss), Hpar, decide_True. }
  assert (_expanded (get h' destination) = true) as Hed.
  { by rewrite He, Hexp, decide_True. }
  assert (_expanded (get h' self) = false) as Hes.
  { rewrite He, Hexp, !decide_False by done. apply (mf_self _ _ _ _ _ _ Hmf). }
  split; [done|]. split.
  { by rewrite (ss_subtrees _ _ Hss), Hsub, decide_True. }
  assert (_subtrees (get h' p) = rest) as Hrest.
  { rewrite (ss_subtrees _ _ Hss), Hsub, decide_False by done. by rewrite decide_True. }
  split; [by rewrite Hrest|]. split; [by rewrite Hrest|]. split.
  { intros i Hi. by rewrite (ss_parent _ _ Hss), Hpar, decide_False. }
  split.
  { intros i Hid Hip. by rewrite (ss_subtrees _ _ Hss), Hsub, !decide_False. }
  split; [done|]. split.
  { unfold is_displayed_tree_leaf. by rewrite Hp', Hed, Hes. }
  split.
  { unfold is_displayed_tree_leaf. rewrite Hed.
    destruct (_parent_tree (get h' destination)); [by rewrite andb_false_r|done]. }
  split.
  { by rewrite (ss_dom _ _ Hss), (move_store_dom h self destination p rest lp ld). }
  split.
  { intros i. rewrite (ss_cls _ _ Hss), (ss_name _ _ Hss), (ss_colour _ _ Hss).
    by rewrite !(move_store_proj h self destination p rest lp ld). }
  rewrite Hz, Hsz, !on_notin; [lia|set_solver|set_solver].
Qed.

Lemma move_relinks_witness :
  move_pre small_tree_laid 2 1 3 ∧
  ∀ fuel h', move fuel 2 1 small_tree_laid = Ret tt h' →
    _parent_tree (get h' 2) = Some 1%nat ∧
    _subtrees (get h' 1) = _subtrees (get small_tree_laid 1) ++ [2%nat] ∧
    list_remove 2 (_subtrees (get small_tree_laid 3)) = Some (_subtrees (get h' 3)) ∧
    2%nat ∉ _subtrees (get h' 3) ∧
    (∀ i, i ≠ 2%nat → _parent_tree (get h' i) = _parent_tree (get small_tree_laid i)) ∧
    (∀ i, i ≠ 1%nat → i ≠ 3%nat →
          _subtrees (get h' i) = _subtrees (get small_tree_laid i)) ∧
    _expanded (get h' 1) = true ∧
    is_displayed_tree_leaf h' 2 = true ∧
    is_displayed_tree_leaf h' 1 = false ∧
    dom h' = dom small_tree_laid ∧
    (∀ i, cls (get h' i) = cls (get small_tree_laid i) ∧
          _name (get h' i) = _name (get small_tree_laid i) ∧
          _colour (get h' i) = _colour (get small_tree_laid i)) ∧
    data_size (get h' 2) = data_size (get small_tree_laid 2).
Proof.
  split; [apply small_tree_move_pre|].
  apply (move_relinks small_tree_laid 2 1 3 small_tree_move_pre).
Defined.



(** ** Resizing *)



(** X13. The change follows the sign of the factor: for a product
    [factor * size] that has the sign of [factor], in a store that
    satisfies the invariants, a [self.change_size(factor)] that returns
    has not made [self] smaller when [factor >= 0] and has not made it
    larger when [factor < 0]. *)
Theorem change_size_follows_sign (float_mul : Q → Z → Q) h self factor :
  (∀ q z, (0 <= q)%Q → 0 ≤ z → (0 <= float_mul q z)%Q) →
  (∀ q z, (q < 0)%Q → 0 ≤ z → (float_mul q z <= 0)%Q) →
  wf h → self ∈ dom h →
  ∀ fuel h', change_size float_mul fuel self factor h = Ret tt h' →
    ((0 <= factor)%Q → data_size (get h self) ≤ data_size (get h' self)) ∧
    ((factor < 0)%Q → data_size (get h' self) ≤ data_size (get h self)).
Proof.
  intros Hpos Hneg Hwf Hself fuel h' Hrun.
  destruct (wf_chain h self Hwf Hself) as (l & Hc & _ & Hns & _).
  assert (final_heap (TMTree_change_size float_mul fuel self factor h) = Some h') as Hfin.
  { unfold change_size in Hrun. destruct (cls (get h self)); by rewrite ?Hrun. }
  destruct (TMTree_change_size_post float_mul h self factor l fuel h' Hwf Hself Hc Hfin)
    as (_ & _ & Hsz).
  assert (data_size (get h' self) = resized float_mul h self factor) as ->.
  { rewrite Hsz. unfold on. rewrite decide_True by set_solver. lia. }
  pose proof (loc_size _ _ (wf_local h self Hwf Hself)) as Hs1.
  pose proof (loc_sum _ _ (wf_local h self Hwf Hself)) as Hsum.
  unfold resized. split.
  - intros Hf. destruct (Qlt_le_dec factor 0) as [Hlt|_]; [by apply Qlt_not_le in Hlt|].
    assert (0 ≤ Qceiling (float_mul factor (data_size (get h self)))) as Hd.
    { replace 0 with (Qceiling 0) by done. apply Qceiling_resp_le. apply Hpos; [done|lia]. }
    destruct (_subtrees (get h self)); lia.
  - intros Hf. destruct (Qlt_le_dec factor 0) as [_|Hle]; [|by apply Qlt_not_le in Hf].
    assert (Qfloor (float_mul factor (data_size (get h self))) ≤ 0) as Hd.
    { replace 0 with (Qfloor 0) by done. apply Qfloor_resp_le. apply Hneg; [done|lia]. }
    destruct (_subtrees (get h self)) as [|c cs] eqn:E; [lia|].
    specialize (Hsum ltac:(done)). lia.
Qed.

Lemma change_size_follows_sign_witness :
  (∀ q z, (0 <= q)%Q → 0 ≤ z → (0 <= exact_mul q z)%Q) ∧
  (∀ q z, (q < 0)%Q → 0 ≤ z → (exact_mul q z <= 0)%Q) ∧
  wf small_tree_laid ∧ 2%nat ∈ dom small_tree_laid ∧
  ∀ fuel h', change_size exact_mul fuel 2 (-2 # 3) small_tree_laid = Ret tt h' →
    ((0 <= -2 # 3)%Q → data_size (get small_tree_laid 2) ≤ data_size (get h' 2)) ∧
    ((-2 # 3 < 0)%Q → data_size (get h' 2) ≤ data_size (get small_tree_laid 2)).
Proof.
  assert (∀ q z, (0 <= q)%Q → 0 ≤ z → (0 <= exact_mul q z)%Q) as H1.
  { intros [n d] z Hq Hz. unfold exact_mul, Qle, Qmult, inject_Z in *. simpl in *. nia. }
  assert (∀ q z, (q < 0)%Q → 0 ≤ z → (exact_mul q z <= 0)%Q) as H2.
  { intros [n d] z Hq Hz. unfold exact_mul, Qle, Qlt, Qmult, inject_Z in *. simpl in *. nia. }
  assert (2%nat ∈ dom small_tree_laid) as H3 by concrete.
  split; [done|]. split; [done|]. split; [apply small_tree_laid_wf|]. split; [done|].
  apply (change_size_follows_sign exact_mul small_tree_laid 2 (-2 # 3) H1 H2
           small_tree_laid_wf H3).
Defined.



(** ** Chess trees *)

(** X15. [ChessTree(move_dict, last_move, white_to_play,
    num_games_ended)], called in a store that satisfies the invariants,
    with a dictionary whose moves are non-empty strings, whose counts are
    not negative and are positive where a move has no continuation, a
    non-empty [last_move], and a count that is not negative and is
    positive for the empty dictionary, leaves a store that satisfies the
    invariants again. The objects that were there are as they were; the
    new tree is a root named [last_move], and its size is
    [num_games_ended] plus the sum of all counts of the dictionary. *)
Theorem ChessTree_init_builds_tree (draw : oid → colour) move_dict last_move
    white_to_play num_games_ended next h :
  (∀ i, colour_ok (draw i)) → valid_dict move_dict →
  wf h → fresh_from next h →
  last_move ≠ EmptyString → 0 ≤ num_games_ended →
  (move_dict = NDict [] → 0 < num_games_ended) →
  ∃ next' h',
    ChessTree_init draw move_dict last_move white_to_play num_games_ended next h
      = (next, next', h') ∧
    wf h' ∧
    (∀ i, i ∈ dom h' ↔ i ∈ dom h ∨ (next ≤ i < next')%nat) ∧
    (∀ i, (i < next)%nat → get h' i = get h i) ∧
    _parent_tree (get h' next) = None ∧
    _name (get h' next) = last_move ∧
    data_size (get h' next) = num_games_ended + dict_total move_dict.
Proof.
  intros Hdraw Hval Hwf Hfr Hname Hn Hleaf.
  destruct (ChessTree_init_spec draw Hdraw move_dict Hval last_move white_to_play
              num_games_ended next h) as (next' & h' & Hrun & [] & Hnm & Hsz & _);
    [done..|].
  by exists next', h'.
Qed.

Lemma ChessTree_init_builds_tree_witness :
  (∀ i, colour_ok ((λ _ : oid, black) i)) ∧ valid_dict docstring_dict ∧
  wf ∅ ∧ fresh_from 0 ∅ ∧ "-" ≠ EmptyString ∧ 0 ≤ 0 ∧
  (docstring_dict = NDict [] → 0 < 0) ∧
  ∃ next' h',
    ChessTree_init (λ _, black) docstring_dict "-" true 0 0 ∅ = (0%nat, next', h') ∧
    wf h' ∧
    (∀ i, i ∈ dom h' ↔ i ∈ dom (∅ : heap) ∨ (0 ≤ i < next')%nat) ∧
    (∀ i, (i < 0)%nat → get h' i = get ∅ i) ∧
    _parent_tree (get h' 0) = None ∧
    _name (get h' 0) = "-" ∧
    data_size (get h' 0) = 0 + dict_total docstring_dict.
Proof.
  assert ("-" ≠ EmptyString) as H1 by done.
  assert (0 ≤ 0) as H2 by lia.
  assert (docstring_dict = NDict [] → 0 < 0) as H3 by done.
  split; [apply black_ok|]. split; [apply docstring_dict_valid|]. split; [apply wf_empty|].
  split; [apply fresh_from_empty|]. split; [done|]. split; [done|]. split; [done|].
  apply (ChessTree_init_builds_tree (λ _, black) docstring_dict "-" true 0 0 ∅
           black_ok docstring_dict_valid wf_empty (fresh_from_empty 0) H1 H2 H3).
Defined.

(** X16. In the tree that [ChessTree(...)] builds, under the same
    preconditions, every object is a [ChessTree], the root has the
    [_white_to_play] it was given, and every other object has the
    opposite of that of its parent: the turns alternate along every
    line. *)
Theorem ChessTree_init_alternates (draw : oid → colour) move_dict last_move
    white_to_play num_games_ended next h :
  (∀ i, colour_ok (draw i)) → valid_dict move_dict →
  wf h → fresh_from next h →
  last_move ≠ EmptyString → 0 ≤ num_games_ended →
  (move_dict = NDict [] → 0 < num_games_ended) →
  ∃ next' h',
    ChessTree_init draw move_dict last_move white_to_play num_games_ended next h
      = (next, next', h') ∧
    _white_to_play (get h' next) = white_to_play ∧
    ∀ i, (next ≤ i < next')%nat →
      cls (get h' i) = ChessMove ∧
      ∀ p, _parent_tree (get h' i) = Some p →
           _white_to_play (get h' i) = negb (_white_to_play (get h' p)).
Proof.
  intros Hdraw Hval Hwf Hfr Hname Hn Hleaf.
  destruct (ChessTree_init_spec draw Hdraw move_dict Hval last_move white_to_play
              num_games_ended next h) as (next' & h' & Hrun & _ & _ & _ & Hw & _ & Hobj);
    [done..|].
  by exists next', h'.
Qed.

Lemma ChessTree_init_alternates_witness :
  (∀ i, colour_ok ((λ _ : oid, black) i)) ∧ valid_dict docstring_dict ∧
  wf ∅ ∧ fresh_from 0 ∅ ∧ "-" ≠ EmptyString ∧ 0 ≤ 0 ∧
  (docstring_dict = NDict [] → 0 < 0) ∧
  ∃ next' h',
    ChessTree_init (λ _, black) docstring_dict "-" true 0 0 ∅ = (0%nat, next', h') ∧
    _white_to_play (get h' 0) = true ∧
    ∀ i, (0 ≤ i < next')%nat →
      cls (get h' i) = ChessMove ∧
      ∀ p, _parent_tree (get h' i) = Some p →
           _white_to_play (get h' i) = negb (_white_to_play (get h' p)).
Proof.
  assert ("-" ≠ EmptyString) as H1 by done.
  assert (0 ≤ 0) as H2 by lia.
  assert (docstring_dict = NDict [] → 0 < 0) as H3 by done.
  split; [apply black_ok|]. split; [apply docstring_dict_valid|]. split; [apply wf_empty|].
  split; [apply fresh_from_empty|]. split; [done|]. split; [done|]. split; [done|].
  apply (ChessTree_init_alternates (λ _, black) docstring_dict "-" true 0 0 ∅
           black_ok docstring_dict_valid wf_empty (fresh_from_empty 0) H1 H2 H3).
Defined.

(** ** Directory trees *)

(** X17. [dir_tree_from_nested_tuple(obj)], called in a store that
    satisfies the invariants on the nested tuple of a directory in which
    every name is a non-empty string and every file has a positive size,
    returns a new [DirectoryTree] in a store that satisfies the
    invariants again. The objects that were there are as they were; the
    tree returned is a root, and its size is the sum of the sizes of the
    files of the tuple plus the number of its directories. *)
Theorem dir_tree_from_nested_tuple_builds_tree (draw : oid → colour)
    name files next h :
  (∀ i, colour_ok (draw i)) → valid_tuple (NTuple name (inr files)) →
  wf h → fresh_from next h →
  ∃ self next' h',
    dir_tree_from_nested_tuple draw (NTuple name (inr files)) next h
      = Ret (self, next') h' ∧
    wf h' ∧
    (∀ i, i ∈ dom h' ↔ i ∈ dom h ∨ (next ≤ i < next')%nat) ∧
    (∀ i, (i < next)%nat → get h' i = get h i) ∧
    (next ≤ self < next')%nat ∧
    _parent_tree (get h' self) = None ∧
    cls (get h' self) = Directory ∧
    data_size (get h' self) = tuple_size (NTuple name (inr files)).
Proof.
  intros Hdraw Hval Hwf Hfr.
  destruct (dir_tree_from_nested_tuple_spec draw Hdraw _ Hval name files eq_refl next h)
    as (self & next' & h' & Hrun & [] & Hcls & Hsz); [done..|].
  by exists self, next', h'.
Qed.

Lemma dir_tree_from_nested_tuple_builds_tree_witness :
  (∀ i, colour_ok ((λ _ : oid, black) i)) ∧ valid_tuple docstring_tuple ∧
  wf ∅ ∧ fresh_from 0 ∅ ∧
  ∃ self next' h',
    dir_tree_from_nested_tuple (λ _, black) docstring_tuple 0 ∅ = Ret (self, next') h' ∧
    wf h' ∧
    (∀ i, i ∈ dom h' ↔ i ∈ dom (∅ : heap) ∨ (0 ≤ i < next')%nat) ∧
    (∀ i, (i < 0)%nat → get h' i = get ∅ i) ∧
    (0 ≤ self < next')%nat ∧
    _parent_tree (get h' self) = None ∧
    cls (get h' self) = Directory ∧
    data_size (get h' self) = tuple_size docstring_tuple.
Proof.
  split; [apply black_ok|]. split; [apply docstring_tuple_valid|]. split; [apply wf_empty|].
  split; [apply fresh_from_empty|].
  apply (dir_tree_from_nested_tuple_builds_tree (λ _, black) "." _ 0 ∅
           black_ok docstring_tuple_valid wf_empty (fresh_from_empty 0)).
Defined.

(** ** Games *)

(** X18. For games whose moves are non-empty strings,
    [moves_to_nested_dict] returns a dictionary that
    [ChessTree.__init__] can be given: its moves are non-empty strings,
    no count is negative, and every move without continuation has a
    positive count. *)
Theorem moves_to_nested_dict_fits_ChessTree moves :
  (∀ g m, g ∈ moves → m ∈ g → m ≠ EmptyString) →
  ∃ fuel d, moves_to_nested_dict fuel moves = Some d ∧ valid_dict d.
Proof.
  intros Htok.
  destruct (moves_to_nested_dict_total (length (concat moves)) moves) as (d & Hrun).
  { intros g Hg. by apply length_le_concat. }
  exists (S (length (concat moves))), d. split; [done|].
  by apply (moves_to_nested_dict_valid _ _ _ Hrun).
Qed.

Lemma moves_to_nested_dict_fits_ChessTree_witness :
  (∀ g m, g ∈ docstring_games → m ∈ g → m ≠ EmptyString) ∧
  ∃ fuel d, moves_to_nested_dict fuel docstring_games = Some d ∧ valid_dict d.
Proof.
  split; [apply docstring_games_tokens|].
  apply (moves_to_nested_dict_fits_ChessTree docstring_games docstring_games_tokens).
Defined.

(** X19. From games to the tree: for games whose moves are non-empty
    strings and whose first game is not empty,
    [ChessTree(moves_to_nested_dict(moves))] is built without an error in
    a store that satisfies the invariants; the tree is a root, and its
    size is the sum of the counts of the dictionary. *)
Theorem chess_tree_of_games (draw : oid → colour) moves :
  (∀ i, colour_ok (draw i)) →
  (∀ g m, g ∈ moves → m ∈ g → m ≠ EmptyString) →
  (∃ m g rest, moves = (m :: g) :: rest) →
  ∃ fuel d next' h',
    moves_to_nested_dict fuel moves = Some d ∧
    ChessTree_init draw d "-" true 0 0 ∅ = (0%nat, next', h') ∧
    wf h' ∧
    _parent_tree (get h' 0) = None ∧
    _subtrees (get h' 0) ≠ [] ∧
    data_size (get h' 0) = dict_total d.
Proof.
  intros Hdraw Htok (m & g & rest & ->).
  destruct (moves_to_nested_dict_total (length (concat ((m :: g) :: rest)))
              ((m :: g) :: rest)) as (d & Hrun).
  { intros g' Hg'. by apply length_le_concat. }
  destruct (moves_to_nested_dict_valid _ _ _ Hrun) as [_ Hv].
  specialize (Hv Htok).
  assert (d ≠ NDict []) as Hne.
  { intros ->. by apply moves_to_nested_dict_empty in Hrun as [?|(? & ?)]. }
  destruct (ChessTree_init_spec draw Hdraw d Hv "-" true 0 0%nat ∅)
    as (next' & h' & Hinit & [] & _ & Hsz & _ & Hleaf & _);
    [apply wf_empty|apply fresh_from_empty|done|lia|done|].
  exists (S (length (concat ((m :: g) :: rest)))), d, next', h'.
  split; [done|]. split; [done|]. split; [done|]. split; [done|]. split; [|lia].
  intros Hnil. by apply Hne, Hleaf.
Qed.

Lemma chess_tree_of_games_witness :
  (∀ i, colour_ok ((λ _ : oid, black) i)) ∧
  (∀ g m, g ∈ docstring_games → m ∈ g → m ≠ EmptyString) ∧
  (∃ m g rest, docstring_games = (m :: g) :: rest) ∧
  ∃ fuel d next' h',
    moves_to_nested_dict fuel docstring_games = Some d ∧
    ChessTree_init (λ _, black) d "-" true 0 0 ∅ = (0%nat, next', h') ∧
    wf h' ∧
    _parent_tree (get h' 0) = None ∧
    _subtrees (get h' 0) ≠ [] ∧
    data_size (get h' 0) = dict_total d.
Proof.
  assert (∃ m g rest, docstring_games = (m :: g) :: rest) as H by (by eexists _, _, _).
  split; [apply black_ok|]. split; [apply docstring_games_tokens|]. split; [done|].
  apply (chess_tree_of_games (λ _, black) docstring_games black_ok docstring_games_tokens H).
Defined.

(** X20. The dictionary that [moves_to_nested_dict] returns branches by
    the move: no two keys of one dictionary, at any depth, carry the same
    move, so that the games that share a beginning share a path. *)
Theorem moves_to_nested_dict_branches fuel moves d :
  moves_to_nested_dict fuel moves = Some d → branching d.
Proof. intros Hrun. by apply (moves_to_nested_dict_valid _ _ _ Hrun). Qed.

Lemma moves_to_nested_dict_branches_witness :
  moves_to_nested_dict 4 docstring_games
    = Some (NDict [(("a", 0), NDict [(("b", 1), NDict [(("c", 1), NDict [])])]);
                   (("d", 0), NDict [(("e", 2), NDict [])])]) ∧
  branching (NDict [(("a", 0), NDict [(("b", 1), NDict [(("c", 1), NDict [])])]);
                    (("d", 0), NDict [(("e", 2), NDict [])])]).
Proof.
  assert (moves_to_nested_dict 4 docstring_games
          = Some (NDict [(("a", 0), NDict [(("b", 1), NDict [(("c", 1), NDict [])])]);
                         (("d", 0), NDict [(("e", 2), NDict [])])])) as Hrun
    by (by vm_compute).
  split; [done|].
  apply (moves_to_nested_dict_branches 4 docstring_games _ Hrun).
Defined.

(** X21. One game gives one line: [moves_to_nested_dict([game])] is the
    dictionary in which every move of the game is the only key of the
    dictionary under the move before it, with the count 1 for the last
    move and 0 for the others. *)
Theorem moves_to_nested_dict_of_one_game game :
  moves_to_nested_dict (S (length game)) [game] = Some (game_dict game).
Proof. by apply moves_to_nested_dict_single. Qed.

(** ** Rectangles and path strings *)



(** X23. For a node [self] with the ancestors [l], nearest first,
    [self.get_path_string()] is the names of the ancestors from the root
    down, each followed by the separator of the class of [self], and then
    the name of [self] and its suffix. *)
Theorem get_path_string_joins_names (os_sep : string) h self l fuel :
  is_chain h self l → (length l < fuel)%nat →
  get_path_string os_sep fuel h self
  = Some (foldr (λ a s, _name (get h a) +:+ get_separator os_sep h self +:+ s)
                (_name (get h self) +:+ get_suffix h self) (rev l)).
Proof.
  intros Hc Hf. unfold get_path_string. by apply path_loop_chain.
Qed.

Lemma get_path_string_joins_names_witness :
  is_chain chain_tree 1 [2%nat] ∧ (length [2%nat] < 2)%nat ∧
  get_path_string "/" 2 chain_tree 1
  = Some (foldr (λ a s, _name (get chain_tree a) +:+ get_separator "/" chain_tree 1 +:+ s)
                (_name (get chain_tree 1) +:+ get_suffix chain_tree 1) (rev [2%nat])).
Proof.
  assert (is_chain chain_tree 1 [2%nat]) as Hc.
  { apply chain_step; [by vm_compute|]. apply chain_root. by vm_compute. }
  assert (length [2%nat] < 2)%nat as Hf by (simpl; lia).
  split; [done|]. split; [done|].
  apply (get_path_string_joins_names "/" chain_tree 1 [2%nat] 2 Hc Hf).
Defined.

(** ** Construction *)

(** X24. [TMTree.__init__] on a new object [self] and distinct subtrees
    of the store gives [self] the given name, no rectangle and no
    parent, the given size plus the sizes of the subtrees, and the
    [_expanded] flag exactly when there are subtrees; it makes [self] the
    parent of every subtree and changes nothing else: every other
    attribute of the subtrees and every other object are as they
    were. *)
Theorem TMTree_init_sets_up_node h k self name subtrees size col wtp :
  self ∉ dom h → NoDup subtrees → (∀ c, c ∈ subtrees → c ∈ dom h) →
  let h' := TMTree_init k self name subtrees size col wtp h in
  dom h' = {[self]} ∪ dom h ∧
  get h' self = Node k None (size + sum_sizes h subtrees) col name subtrees None
                     (bool_decide (subtrees ≠ [])) wtp ∧
  (∀ c, c ∈ subtrees → get h' c = set_parent_tree (Some self) (get h c)) ∧
  (∀ i, i ≠ self → i ∉ subtrees → get h' i = get h i).
Proof.
  intros Hself Hnd Hsub h'.
  destruct (TMTree_init_spec h k self name subtrees size col wtp Hself Hnd Hsub)
    as (Hd & Hs & Hch & Ho).
  split; [done|]. split; [|done]. fold h' in Hs. rewrite Hs, sum_sizes_sumZ.
  f_equal. by destruct subtrees.
Qed.

Lemma TMTree_init_sets_up_node_witness :
  3%nat ∉ dom (TMTree_init Generic 2 "C2" [] 15 black false
                 (TMTree_init Generic 1 "C1" [] 5 black false ∅)) ∧
  NoDup [1%nat; 2%nat] ∧
  (∀ c, c ∈ [1%nat; 2%nat] →
        c ∈ dom (TMTree_init Generic 2 "C2" [] 15 black false
                   (TMTree_init Generic 1 "C1" [] 5 black false ∅))) ∧
  let h := TMTree_init Generic 2 "C2" [] 15 black false
             (TMTree_init Generic 1 "C1" [] 5 black false ∅) in
  let h' := TMTree_init Generic 3 "C" [1%nat; 2%nat] 1 black false h in
  dom h' = {[3%nat]} ∪ dom h ∧
  get h' 3 = Node Generic None (1 + sum_sizes h [1%nat; 2%nat]) black "C" [1%nat; 2%nat]
                  None (bool_decide ([1%nat; 2%nat] ≠ [])) false ∧
  (∀ c, c ∈ [1%nat; 2%nat] → get h' c = set_parent_tree (Some 3%nat) (get h c)) ∧
  (∀ i, i ≠ 3%nat → i ∉ [1%nat; 2%nat] → get h' i = get h i).
Proof.
  assert (3%nat ∉ dom (TMTree_init Generic 2 "C2" [] 15 black false
                         (TMTree_init Generic 1 "C1" [] 5 black false ∅))) as H1
    by concrete.
  assert (NoDup [1%nat; 2%nat]) as H2 by concrete.
  assert (∀ c, c ∈ [1%nat; 2%nat] →
               c ∈ dom (TMTree_init Generic 2 "C2" [] 15 black false
                          (TMTree_init Generic 1 "C1" [] 5 black false ∅))) as H3.
  { intros c Hc. in_list Hc; concrete. }
  split; [done|]. split; [done|]. split; [done|].
  apply (TMTree_init_sets_up_node _ Generic 3 "C" [1%nat; 2%nat] 1 black false H1 H2 H3).
Defined.
